(** * Pointer interaction and tooltip placement of the charting library

    A shallow embedding of the pointer ([Highcharts.Pointer]: event
    normalisation, nearest-point resolution, hover reconciliation, drag
    gestures, document-level routing) and of the tooltip's placement and
    hide timer ([Tooltip.ts]), with the properties the specification
    states about them.

    Conventions.
    - Pixel coordinates that the code rounds ([chartX], [plotLeft], ...) are
      integers ([Z]); positions that may be fractional (distances,
      z-indices, box sizes) are rationals ([Q]).  The event normaliser,
      where the rounding happens, is on IEEE 754 doubles.
    - [undefined]/[null] is [None]; a JavaScript [TypeError] raised by a
      property read on [undefined]/[null] is an explicit error result.
    - Calls into collaborators that live outside the modelled files
      (renderer, series and point state setters, event firing) are recorded
      in a trace, in program order. *)

From Stdlib Require Import ZArith QArith Qround Qabs Bool List String Lia Lqa.
From Stdlib Require Floats.
From stdpp Require Import base option list strings gmap.
Import ListNotations.

Local Open Scope Z_scope.

(** ** JavaScript number fragments used by the code *)

Module JS.

(** A number that may be [NaN] (the result of arithmetic on [undefined]). *)
Inductive num : Type :=
| Num (q : Q)
| NaN.

(** [a - b] where either operand may be [undefined]. *)
Definition sub (a b : option Q) : num :=
  match a, b with
  | Some x, Some y => Num (x - y)
  | _, _ => NaN
  end.

Definition Qltb (x y : Q) : bool := negb (Qle_bool y x).

(** [n !== 0] *)
Definition nonzero (n : num) : bool :=
  match n with
  | Num q => negb (Qeq_bool q 0)
  | NaN => true
  end.

(** [n > 0] *)
Definition gt0 (n : num) : bool :=
  match n with
  | Num q => Qltb 0 q
  | NaN => false
  end.

(** The result of code that may raise a [TypeError] by reading a property
    of [undefined] or [null]. *)
Inductive result (A : Type) : Type :=
| Ok (a : A)
| TypeError.
Arguments Ok {A} a.
Arguments TypeError {A}.

Definition bind {A B : Type} (r : result A) (k : A -> result B) : result B :=
  match r with
  | Ok a => k a
  | TypeError => TypeError
  end.

(** Reading through a reference that may be [undefined]. *)
Definition deref {A : Type} (o : option A) : result A :=
  match o with
  | Some a => Ok a
  | None => TypeError
  end.

(** [Math.round]: the nearest integer, halves rounded up. *)
Definition round (q : Q) : Z := Qfloor (q + (1 # 2)).

(** [s.indexOf(sub)], [-1] when absent. *)
Definition indexOf (s sub : string) : Z :=
  match String.index 0 sub s with
  | Some n => Z.of_nat n
  | None => -1
  end.

(** Modelled from the spec: [pick] is defined in Utilities.js, which is not
    among the sources; the sources use it to default an option
    ([pick(delay, this.options.hideDelay, 500)]): it yields the first
    argument that is neither [undefined] nor [null]. *)
Fixpoint pick {A : Type} (args : list (option A)) : option A :=
  match args with
  | [] => None
  | Some a :: _ => Some a
  | None :: rest => pick rest
  end.

Lemma Qltb_lt (x y : Q) : Qltb x y = true <-> (x < y)%Q.
Proof.
  unfold Qltb. rewrite negb_true_iff.
  destruct (Qle_bool y x) eqn:E.
  - apply Qle_bool_iff in E. split; [discriminate | intros H; lra].
  - split; [intros _ | reflexivity].
    destruct (Qlt_le_dec x y) as [H | H]; [exact H |].
    apply Qle_bool_iff in H. congruence.
Qed.

Lemma Qltb_ge (x y : Q) : Qltb x y = false <-> (y <= x)%Q.
Proof.
  unfold Qltb. rewrite negb_false_iff. apply Qle_bool_iff.
Qed.

Lemma nonzero_sub_false (x y : Q) :
  nonzero (Num (x - y)) = false <-> (x == y)%Q.
Proof.
  unfold nonzero. rewrite negb_false_iff, Qeq_bool_iff. split; intros H; lra.
Qed.

Lemma round_spec (q : Q) :
  (q - (1 # 2) < inject_Z (round q))%Q /\ (inject_Z (round q) <= q + (1 # 2))%Q.
Proof.
  unfold round. split.
  - pose proof (Qlt_floor (q + (1 # 2))) as H.
    rewrite inject_Z_plus in H. change (inject_Z 1) with 1%Q in H. lra.
  - apply Qfloor_le.
Qed.

End JS.

#[global] Instance result_ret : MRet JS.result := fun A a => JS.Ok a.
#[global] Instance result_bind : MBind JS.result := fun A B k r => JS.bind r k.

(** ** Nearest-point resolver ([Pointer.findNearestKDPoint]) *)

Module Nearest.

(** The series' visual group; only its [zIndex] is read. *)
Record Group : Type := { zIndex : Q }.

(** What the resolver reads through a point's [series] back-reference. *)
Record SeriesRef : Type := {
  group : option Group;
  index : Z
}.

(** A point as returned by a series' k-d search, with the distances the
    search stored on it. *)
Record Point : Type := {
  pid : nat;
  distX : Q;
  dist : Q;
  series : SeriesRef
}.

Record Event : Type := { chartX : Z; chartY : Z }.

(** A series as seen by the resolver.  [searchPoint] is the series' own
    spatial lookup (a collaborator): given the event and [compareX] it
    yields a point or [undefined]. *)
Record Series : Type := {
  noSharedTooltip : bool;
  findNearestPointBy : string;
  searchPoint : Event -> bool -> option Point
}.

(** [p.series.group && p.series.group.zIndex] *)
Definition groupZ (p : Point) : option Q :=
  zIndex <$> group (series p).

(** The local comparison function [sort]. *)
Definition sort (shared : bool) (p1 p2 : Point) : JS.num :=
  let isCloserX := JS.Num (distX p1 - distX p2) in
  let isCloser := JS.Num (dist p1 - dist p2) in
  let isAbove := JS.sub (groupZ p2) (groupZ p1) in
  if JS.nonzero isCloserX && shared then isCloserX
  else if JS.nonzero isCloser then isCloser
  else if JS.nonzero isAbove then isAbove
  else if (index (series p1) >? index (series p2))%Z
       then JS.Num (-1) else JS.Num 1.

Definition compareX (shared : bool) (s : Series) : bool :=
  let noShared := noSharedTooltip s && shared in
  negb noShared && (JS.indexOf (findNearestPointBy s) "y" <? 0)%Z.

(** The body of [series.forEach]: [closest] is the accumulator. *)
Definition visit (shared : bool) (e : Event)
    (closest : option Point) (s : Series) : option Point :=
  match searchPoint s e (compareX shared s) with
  | Some point =>
      match closest with
      | None => Some point
      | Some c => if JS.gt0 (sort shared c point) then Some point else closest
      end
  | None => closest
  end.

Definition findNearestKDPoint (series : list Series) (shared : bool)
    (e : Event) : option Point :=
  fold_left (visit shared e) series None.

(** The points the series offer, in series order. *)
Definition candidates (series : list Series) (shared : bool) (e : Event)
    : list Point :=
  omap (fun s => searchPoint s e (compareX shared s)) series.

(** Ranking among tied candidates: [q] does not beat [p]. *)
Definition outranked (q p : Point) : Prop :=
  exists zq zp, groupZ q = Some zq /\ groupZ p = Some zp /\
    ((zq < zp)%Q \/ ((zq == zp)%Q /\ (index (series q) <= index (series p))%Z)).

(** The candidates tie on the distances that [sort] compares first. *)
Definition tied (shared : bool) (l : list Point) : Prop :=
  forall p q, p ∈ l -> q ∈ l ->
    (dist p == dist q)%Q /\ (shared = true -> (distX p == distX q)%Q).

Definition grouped (l : list Point) : Prop :=
  forall p, p ∈ l -> is_Some (group (series p)).

(** The tie-break property as the specification words it: equal [dist]
    alone decides that z-index, then series index, pick the winner. *)
Definition tie_break_on_dist_only (series : list Series) (shared : bool)
    (e : Event) : Prop :=
  let l := candidates series shared e in
  l <> [] ->
  (forall p q, p ∈ l -> q ∈ l -> (dist p == dist q)%Q) ->
  exists w, findNearestKDPoint series shared e = Some w /\ w ∈ l /\
    forall q, q ∈ l -> outranked q w.

(** Two series whose points are both at distance 5 from the pointer: the
    first is nearer along x (3 against 4) and drawn below (z-index 1
    against 5). *)
Definition below : Point :=
  {| pid := 0; distX := 3; dist := 5;
     series := {| group := Some {| zIndex := 1 |}; index := 0 |} |}.
Definition above : Point :=
  {| pid := 1; distX := 4; dist := 5;
     series := {| group := Some {| zIndex := 5 |}; index := 1 |} |}.
Definition two_series : list Series :=
  [ {| noSharedTooltip := false; findNearestPointBy := "x";
       searchPoint := fun _ _ => Some below |};
    {| noSharedTooltip := false; findNearestPointBy := "x";
       searchPoint := fun _ _ => Some above |} ].
Definition origin : Event := {| chartX := 0; chartY := 0 |}.

(** The accumulator update once a series has produced a point. *)
Definition better (shared : bool) (closest : option Point) (point : Point)
    : option Point :=
  match closest with
  | None => Some point
  | Some c => if JS.gt0 (sort shared c point) then Some point else closest
  end.

Lemma fold_visit_candidates (shared : bool) (e : Event) (l : list Series) :
  forall acc,
    fold_left (visit shared e) l acc =
    fold_left (better shared)
      (omap (fun s => searchPoint s e (compareX shared s)) l) acc.
Proof.
  induction l as [| s l IH]; intros acc; [reflexivity |].
  cbn [fold_left]. rewrite IH. unfold visit at 1. cbn.
  destruct (searchPoint s e (compareX shared s)) as [pt |]; reflexivity.
Qed.

Lemma findNearest_candidates (series : list Series) (shared : bool) (e : Event) :
  findNearestKDPoint series shared e =
  fold_left (better shared) (candidates series shared e) None.
Proof. apply fold_visit_candidates. Qed.

(** On tied points that both have a group, [sort] is positive exactly when
    the second point is not outranked by the first. *)
Lemma sort_tied (shared : bool) (c p : Point) (zc zp : Q) :
  (dist c == dist p)%Q ->
  (shared = true -> (distX c == distX p)%Q) ->
  groupZ c = Some zc -> groupZ p = Some zp ->
  JS.gt0 (sort shared c p) =
  if JS.nonzero (JS.Num (zp - zc)) then JS.Qltb 0 (zp - zc)
  else negb (index (series c) >? index (series p))%Z.
Proof.
  intros Hd Hx Hc Hp. unfold sort. rewrite Hc, Hp. cbn [JS.sub].
  assert (E1 : JS.nonzero (JS.Num (distX c - distX p)) && shared = false).
  { destruct shared; [| apply andb_false_r].
    rewrite andb_true_r. apply JS.nonzero_sub_false. auto. }
  rewrite E1.
  assert (E2 : JS.nonzero (JS.Num (dist c - dist p)) = false)
    by (apply JS.nonzero_sub_false; exact Hd).
  rewrite E2.
  destruct (JS.nonzero (JS.Num (zp - zc))); [reflexivity |].
  destruct (index (series c) >? index (series p))%Z; reflexivity.
Qed.

Lemma outranked_refl (p : Point) : is_Some (group (series p)) -> outranked p p.
Proof.
  intros [g Hg]. exists (zIndex g), (zIndex g). unfold groupZ. rewrite Hg.
  repeat split. right. split; [reflexivity | lia].
Qed.

Lemma outranked_trans (p q r : Point) :
  outranked p q -> outranked q r -> outranked p r.
Proof.
  intros (zp & zq & Hp & Hq & H1) (zq' & zr & Hq' & Hr & H2).
  rewrite Hq in Hq'. injection Hq' as <-.
  exists zp, zr. repeat split; [exact Hp | exact Hr |].
  destruct H1 as [H1 | [H1 H1']], H2 as [H2 | [H2 H2']].
  - left; lra.
  - left; lra.
  - left; lra.
  - right; split; [lra | lia].
Qed.

(** One accumulator update keeps a maximal element of what was seen. *)
Lemma better_outranks (shared : bool) (c p : Point) :
  (dist c == dist p)%Q ->
  (shared = true -> (distX c == distX p)%Q) ->
  is_Some (group (series c)) -> is_Some (group (series p)) ->
  exists w, better shared (Some c) p = Some w /\ (w = c \/ w = p) /\
    outranked c w /\ outranked p w.
Proof.
  intros Hd Hx [gc Hc] [gp Hp].
  assert (Zc : groupZ c = Some (zIndex gc)) by (unfold groupZ; rewrite Hc; reflexivity).
  assert (Zp : groupZ p = Some (zIndex gp)) by (unfold groupZ; rewrite Hp; reflexivity).
  unfold better. rewrite (sort_tied shared c p _ _ Hd Hx Zc Zp).
  destruct (JS.nonzero (JS.Num (zIndex gp - zIndex gc))) eqn:Enz.
  - destruct (JS.Qltb 0 (zIndex gp - zIndex gc)) eqn:Elt.
    + apply JS.Qltb_lt in Elt. exists p. repeat split; auto.
      * exists (zIndex gc), (zIndex gp). repeat split; auto. left; lra.
      * apply outranked_refl; eauto.
    + apply JS.Qltb_ge in Elt. exists c. repeat split; auto.
      * apply outranked_refl; eauto.
      * exists (zIndex gp), (zIndex gc). repeat split; auto. left.
        destruct (Qlt_le_dec (zIndex gp) (zIndex gc)) as [H | H]; [exact H |].
        assert (Heq : (zIndex gp == zIndex gc)%Q) by lra.
        apply JS.nonzero_sub_false in Heq. congruence.
  - apply JS.nonzero_sub_false in Enz.
    destruct (index (series c) >? index (series p))%Z eqn:Ei; cbn [negb].
    + exists c. repeat split; auto.
      * apply outranked_refl; eauto.
      * exists (zIndex gp), (zIndex gc). repeat split; auto. right. split; [exact Enz | lia].
    + exists p. repeat split; auto.
      * exists (zIndex gc), (zIndex gp). repeat split; auto. right. split; [lra | lia].
      * apply outranked_refl; eauto.
Qed.

Lemma fold_better_max (shared : bool) (l : list Point) :
  forall (c : Point) (seen : list Point),
    tied shared (seen ++ l) -> grouped (seen ++ l) ->
    c ∈ seen -> (forall q, q ∈ seen -> outranked q c) ->
    exists w, fold_left (better shared) l (Some c) = Some w /\
    w ∈ seen ++ l /\ forall q, q ∈ seen ++ l -> outranked q w.
Proof.
  induction l as [| p l IH]; intros c seen Ht Hg Hc Hmax.
  - exists c. rewrite app_nil_r. auto.
  - cbn [fold_left].
    assert (Hcin : c ∈ seen ++ p :: l) by (apply elem_of_app; auto).
    assert (Hpin : p ∈ seen ++ p :: l)
      by (apply elem_of_app; right; apply elem_of_cons; auto).
    destruct (Ht c p Hcin Hpin) as [Hd Hx].
    destruct (better_outranks shared c p Hd Hx (Hg c Hcin) (Hg p Hpin))
      as (w & Hw & Hwcp & Hcw & Hpw).
    rewrite Hw.
    replace (seen ++ p :: l) with ((seen ++ [p]) ++ l) in *
      by (rewrite <- app_assoc; reflexivity).
    apply IH; auto.
    + apply elem_of_app. destruct Hwcp as [-> | ->]; [left; exact Hc |].
      right. apply list_elem_of_singleton. reflexivity.
    + intros q Hq. apply elem_of_app in Hq as [Hq | Hq].
      * apply outranked_trans with c; auto.
      * apply list_elem_of_singleton in Hq. subst q. exact Hpw.
Qed.

(** C1 (as amended): over candidates that tie on [dist] (and, with a shared
    tooltip, also on [distX]) and whose series all have a visual group, the
    resolver returns a candidate that no other candidate outranks: none has
    a higher group z-index, and none with the same z-index has a higher
    series index.  The result is determined by the candidates alone: any
    series that offer the same points, in the same order, give the same
    result. *)
Theorem findNearestKDPoint_tie_break
    (series : list Series) (shared : bool) (e : Event) :
  candidates series shared e <> [] ->
  tied shared (candidates series shared e) ->
  grouped (candidates series shared e) ->
  (exists w, findNearestKDPoint series shared e = Some w /\
     w ∈ candidates series shared e /\
     forall q, q ∈ candidates series shared e -> outranked q w) /\
  (forall series',
     candidates series' shared e = candidates series shared e ->
     findNearestKDPoint series' shared e = findNearestKDPoint series shared e).
Proof.
  intros Hne Ht Hg. split.
  - rewrite findNearest_candidates.
    destruct (candidates series shared e) as [| c l] eqn:El; [congruence |].
    cbn [fold_left better].
    apply (fold_better_max shared l c [c]); auto.
    + apply list_elem_of_singleton. reflexivity.
    + intros q Hq. apply list_elem_of_singleton in Hq. subst q.
      apply outranked_refl. apply Hg. apply elem_of_cons. auto.
  - intros series' Heq. rewrite !findNearest_candidates, Heq. reflexivity.
Qed.

(** The amended statement applied to [two_series] with a per-point tooltip:
    the point drawn above wins the tie on [dist]. *)
Lemma findNearestKDPoint_tie_break_witness :
  (exists w, findNearestKDPoint two_series false origin = Some w /\
     w ∈ candidates two_series false origin /\
     forall q, q ∈ candidates two_series false origin -> outranked q w) /\
  (forall series',
     candidates series' false origin = candidates two_series false origin ->
     findNearestKDPoint series' false origin =
     findNearestKDPoint two_series false origin).
Proof.
  apply (findNearestKDPoint_tie_break two_series false origin).
  - discriminate.
  - intros p q Hp Hq. split; [| discriminate].
    cbn in Hp, Hq.
    repeat (apply elem_of_cons in Hp as [-> | Hp]);
      repeat (apply elem_of_cons in Hq as [-> | Hq]);
      try reflexivity; try (apply elem_of_nil in Hp; contradiction);
      apply elem_of_nil in Hq; contradiction.
  - intros p Hp. cbn in Hp.
    repeat (apply elem_of_cons in Hp as [-> | Hp]); cbn; eauto.
    apply elem_of_nil in Hp; contradiction.
Defined.

(** With a shared tooltip the x-distance is compared before [dist]: on
    [two_series] the resolver keeps the point that is nearer along x although
    it is drawn below the other one, so equal [dist] alone does not make
    z-index decide. *)
Lemma findNearestKDPoint_shared_prefers_distX :
  ~ tie_break_on_dist_only two_series true origin.
Proof.
  unfold tie_break_on_dist_only. intros H.
  destruct H as (w & Hw & _ & Hmax).
  - discriminate.
  - intros p q Hp Hq. cbn in Hp, Hq.
    repeat (apply elem_of_cons in Hp as [-> | Hp]);
      repeat (apply elem_of_cons in Hq as [-> | Hq]);
      try reflexivity; try (apply elem_of_nil in Hp; contradiction);
      apply elem_of_nil in Hq; contradiction.
  - vm_compute in Hw. injection Hw as <-.
    destruct (Hmax above) as (zq & zp & Hq & Hp & Hord).
    + cbn. apply elem_of_cons. right. apply elem_of_cons. left. reflexivity.
    + cbn in Hq, Hp. injection Hq as <-. injection Hp as <-.
      destruct Hord as [Hlt | [Heq _]].
      * vm_compute in Hlt. discriminate.
      * vm_compute in Heq. discriminate.
Qed.

(** *** Further properties of the resolver *)

(** [c] is at least as near as [q], in the order [sort] compares
    distances: with a shared tooltip the x-distance first, then the
    combined distance; otherwise the combined distance alone. *)
Definition at_least_as_near (shared : bool) (c q : Point) : Prop :=
  if shared
  then (distX c < distX q)%Q \/
       ((distX c == distX q)%Q /\ (dist c <= dist q)%Q)
  else (dist c <= dist q)%Q.

Lemma at_least_as_near_refl (shared : bool) (c : Point) :
  at_least_as_near shared c c.
Proof. unfold at_least_as_near. destruct shared; [right; split |]; lra. Qed.

Lemma at_least_as_near_trans (shared : bool) (a b c : Point) :
  at_least_as_near shared a b -> at_least_as_near shared b c ->
  at_least_as_near shared a c.
Proof.
  unfold at_least_as_near. destruct shared; [| intros; lra].
  intros [H1 | [H1 H1']] [H2 | [H2 H2']];
    [left | left | left | right; split]; lra.
Qed.

(** One update keeps one of the two points, and one that is at least as
    near as both. *)
Lemma better_nearest (shared : bool) (c p : Point) :
  exists w, better shared (Some c) p = Some w /\ (w = c \/ w = p) /\
    at_least_as_near shared w c /\ at_least_as_near shared w p.
Proof.
  unfold better, sort.
  destruct (JS.nonzero (JS.Num (distX c - distX p)) && shared) eqn:EX.
  - apply andb_true_iff in EX as [EX ->]. cbn [JS.gt0].
    destruct (JS.Qltb 0 (distX c - distX p)) eqn:E.
    + apply JS.Qltb_lt in E. exists p. repeat split; auto.
      * left. lra.
      * apply at_least_as_near_refl.
    + apply JS.Qltb_ge in E. exists c. repeat split; auto.
      * apply at_least_as_near_refl.
      * left. destruct (Qlt_le_dec (distX c) (distX p)) as [H | H]; [exact H |].
        assert (Heq : (distX c == distX p)%Q) by lra.
        apply JS.nonzero_sub_false in Heq. congruence.
  - assert (HX : shared = true -> (distX c == distX p)%Q).
    { intros ->. rewrite andb_true_r in EX.
      apply JS.nonzero_sub_false in EX. exact EX. }
    destruct (JS.nonzero (JS.Num (dist c - dist p))) eqn:ED.
    + cbn [JS.gt0]. destruct (JS.Qltb 0 (dist c - dist p)) eqn:E.
      * apply JS.Qltb_lt in E. exists p. repeat split; auto.
        -- unfold at_least_as_near. destruct shared; [right; split |];
             try (specialize (HX eq_refl)); lra.
        -- apply at_least_as_near_refl.
      * apply JS.Qltb_ge in E. exists c. repeat split; auto.
        -- apply at_least_as_near_refl.
        -- unfold at_least_as_near. destruct shared; [right; split |];
             try (specialize (HX eq_refl)); lra.
    + apply JS.nonzero_sub_false in ED.
      assert (Hcp : at_least_as_near shared c p)
        by (unfold at_least_as_near; destruct shared; [right; split |];
            try (specialize (HX eq_refl)); lra).
      assert (Hpc : at_least_as_near shared p c)
        by (unfold at_least_as_near; destruct shared; [right; split |];
            try (specialize (HX eq_refl)); lra).
      match goal with |- context [if JS.gt0 ?r then _ else _] =>
        destruct (JS.gt0 r) end.
      * exists p. repeat split; auto. apply at_least_as_near_refl.
      * exists c. repeat split; auto. apply at_least_as_near_refl.
Qed.

Lemma fold_better_nearest (shared : bool) (l : list Point) :
  forall (c : Point) (seen : list Point),
    c ∈ seen -> (forall q, q ∈ seen -> at_least_as_near shared c q) ->
    exists w, fold_left (better shared) l (Some c) = Some w /\
      w ∈ seen ++ l /\ forall q, q ∈ seen ++ l -> at_least_as_near shared w q.
Proof.
  induction l as [| p l IH]; intros c seen Hc Hmin.
  - exists c. rewrite app_nil_r. auto.
  - cbn [fold_left].
    destruct (better_nearest shared c p) as (w & Hw & Hwcp & Hwc & Hwp).
    rewrite Hw.
    replace (seen ++ p :: l) with ((seen ++ [p]) ++ l)
      by (rewrite <- app_assoc; reflexivity).
    apply IH.
    + apply elem_of_app. destruct Hwcp as [-> | ->]; [left; exact Hc |].
      right. apply list_elem_of_singleton. reflexivity.
    + intros q Hq. apply elem_of_app in Hq as [Hq | Hq].
      * apply at_least_as_near_trans with c; auto.
      * apply list_elem_of_singleton in Hq. subst q. exact Hwp.
Qed.

(** X1: the resolver yields [undefined] exactly when no series yields a
    point, and otherwise one of the points the series offered. *)
Theorem findNearestKDPoint_some_candidate
    (series : list Series) (shared : bool) (e : Event) :
  (findNearestKDPoint series shared e = None <->
   candidates series shared e = []) /\
  (forall w, findNearestKDPoint series shared e = Some w ->
             w ∈ candidates series shared e).
Proof.
  rewrite findNearest_candidates.
  destruct (candidates series shared e) as [| c l].
  - split; [split; reflexivity | discriminate].
  - cbn [fold_left better].
    destruct (fold_better_nearest shared l c [c]) as (w & Hw & Hin & _).
    { apply list_elem_of_singleton. reflexivity. }
    { intros q Hq. apply list_elem_of_singleton in Hq. subst q.
      apply at_least_as_near_refl. }
    rewrite Hw. split; [split; discriminate |].
    intros w' [= <-]. exact Hin.
Qed.

(** X2: when some series yields a point, the resolver returns a nearest
    one: with a per-point tooltip no candidate has a smaller combined
    distance; with a shared tooltip no candidate has a smaller x-distance,
    and none with the same x-distance a smaller combined distance. *)
Theorem findNearestKDPoint_nearest
    (series : list Series) (shared : bool) (e : Event) :
  candidates series shared e <> [] ->
  exists w, findNearestKDPoint series shared e = Some w /\
    forall q, q ∈ candidates series shared e ->
      if shared
      then (distX w <= distX q)%Q /\
           ((distX w == distX q)%Q -> (dist w <= dist q)%Q)
      else (dist w <= dist q)%Q.
Proof.
  intros Hne. rewrite findNearest_candidates.
  destruct (candidates series shared e) as [| c l]; [congruence |].
  cbn [fold_left better].
  destruct (fold_better_nearest shared l c [c]) as (w & Hw & _ & Hmin).
  { apply list_elem_of_singleton. reflexivity. }
  { intros q Hq. apply list_elem_of_singleton in Hq. subst q.
    apply at_least_as_near_refl. }
  exists w. split; [exact Hw |].
  intros q Hq. specialize (Hmin q Hq). unfold at_least_as_near in Hmin.
  destruct shared; [| exact Hmin].
  destruct Hmin as [H | [H H']]; split; try lra; intros; lra.
Qed.

(** [two_series] with a shared tooltip: the point nearer along x wins. *)
Lemma findNearestKDPoint_nearest_witness :
  exists w, findNearestKDPoint two_series true origin = Some w /\
    forall q, q ∈ candidates two_series true origin ->
      (distX w <= distX q)%Q /\
      ((distX w == distX q)%Q -> (dist w <= dist q)%Q).
Proof.
  apply (findNearestKDPoint_nearest two_series true origin). discriminate.
Defined.

End Nearest.

(** ** Tooltip placement ([Tooltip.getPosition]) *)

Module Placement.

Local Open Scope Q_scope.

Inductive outcome (A : Type) : Type :=
| Done (a : A)
| TypeError            (* a property read on [undefined] *)
| OutOfFuel.
Arguments Done {A} a.
Arguments TypeError {A}.
Arguments OutOfFuel {A}.

Definition Qminb (a b : Q) : Q := if JS.Qltb b a then b else a.
Definition Qmaxb (a b : Q) : Q := if JS.Qltb a b then b else a.

Record Offset : Type := { left : Q; top : Q }.

(** The document metrics read when the tooltip is rendered outside the
    chart container. *)
Record Doc : Type := {
  clientWidth : Q;
  bodyScrollHeight : Q;
  docScrollHeight : Q;
  bodyOffsetHeight : Q;
  docOffsetHeight : Q;
  clientHeight : Q
}.

Record Chart : Type := {
  inverted : bool;
  chartWidth : Q;
  chartHeight : Q;
  plotLeft : Q;
  plotTop : Q;
  plotWidth : Q;
  plotHeight : Q;
  chartPosition : option Offset     (* [chart.pointer.chartPosition] *)
}.

Record Tooltip : Type := {
  distance : Q;
  outside : bool;
  followPointer : bool;
  len : option Z
}.

(** The [point] argument: the anchor handed over by [updatePosition]. *)
Record Anchor : Type := {
  plotX : Q;
  plotY : Q;
  h : option Q;
  ttBelow : option bool;
  negative : option bool
}.

Inductive Dim : Type := X | Y.

(** The argument tuples [first] and [second]. *)
Record Args : Type := {
  dim : Dim;
  outerSize : Q;
  innerSize : Q;
  point : Q;
  min : Q;
  max : Q
}.

(** The dictionary [ret]; a key never written stays [undefined]. *)
Record Ret : Type := { x : option Q; y : option Q }.

Definition set (d : Dim) (v : Q) (ret : Ret) : Ret :=
  match d with
  | X => {| x := Some v; y := y ret |}
  | Y => {| x := x ret; y := Some v |}
  end.

Definition get (d : Dim) (ret : Ret) : option Q :=
  match d with X => x ret | Y => y ret end.

(** The mutable locals of [getPosition].  [swaps] is a ghost counter of the
    calls of [swap], kept to state how often the dimensions are exchanged. *)
Record State : Type := {
  ret : Ret;
  first : Args;
  second : Args;
  swapped : option bool;
  swaps : nat
}.

Definition truthy (b : option bool) : bool := default false b.

Definition roomLeft (distance : Q) (a : Args) : bool :=
  JS.Qltb (innerSize a) (point a - distance).
Definition roomRight (distance : Q) (a : Args) : bool :=
  JS.Qltb (point a + distance + innerSize a) (outerSize a).

(** [firstDimension]: the new [ret], and [false] exactly when the source
    returns [false]. *)
Definition firstDimension (distance hOff : Q) (preferFarSide : bool)
    (a : Args) (r : Ret) : Ret * bool :=
  let alignedLeft := point a - distance - innerSize a in
  let alignedRight := point a + distance in
  if preferFarSide && roomRight distance a then
    (set (dim a) alignedRight r, true)
  else if negb preferFarSide && roomLeft distance a then
    (set (dim a) alignedLeft r, true)
  else if roomLeft distance a then
    (set (dim a)
       (Qminb (max a - innerSize a)
          (if JS.Qltb (alignedLeft - hOff) 0 then alignedLeft
           else alignedLeft - hOff)) r, true)
  else if roomRight distance a then
    (set (dim a)
       (Qmaxb (min a)
          (if JS.Qltb (outerSize a) (alignedRight + hOff + innerSize a)
           then alignedRight else alignedRight + hOff)) r, true)
  else (r, false).

(** [secondDimension], with the same convention. *)
Definition secondDimension (distance : Q) (a : Args) (r : Ret) : Ret * bool :=
  if JS.Qltb (point a) distance || JS.Qltb (outerSize a - distance) (point a)
  then (r, false)
  else if JS.Qltb (point a) (innerSize a / 2) then (set (dim a) 1 r, true)
  else if JS.Qltb (outerSize a - innerSize a / 2) (point a)
  then (set (dim a) (outerSize a - innerSize a - 2) r, true)
  else (set (dim a) (point a - innerSize a / 2) r, true).

Definition swap (count : option bool) (st : State) : State :=
  {| ret := ret st; first := second st; second := first st;
     swapped := count; swaps := S (swaps st) |}.

Definition with_ret (r : Ret) (st : State) : State :=
  {| ret := r; first := first st; second := second st;
     swapped := swapped st; swaps := swaps st |}.

(** The recursive local function [run]; [fuel] bounds the call depth. *)
Fixpoint run (distance hOff : Q) (preferFarSide : bool)
    (fuel : nat) (st : State) : option State :=
  match fuel with
  | O => None
  | S fuel' =>
      let '(r1, ok1) :=
        firstDimension distance hOff preferFarSide (first st) (ret st) in
      if ok1 then
        let '(r2, ok2) := secondDimension distance (second st) r1 in
        if negb ok2 && negb (truthy (swapped st)) then
          run distance hOff preferFarSide fuel' (swap (Some true) (with_ret r2 st))
        else Some (with_ret r2 st)
      else if negb (truthy (swapped st)) then
        run distance hOff preferFarSide fuel' (swap (Some true) st)
      else Some (with_ret {| x := Some 0; y := Some 0 |} st)
  end.

Definition outerWidth (doc : Doc) (t : Tooltip) (c : Chart) : Q :=
  if outside t then clientWidth doc - 2 * distance t else chartWidth c.

Definition outerHeight (doc : Doc) (t : Tooltip) (c : Chart) : Q :=
  if outside t then
    Qmaxb (Qmaxb (Qmaxb (Qmaxb (bodyScrollHeight doc) (docScrollHeight doc))
                   (bodyOffsetHeight doc)) (docOffsetHeight doc))
          (clientHeight doc)
  else chartHeight c.

(** [(chart.inverted && point.h) || 0] *)
Definition hOffset (c : Chart) (p : Anchor) : Q :=
  if inverted c then
    match h p with
    | Some v => if Qeq_bool v 0 then 0 else v
    | None => 0
    end
  else 0.

(** [!this.followPointer && pick(point.ttBelow, !chart.inverted === !!point.negative)] *)
Definition preferFarSide (t : Tooltip) (c : Chart) (p : Anchor) : bool :=
  negb (followPointer t) &&
  default (Bool.eqb (negb (inverted c)) (truthy (negative p))) (ttBelow p).

(** The state just before [run()] is called, or [None] when the outside
    tooltip reads [chartPosition] while it is [undefined]. *)
Definition initial (doc : Doc) (t : Tooltip) (c : Chart)
    (boxWidth boxHeight : Q) (p : Anchor) : option State :=
  let d := distance t in
  let oW := outerWidth doc t c in
  let oH := outerHeight doc t c in
  let base : option (Q * Q) :=
    if outside t then
      match chartPosition c with
      | Some pos => Some (top pos - d, left pos - d)
      | None => None
      end
    else Some (0, 0) in
  match base with
  | None => None
  | Some (dy, dx) =>
      let fst0 :=
        {| dim := Y; outerSize := oH; innerSize := boxHeight;
           point := dy + plotY p + plotTop c;
           min := if outside t then 0 else plotTop c;
           max := if outside t then oH else plotTop c + plotHeight c |} in
      let snd0 :=
        {| dim := X; outerSize := oW; innerSize := boxWidth;
           point := dx + plotX p + plotLeft c;
           min := if outside t then 0 else plotLeft c;
           max := if outside t then oW else plotLeft c + plotWidth c |} in
      let st0 :=
        {| ret := {| x := None; y := None |}; first := fst0; second := snd0;
           swapped := None; swaps := 0 |} in
      Some (if inverted c || match len t with Some n => (1 <? n)%Z | None => false end
            then swap None st0 else st0)
  end.

(** The final locals of a call of [getPosition]. *)
Definition getPosition_state (doc : Doc) (t : Tooltip) (c : Chart)
    (boxWidth boxHeight : Q) (p : Anchor) : outcome State :=
  match initial doc t c boxWidth boxHeight p with
  | None => TypeError
  | Some st =>
      match run (distance t) (hOffset c p) (preferFarSide t c p) 2 st with
      | Some st' => Done st'
      | None => OutOfFuel
      end
  end.

Definition getPosition (doc : Doc) (t : Tooltip) (c : Chart)
    (boxWidth boxHeight : Q) (p : Anchor) : outcome Ret :=
  match getPosition_state doc t c boxWidth boxHeight p with
  | Done st => Done (ret st)
  | TypeError => TypeError
  | OutOfFuel => OutOfFuel
  end.

(** The point is within [distance] of an edge of the dimension. *)
Definition tooClose (distance : Q) (a : Args) : bool :=
  JS.Qltb (point a) distance || JS.Qltb (outerSize a - distance) (point a).

(** The dimension's geometry is consistent: the plot range lies in the
    outer region and the point lies in the plot range. *)
Definition consistent (a : Args) : Prop :=
  0 <= min a /\ min a <= point a /\ point a <= max a /\ max a <= outerSize a.

(** A coordinate that keeps the box inside the outer region. *)
Definition inside (a : Args) (v : Q) : Prop :=
  0 <= v /\ v <= outerSize a - innerSize a.

(** The placement property as the specification words it: when neither
    side of the primary dimension has room, the result has both coordinates
    inside the region, or is the origin. *)
Definition placed_inside_or_origin (doc : Doc) (t : Tooltip) (c : Chart)
    (boxWidth boxHeight : Q) (p : Anchor) : Prop :=
  forall st, initial doc t c boxWidth boxHeight p = Some st ->
    roomLeft (distance t) (first st) = false ->
    roomRight (distance t) (first st) = false ->
    exists r, getPosition doc t c boxWidth boxHeight p = Done r /\
      exists vx vy, x r = Some vx /\ y r = Some vy /\
        ((0 <= vx /\ vx <= outerWidth doc t c - boxWidth /\
          0 <= vy /\ vy <= outerHeight doc t c - boxHeight) \/
         (vx == 0 /\ vy == 0)).

(** A 400 x 300 chart whose plot area fills it, a 100 x 280 box and a
    point at (380, 290), near the bottom-right corner. *)
Definition no_doc : Doc :=
  {| clientWidth := 0; bodyScrollHeight := 0; docScrollHeight := 0;
     bodyOffsetHeight := 0; docOffsetHeight := 0; clientHeight := 0 |}.
Definition small_chart : Chart :=
  {| inverted := false; chartWidth := 400; chartHeight := 300;
     plotLeft := 0; plotTop := 0; plotWidth := 400; plotHeight := 300;
     chartPosition := None |}.
Definition plain_tooltip : Tooltip :=
  {| distance := 16; outside := false; followPointer := false; len := Some 0%Z |}.
Definition corner : Anchor :=
  {| plotX := 380; plotY := 290; h := None; ttBelow := None; negative := None |}.
(** The same box with the point at mid-height, (380, 150). *)
Definition mid_right : Anchor :=
  {| plotX := 380; plotY := 150; h := None; ttBelow := None; negative := None |}.

Ltac qcases :=
  repeat match goal with
  | |- context [JS.Qltb ?a ?b] =>
      let E := fresh "E" in
      destruct (JS.Qltb a b) eqn:E;
      [apply JS.Qltb_lt in E | apply JS.Qltb_ge in E]
  | H : JS.Qltb _ _ = true |- _ => apply JS.Qltb_lt in H
  | H : JS.Qltb _ _ = false |- _ => apply JS.Qltb_ge in H
  end.

Lemma get_set_same (d : Dim) (v : Q) (r : Ret) : get d (set d v r) = Some v.
Proof. destruct d; reflexivity. Qed.

Lemma get_set_other (d d' : Dim) (v : Q) (r : Ret) :
  d <> d' -> get d (set d' v r) = get d r.
Proof. destruct d, d'; intros H; try reflexivity; congruence. Qed.

Lemma firstDimension_no_room (d hOff : Q) (pfs : bool) (a : Args) (r : Ret) :
  roomLeft d a = false -> roomRight d a = false ->
  firstDimension d hOff pfs a r = (r, false).
Proof.
  intros HL HR. unfold firstDimension. rewrite HL, HR.
  rewrite !andb_false_r. reflexivity.
Qed.

(** When a side has room, [firstDimension] writes the dimension's key, and
    on a consistent geometry the box stays inside the region. *)
Lemma firstDimension_room (d hOff : Q) (pfs : bool) (a : Args) (r : Ret) :
  roomLeft d a = true \/ roomRight d a = true ->
  exists v, firstDimension d hOff pfs a r = (set (dim a) v r, true) /\
    (0 <= d -> 0 <= hOff -> consistent a -> inside a v).
Proof.
  intros Hroom. unfold firstDimension.
  destruct (roomRight d a) eqn:HR, (roomLeft d a) eqn:HL, pfs; cbn [andb negb];
    try (destruct Hroom; discriminate);
    eexists; (split; [reflexivity |]);
    intros Hd Hh (H0 & H1 & H2 & H3); unfold inside, Qminb, Qmaxb;
    unfold roomLeft, roomRight in *; qcases; split; lra.
Qed.

Lemma secondDimension_tooClose (d : Q) (a : Args) (r : Ret) :
  tooClose d a = true -> secondDimension d a r = (r, false).
Proof.
  intros H. unfold secondDimension. unfold tooClose in H. rewrite H. reflexivity.
Qed.

Lemma secondDimension_aligned (d : Q) (a : Args) (r : Ret) :
  tooClose d a = false ->
  exists v, secondDimension d a r = (set (dim a) v r, true) /\
    (innerSize a + 2 <= outerSize a -> inside a v).
Proof.
  intros H. unfold secondDimension. unfold tooClose in H. rewrite H.
  destruct (JS.Qltb (point a) (innerSize a / 2)) eqn:E1;
    [| destruct (JS.Qltb (outerSize a - innerSize a / 2) (point a)) eqn:E2];
    eexists; (split; [reflexivity |]); intros Hfit; unfold inside;
    apply orb_false_iff in H as [Ha Hb]; qcases;
    unfold Qdiv in *; change (/ 2) with (1 # 2) in *; split; lra.
Qed.

(** [initial] hands [run] an empty [ret], no [swapped] flag and the two
    distinct dimensions. *)
Lemma initial_shape (doc : Doc) (t : Tooltip) (c : Chart)
    (w hgt : Q) (p : Anchor) (st : State) :
  initial doc t c w hgt p = Some st ->
  ret st = {| x := None; y := None |} /\ swapped st = None /\
  dim (first st) <> dim (second st).
Proof.
  unfold initial. intros H.
  destruct (outside t); [destruct (chartPosition c) |];
    try discriminate;
    injection H as <-;
    match goal with |- context [if ?b then _ else _] => destruct b end;
    cbn; repeat split; discriminate.
Qed.

(** Two levels of recursion always suffice: [run] recurses only after
    setting [swapped]. *)
Lemma run_fuel (d hOff : Q) (pfs : bool) (n : nat) (st : State) :
  exists st', run d hOff pfs (S (S n)) st = Some st' /\
              run d hOff pfs 2 st = Some st'.
Proof.
  cbn [run].
  destruct (firstDimension d hOff pfs (first st) (ret st)) as [r1 ok1].
  destruct ok1.
  - destruct (secondDimension d (second st) r1) as [r2 ok2].
    destruct (negb ok2 && negb (truthy (swapped st))); [| eauto].
    cbn [swap with_ret first second ret swapped truthy default negb andb].
    destruct (firstDimension d hOff pfs (second st) r2) as [r3 ok3].
    destruct ok3; [| eauto].
    destruct (secondDimension d (first st) r3) as [r4 ok4].
    rewrite andb_false_r. eauto.
  - destruct (negb (truthy (swapped st))); [| eauto].
    cbn [swap with_ret first second ret swapped truthy default negb andb].
    destruct (firstDimension d hOff pfs (second st) (ret st)) as [r3 ok3].
    destruct ok3; [| eauto].
    destruct (secondDimension d (first st) r3) as [r4 ok4].
    rewrite andb_false_r. eauto.
Qed.

(** What [run] does when the primary dimension has no room on either side:
    exactly one exchange of the dimensions, whatever the geometry. *)
Lemma run_no_room_primary (d hOff : Q) (pfs : bool) (st : State) :
  swapped st = None ->
  roomLeft d (first st) = false -> roomRight d (first st) = false ->
  exists st', run d hOff pfs 2 st = Some st' /\ swaps st' = S (swaps st) /\
    first st' = second st /\ second st' = first st /\
    ret st' =
      (let '(r1, ok1) := firstDimension d hOff pfs (second st) (ret st) in
       if ok1 then fst (secondDimension d (first st) r1)
       else {| x := Some 0; y := Some 0 |}).
Proof.
  intros Hsw HL HR. cbn [run].
  rewrite (firstDimension_no_room d hOff pfs _ _ HL HR). rewrite Hsw.
  cbn [truthy default negb swap with_ret first second ret swapped].
  destruct (firstDimension d hOff pfs (second st) (ret st)) as [r1 ok1].
  destruct ok1.
  - destruct (secondDimension d (first st) r1) as [r2 ok2].
    rewrite andb_false_r. eexists. repeat split.
  - eexists. repeat split.
Qed.

(** C2 (as amended): when neither side of the primary dimension has room,
    [getPosition] exchanges the dimensions exactly once.  If the other
    dimension has no room on either side as well, the result is the origin.
    Otherwise the coordinate along the other dimension keeps the box inside
    the region, and the coordinate along the primary dimension is left
    undefined when the point is within [distance] of an edge of that
    dimension, and keeps the box inside the region otherwise.  The geometry
    is assumed consistent, and the box at least two pixels smaller than the
    region along the primary dimension. *)
Theorem getPosition_swaps_once (doc : Doc) (t : Tooltip) (c : Chart)
    (boxWidth boxHeight : Q) (p : Anchor) (st : State) :
  initial doc t c boxWidth boxHeight p = Some st ->
  roomLeft (distance t) (first st) = false ->
  roomRight (distance t) (first st) = false ->
  0 <= distance t -> 0 <= hOffset c p ->
  consistent (second st) ->
  innerSize (first st) + 2 <= outerSize (first st) ->
  exists st',
    getPosition_state doc t c boxWidth boxHeight p = Done st' /\
    getPosition doc t c boxWidth boxHeight p = Done (ret st') /\
    swaps st' = S (swaps st) /\
    if roomLeft (distance t) (second st) || roomRight (distance t) (second st)
    then
      (exists v, get (dim (second st)) (ret st') = Some v /\ inside (second st) v) /\
      (if tooClose (distance t) (first st)
       then get (dim (first st)) (ret st') = None
       else exists v, get (dim (first st)) (ret st') = Some v /\ inside (first st) v)
    else ret st' = {| x := Some 0; y := Some 0 |}.
Proof.
  intros Hinit HL HR Hd Hh Hcons Hfit.
  destruct (initial_shape _ _ _ _ _ _ _ Hinit) as (Hret & Hsw & Hdim).
  destruct (run_no_room_primary (distance t) (hOffset c p) (preferFarSide t c p)
              st Hsw HL HR) as (st' & Hrun & Hswaps & _ & _ & Hr).
  exists st'. unfold getPosition, getPosition_state. rewrite Hinit, Hrun.
  repeat split; [exact Hswaps |].
  destruct (roomLeft (distance t) (second st) || roomRight (distance t) (second st))
    eqn:Hroom.
  - apply orb_true_iff in Hroom.
    destruct (firstDimension_room (distance t) (hOffset c p) (preferFarSide t c p)
                (second st) (ret st) Hroom) as (v & Hv & Hin).
    rewrite Hv in Hr. split.
    + exists v. split; [| auto].
      rewrite Hr.
      destruct (tooClose (distance t) (first st)) eqn:Hclose.
      * rewrite secondDimension_tooClose by exact Hclose.
        apply get_set_same.
      * destruct (secondDimension_aligned (distance t) (first st)
                    (set (dim (second st)) v (ret st)) Hclose) as (v' & Hv' & _).
        rewrite Hv'. cbn [fst]. rewrite get_set_other by auto.
        apply get_set_same.
    + destruct (tooClose (distance t) (first st)) eqn:Hclose.
      * rewrite Hr, secondDimension_tooClose by exact Hclose. cbn [fst].
        rewrite get_set_other by exact Hdim. rewrite Hret.
        destruct (dim (first st)); reflexivity.
      * destruct (secondDimension_aligned (distance t) (first st)
                    (set (dim (second st)) v (ret st)) Hclose) as (v' & Hv' & Hin').
        exists v'. rewrite Hr, Hv'. cbn [fst]. split; [apply get_set_same | auto].
  - apply orb_false_iff in Hroom as [HL2 HR2].
    rewrite (firstDimension_no_room _ _ _ _ _ HL2 HR2) in Hr. exact Hr.
Qed.

(** The amended statement at the 100 x 280 box and the point (380, 150) of
    the 400 x 300 chart: no room above or below, so the box goes to the
    left of the point, at (264, 10). *)
Lemma getPosition_swaps_once_witness :
  exists st st',
    initial no_doc plain_tooltip small_chart 100 280 mid_right = Some st /\
    getPosition_state no_doc plain_tooltip small_chart 100 280 mid_right = Done st' /\
    getPosition no_doc plain_tooltip small_chart 100 280 mid_right = Done (ret st') /\
    swaps st' = S (swaps st) /\
    if roomLeft 16 (second st) || roomRight 16 (second st)
    then
      (exists v, get (dim (second st)) (ret st') = Some v /\ inside (second st) v) /\
      (if tooClose 16 (first st)
       then get (dim (first st)) (ret st') = None
       else exists v, get (dim (first st)) (ret st') = Some v /\ inside (first st) v)
    else ret st' = {| x := Some 0; y := Some 0 |}.
Proof.
  eexists. 
  refine (let H := getPosition_swaps_once no_doc plain_tooltip small_chart
                     100 280 mid_right _ eq_refl _ _ _ _ _ _ in _).
  destruct H as (st' & H). exists st'. split; [reflexivity | exact H].
  Unshelve.
  - reflexivity.
  - reflexivity.
  - vm_compute. discriminate.
  - vm_compute. discriminate.
  - unfold consistent. vm_compute. repeat split; discriminate.
  - vm_compute. discriminate.
Defined.

(** With the point at (380, 290) the box again finds no room above or
    below and goes to the left of the point, but the point is within
    [distance] of the bottom edge: [y] is never written, so the result is
    neither inside the region nor the origin. *)
Lemma getPosition_leaves_y_undefined :
  ~ placed_inside_or_origin no_doc plain_tooltip small_chart 100 280 corner.
Proof.
  intros H.
  edestruct H as (r & Hr & vx & vy & Hx & Hy & _);
    [reflexivity | reflexivity | reflexivity |].
  vm_compute in Hr. injection Hr as <-. discriminate Hy.
Qed.

(** *** Termination of [run], and when both coordinates are written *)

Lemma firstDimension_keeps (d hOff : Q) (pfs : bool) (a : Args) (r : Ret) :
  let '(r', ok) := firstDimension d hOff pfs a r in
  (forall k, is_Some (get k r) -> is_Some (get k r')) /\
  (ok = true -> is_Some (get (dim a) r')).
Proof.
  unfold firstDimension.
  repeat match goal with
         | |- context [if ?b then (_, _) else _] => destruct b
         end;
    (split; [intros k Hk | intros Hok]);
    try discriminate; try exact Hk;
    try (rewrite get_set_same; eauto);
    destruct k, (dim a); cbn in *; eauto.
Qed.

Lemma secondDimension_keeps (d : Q) (a : Args) (r : Ret) (k : Dim) :
  is_Some (get k r) -> is_Some (get k (fst (secondDimension d a r))).
Proof.
  unfold secondDimension. intros Hk.
  repeat match goal with
         | |- context [if ?b then (_, _) else _] => destruct b
         end;
    cbn [fst]; try exact Hk;
    destruct k, (dim a); cbn in *; eauto.
Qed.

(** [run] exchanges the dimensions at most once. *)
Lemma run_swaps (d hOff : Q) (pfs : bool) (st st' : State) :
  run d hOff pfs 2 st = Some st' -> (swaps st' <= S (swaps st))%nat.
Proof.
  cbn [run].
  destruct (firstDimension d hOff pfs (first st) (ret st)) as [r1 ok1].
  destruct ok1.
  - destruct (secondDimension d (second st) r1) as [r2 ok2].
    destruct (negb ok2 && negb (truthy (swapped st)));
      [| intros [= <-]; cbn; lia].
    cbn [swap with_ret first second ret swapped truthy default negb andb].
    destruct (firstDimension d hOff pfs (second st) r2) as [r3 ok3].
    destruct ok3; [| intros [= <-]; cbn; lia].
    destruct (secondDimension d (first st) r3) as [r4 ok4].
    rewrite andb_false_r. intros [= <-]. cbn. lia.
  - destruct (negb (truthy (swapped st))); [| intros [= <-]; cbn; lia].
    cbn [swap with_ret first second ret swapped truthy default negb andb].
    destruct (firstDimension d hOff pfs (second st) (ret st)) as [r3 ok3].
    destruct ok3; [| intros [= <-]; cbn; lia].
    destruct (secondDimension d (first st) r3) as [r4 ok4].
    rewrite andb_false_r. intros [= <-]. cbn. lia.
Qed.

(** X10: [getPosition] always comes back.  It raises exactly when the
    tooltip is rendered outside the container while the pointer has no
    chart position; otherwise the local function [run] calls itself at most
    once, so that a call depth of two is never exceeded and the dimensions
    are exchanged at most once by [run]. *)
Theorem getPosition_terminates (doc : Doc) (t : Tooltip) (c : Chart)
    (boxWidth boxHeight : Q) (p : Anchor) :
  (getPosition doc t c boxWidth boxHeight p = TypeError <->
   outside t = true /\ chartPosition c = None) /\
  (forall st, initial doc t c boxWidth boxHeight p = Some st ->
     forall n, exists st',
       run (distance t) (hOffset c p) (preferFarSide t c p) (S (S n)) st
         = Some st' /\
       getPosition doc t c boxWidth boxHeight p = Done (ret st') /\
       (swaps st' <= S (swaps st))%nat).
Proof.
  split.
  - unfold getPosition, getPosition_state.
    destruct (initial doc t c boxWidth boxHeight p) as [st |] eqn:Hi.
    + destruct (run_fuel (distance t) (hOffset c p) (preferFarSide t c p)
                  0 st) as (st' & _ & H2).
      rewrite H2. split; [discriminate |].
      intros [Ho Hc]. unfold initial in Hi. rewrite Ho, Hc in Hi. discriminate.
    + split; [| reflexivity]. intros _. unfold initial in Hi.
      destruct (outside t); [| discriminate].
      destruct (chartPosition c); [discriminate | auto].
  - intros st Hi n.
    destruct (run_fuel (distance t) (hOffset c p) (preferFarSide t c p)
                n st) as (st' & Hn & H2).
    exists st'. split; [exact Hn |].
    unfold getPosition, getPosition_state. rewrite Hi, H2.
    split; [reflexivity |]. eapply run_swaps, H2.
Qed.

(** X11: when the primary dimension has room on one side of the point,
    the position returned has both coordinates. *)
Theorem getPosition_defined_with_room (doc : Doc) (t : Tooltip) (c : Chart)
    (boxWidth boxHeight : Q) (p : Anchor) (st : State) :
  initial doc t c boxWidth boxHeight p = Some st ->
  roomLeft (distance t) (first st) = true \/
  roomRight (distance t) (first st) = true ->
  exists r vx vy,
    getPosition doc t c boxWidth boxHeight p = Done r /\
    x r = Some vx /\ y r = Some vy.
Proof.
  intros Hi Hroom.
  destruct (initial_shape _ _ _ _ _ _ _ Hi) as (_ & _ & Hdim).
  assert (Hboth : forall r, is_Some (get (dim (first st)) r) ->
                            is_Some (get (dim (second st)) r) ->
                            exists vx vy, x r = Some vx /\ y r = Some vy).
  { intros r [v1 H1] [v2 H2].
    destruct (dim (first st)), (dim (second st)); try congruence;
      cbn [get] in *; eauto. }
  set (d := distance t) in *. set (hO := hOffset c p).
  set (pfs := preferFarSide t c p).
  assert (Hrun : exists st', run d hO pfs 2 st = Some st' /\
                   is_Some (get (dim (first st)) (ret st')) /\
                   is_Some (get (dim (second st)) (ret st'))).
  { cbn [run].
    pose proof (firstDimension_keeps d hO pfs (first st) (ret st)) as K1.
    destruct (firstDimension_room d hO pfs (first st) (ret st) Hroom)
      as (v & Hv & _).
    rewrite Hv in K1 |- *. destruct K1 as [_ K1]. specialize (K1 eq_refl).
    set (r1 := set (dim (first st)) v (ret st)) in *.
    pose proof (secondDimension_keeps d (second st) r1 _ K1) as K2.
    destruct (secondDimension d (second st) r1) as [r2 ok2] eqn:E2.
    cbn [fst] in K2.
    destruct (negb ok2 && negb (truthy (swapped st))) eqn:Eg.
    - cbn [swap with_ret first second ret swapped truthy default negb andb].
      pose proof (firstDimension_keeps d hO pfs (second st) r2) as K3.
      destruct (firstDimension d hO pfs (second st) r2) as [r3 ok3].
      destruct K3 as [K3 K3'].
      destruct ok3.
      + pose proof (secondDimension_keeps d (first st) r3) as K4.
        destruct (secondDimension d (first st) r3) as [r4 ok4].
        cbn [fst] in K4. rewrite andb_false_r.
        eexists. split; [reflexivity |]. cbn [ret with_ret]. auto.
      + eexists. split; [reflexivity |]. cbn [ret with_ret].
        split; [destruct (dim (first st)) | destruct (dim (second st))];
          cbn; eauto.
    - eexists. split; [reflexivity |]. cbn [ret with_ret].
      split; [exact K2 |].
      apply andb_false_iff in Eg as [Eg | Eg].
      + apply negb_false_iff in Eg. subst ok2.
        unfold secondDimension in E2.
        repeat match type of E2 with
               | context [if ?b then (_, _) else _] => destruct b
               end; try discriminate;
          injection E2 as <-; rewrite get_set_same; eauto.
      + exfalso. destruct (initial_shape _ _ _ _ _ _ _ Hi) as (_ & Hsw & _).
        rewrite Hsw in Eg. discriminate. }
  destruct Hrun as (st' & Hrun & H1 & H2).
  destruct (Hboth _ H1 H2) as (vx & vy & Hx & Hy).
  exists (ret st'), vx, vy. unfold getPosition, getPosition_state.
  rewrite Hi. fold d hO pfs. rewrite Hrun. auto.
Qed.

(** A 100 x 40 box at the point (200, 150) of the 400 x 300 chart: room
    above the point. *)
Definition centre : Anchor :=
  {| plotX := 200; plotY := 150; h := None; ttBelow := None; negative := None |}.

Lemma getPosition_defined_with_room_witness :
  exists r vx vy,
    getPosition no_doc plain_tooltip small_chart 100 40 centre = Done r /\
    x r = Some vx /\ y r = Some vy.
Proof.
  eapply (getPosition_defined_with_room no_doc plain_tooltip small_chart
            100 40 centre).
  - reflexivity.
  - left. reflexivity.
Defined.


(** *** The coordinate that is always written *)

Lemma secondDimension_ok (d : Q) (a : Args) (r r' : Ret) :
  secondDimension d a r = (r', true) -> is_Some (get (dim a) r').
Proof.
  unfold secondDimension.
  repeat match goal with
         | |- context [if ?b then (_, _) else _] => destruct b
         end;
    intros [= <-]; rewrite get_set_same; eauto.
Qed.

Lemma origin_defined (k : Dim) : is_Some (get k {| x := Some 0; y := Some 0 |}).
Proof. destruct k; cbn; eauto. Qed.

(** After [run], the coordinate along the dimension that was secondary
    at the start is written, whatever the geometry. *)
Lemma run_secondary_defined (d hOff : Q) (pfs : bool) (st : State) :
  swapped st = None ->
  exists st', run d hOff pfs 2 st = Some st' /\
              is_Some (get (dim (second st)) (ret st')).
Proof.
  intros Hsw. cbn [run]. rewrite Hsw. cbn [truthy default negb].
  assert (Hrec : forall r,
    exists st',
      (let '(r1, ok1) := firstDimension d hOff pfs (second st) r in
       if ok1
       then let '(r2, ok2) := secondDimension d (first st) r1 in
            if negb ok2 && negb (truthy (Some true))
            then None
            else Some (with_ret r2 (swap (Some true) (with_ret r st)))
       else if negb (truthy (Some true)) then None
            else Some (with_ret {| x := Some 0; y := Some 0 |}
                         (swap (Some true) (with_ret r st)))) = Some st' /\
      is_Some (get (dim (second st)) (ret st'))).
  { intros r.
    pose proof (firstDimension_keeps d hOff pfs (second st) r) as K.
    destruct (firstDimension d hOff pfs (second st) r) as [r1 ok1].
    destruct K as [_ K]. destruct ok1.
    - specialize (K eq_refl).
      pose proof (secondDimension_keeps d (first st) r1 _ K) as K2.
      destruct (secondDimension d (first st) r1) as [r2 ok2].
      cbn [fst] in K2. rewrite andb_false_r.
      eexists. split; [reflexivity | exact K2].
    - cbn [truthy default negb]. eexists. split; [reflexivity |].
      apply origin_defined. }
  destruct (firstDimension d hOff pfs (first st) (ret st)) as [r1 ok1].
  destruct ok1.
  - destruct (secondDimension d (second st) r1) as [r2 ok2] eqn:E2.
    destruct ok2; cbn [negb andb].
    + eexists. split; [reflexivity |]. cbn [ret with_ret].
      eapply secondDimension_ok, E2.
    + cbn [swap with_ret first second ret swapped].
      destruct (Hrec r2) as (st' & H1 & H2).
      cbn [swap with_ret first second ret swapped] in H1.
      exists st'. split; [exact H1 | exact H2].
  - cbn [swap with_ret first second ret swapped].
    destruct (Hrec (ret st)) as (st' & H1 & H2).
    cbn [swap with_ret first second ret swapped] in H1.
    exists st'. split; [| exact H2].
    destruct st; exact H1.
Qed.

(** The dimension [initial] makes the secondary one: [x], unless the
    chart is inverted or the tooltip split. *)
Lemma initial_second (doc : Doc) (t : Tooltip) (c : Chart)
    (w hgt : Q) (p : Anchor) (st : State) :
  initial doc t c w hgt p = Some st ->
  dim (second st) =
    if inverted c || match len t with Some n => (1 <? n)%Z | None => false end
    then Y else X.
Proof.
  unfold initial. intros H.
  destruct (outside t); [destruct (chartPosition c) |];
    try discriminate;
    injection H as <-;
    match goal with |- context [if ?b then _ else _] => destruct b end;
    reflexivity.
Qed.


End Placement.

(** ** From the placement to the move ([Tooltip.updatePosition]) *)

Module Reposition.

Import Placement.

Local Open Scope Q_scope.

(** The arguments [updatePosition] passes to [move], and the size it
    gives the renderer of an outside tooltip. *)
Record MoveArgs : Type := {
  m_x : JS.num;
  m_y : Z;
  m_anchorX : JS.num;
  m_anchorY : JS.num;
  m_setSize : option (Q * Q)
}.

(** [a - v] where [v] may be [undefined] *)
Definition minus (a : Q) (v : option Q) : JS.num :=
  match v with
  | Some q => JS.Num (a - q)
  | None => JS.NaN
  end.

Definition updatePosition
    (positioner : option (Q -> Q -> Anchor -> Ret))
    (borderWidth : option Q)
    (doc : Doc) (t : Tooltip) (c : Chart)
    (labelWidth labelHeight : Q) (p : Anchor) : outcome MoveArgs :=
  let pos :=
    match positioner with
    | Some f => Done (f labelWidth labelHeight p)
    | None => getPosition doc t c labelWidth labelHeight p
    end in
  match pos with
  | Done pos =>
      let anchorX := plotX p + plotLeft c in
      let anchorY := plotY p + plotTop c in
      let x_arg :=
        match x pos with
        | Some v => JS.Num (inject_Z (JS.round v))
        | None => JS.NaN
        end in
      (* can be undefined (#3977) *)
      let y_arg := JS.round (default 0 (y pos)) in
      if outside t then
        (* set the renderer size dynamically *)
        let pad := default 0 borderWidth + 2 * distance t in
        match chartPosition c with
        | Some cp =>
            Done {| m_x := x_arg; m_y := y_arg;
                    m_anchorX := minus (anchorX + left cp) (x pos);
                    m_anchorY := minus (anchorY + top cp) (y pos);
                    m_setSize := Some (labelWidth + pad, labelHeight + pad) |}
        | None => TypeError
        end
      else
        Done {| m_x := x_arg; m_y := y_arg;
                m_anchorX := JS.Num anchorX; m_anchorY := JS.Num anchorY;
                m_setSize := None |}
  | TypeError => TypeError
  | OutOfFuel => OutOfFuel
  end.

Lemma initial_outside (doc : Doc) (t : Tooltip) (c : Chart)
    (w hgt : Q) (p : Anchor) (st : State) :
  initial doc t c w hgt p = Some st ->
  outside t = true -> is_Some (chartPosition c).
Proof.
  unfold initial. intros H Ho. rewrite Ho in H.
  destruct (chartPosition c); [eauto | discriminate].
Qed.

(** X23: with the built-in placement, on a chart that is not inverted
    and for a tooltip of at most one point ([len] not above 1),
    [updatePosition] hands [move] numbers as [x], [y] and [anchorX]: the
    placement always writes [x] there, and an [y] it left [undefined] is
    passed as 0.  [anchorY] is a number too unless the tooltip is rendered
    outside and the placement left [y] undefined: then it is [NaN].  (An
    outside tooltip needs the pointer's chart position.) *)
Theorem updatePosition_plain_numbers
    (borderWidth : option Q) (doc : Doc) (t : Tooltip) (c : Chart)
    (labelWidth labelHeight : Q) (p : Anchor) :
  inverted c = false ->
  match len t with Some n => (1 <? n)%Z | None => false end = false ->
  (outside t = true -> is_Some (chartPosition c)) ->
  exists pos args vx ax,
    getPosition doc t c labelWidth labelHeight p = Done pos /\
    updatePosition None borderWidth doc t c labelWidth labelHeight p
      = Done args /\
    m_x args = JS.Num (inject_Z vx) /\
    m_y args = JS.round (default 0 (y pos)) /\
    m_anchorX args = JS.Num ax /\
    (outside t = false \/ is_Some (y pos) ->
     exists ay, m_anchorY args = JS.Num ay) /\
    (outside t = true -> y pos = None -> m_anchorY args = JS.NaN).
Proof.
  intros Hinv Hlen Hcp.
  destruct (initial doc t c labelWidth labelHeight p) as [st |] eqn:Hi.
  2: { exfalso. unfold initial in Hi.
       destruct (outside t); [| discriminate].
       destruct (Hcp eq_refl) as [cp Hc]. rewrite Hc in Hi. discriminate. }
  destruct (initial_shape _ _ _ _ _ _ _ Hi) as (_ & Hsw & _).
  pose proof (initial_second _ _ _ _ _ _ _ Hi) as Hsec.
  rewrite Hinv, Hlen in Hsec. cbn [orb] in Hsec.
  destruct (run_secondary_defined (distance t) (hOffset c p)
              (preferFarSide t c p) st Hsw) as (st' & Hrun & [v Hv]).
  rewrite Hsec in Hv. cbn [get] in Hv.
  unfold updatePosition, getPosition, getPosition_state.
  rewrite Hi, Hrun.
  exists (ret st'). rewrite Hv.
  destruct (outside t) eqn:Ho.
  - destruct (Hcp eq_refl) as [cp Hc]. rewrite Hc.
    eexists _, _, _. cbn [m_x m_y m_anchorX m_anchorY minus].
    repeat split.
    + intros [Hf | [vy Hy]]; [discriminate |]. rewrite Hy. cbn. eauto.
    + intros _ ->. reflexivity.
  - eexists _, _, _. cbn [m_x m_y m_anchorX m_anchorY].
    repeat split; [eauto | discriminate].
Qed.

(** The corner case of [Placement.corner]: [y] is left undefined by the
    placement and handed to [move] as 0. *)
Lemma updatePosition_plain_numbers_witness :
  exists pos args vx ax,
    getPosition no_doc plain_tooltip small_chart 100 280 corner = Done pos /\
    updatePosition None None no_doc plain_tooltip small_chart 100 280 corner
      = Done args /\
    m_x args = JS.Num (inject_Z vx) /\
    m_y args = JS.round (default 0 (y pos)) /\
    m_anchorX args = JS.Num ax /\
    (outside plain_tooltip = false \/ is_Some (y pos) ->
     exists ay, m_anchorY args = JS.Num ay) /\
    (outside plain_tooltip = true -> y pos = None ->
     m_anchorY args = JS.NaN).
Proof.
  apply (updatePosition_plain_numbers None no_doc plain_tooltip small_chart
           100 280 corner).
  - reflexivity.
  - reflexivity.
  - discriminate.
Defined.

(** X24: on an inverted chart, or for a tooltip of more than one point
    ([len] above 1, the points of a shared tooltip), it is [x] that the
    placement can leave undefined, and [updatePosition] hands it to [move]
    as [NaN]: this happens when the box has no room on either side of the
    point along [x] and the point is within [distance] of the left or
    right edge, while there is room along [y]. *)
Theorem updatePosition_inverted_nan
    (borderWidth : option Q) (doc : Doc) (t : Tooltip) (c : Chart)
    (labelWidth labelHeight : Q) (p : Anchor) (st : State) :
  initial doc t c labelWidth labelHeight p = Some st ->
  inverted c || match len t with Some n => (1 <? n)%Z | None => false end
    = true ->
  roomLeft (distance t) (first st) = false ->
  roomRight (distance t) (first st) = false ->
  roomLeft (distance t) (second st) = true \/
  roomRight (distance t) (second st) = true ->
  tooClose (distance t) (first st) = true ->
  exists pos args,
    getPosition doc t c labelWidth labelHeight p = Done pos /\
    x pos = None /\
    updatePosition None borderWidth doc t c labelWidth labelHeight p
      = Done args /\
    m_x args = JS.NaN.
Proof.
  intros Hi Hswap HL HR Hroom Hclose.
  destruct (initial_shape _ _ _ _ _ _ _ Hi) as (Hret & Hsw & Hdim).
  pose proof (initial_second _ _ _ _ _ _ _ Hi) as Hsec.
  rewrite Hswap in Hsec.
  assert (Hfst : dim (first st) = X)
    by (destruct (dim (first st)); [reflexivity | congruence]).
  destruct (run_no_room_primary (distance t) (hOffset c p)
              (preferFarSide t c p) st Hsw HL HR)
    as (st' & Hrun & _ & _ & _ & Hr).
  destruct (firstDimension_room (distance t) (hOffset c p)
              (preferFarSide t c p) (second st) (ret st) Hroom)
    as (v & Hv & _).
  rewrite Hv, secondDimension_tooClose in Hr by exact Hclose.
  cbn [fst] in Hr. rewrite Hsec, Hret in Hr. cbn [set x y] in Hr.
  unfold updatePosition, getPosition, getPosition_state.
  rewrite Hi, Hrun, Hr. cbn [x y].
  destruct (outside t) eqn:Ho.
  - destruct (initial_outside _ _ _ _ _ _ _ Hi Ho) as [cp Hc]. rewrite Hc.
    eexists _, _. repeat split.
  - eexists _, _. repeat split.
Qed.

(** An inverted 400 x 300 chart, a 380 x 40 box and a point at
    (395, 150), five pixels from the right edge. *)
Definition inverted_chart : Chart :=
  {| inverted := true; chartWidth := 400; chartHeight := 300;
     plotLeft := 0; plotTop := 0; plotWidth := 400; plotHeight := 300;
     chartPosition := None |}.
Definition right_edge : Anchor :=
  {| plotX := 395; plotY := 150; h := None; ttBelow := None; negative := None |}.

Lemma updatePosition_inverted_nan_witness :
  exists pos args,
    getPosition no_doc plain_tooltip inverted_chart 380 40 right_edge
      = Done pos /\
    x pos = None /\
    updatePosition None None no_doc plain_tooltip inverted_chart 380 40
      right_edge = Done args /\
    m_x args = JS.NaN.
Proof.
  eapply (updatePosition_inverted_nan None no_doc plain_tooltip inverted_chart
            380 40 right_edge).
  - reflexivity.
  - reflexivity.
  - reflexivity.
  - reflexivity.
  - left. reflexivity.
  - reflexivity.
Defined.

End Reposition.


(** ** Event normaliser ([Pointer.normalize]) *)

Module Normalize.

Import PrimFloat.

Local Open Scope Q_scope.

(** *** Numbers

    Page positions and container offsets are JavaScript numbers, that is
    IEEE 754 doubles, and [pageX - left] is the double nearest to the exact
    difference: the normaliser is modelled on primitive floats. *)

(** The rational a double stands for; none for the infinities and NaN. *)
Definition value (x : float) : option Q :=
  match FloatOps.Prim2SF x with
  | SpecFloat.S754_zero _ => Some 0
  | SpecFloat.S754_finite s m e =>
      Some ((if s then -1 else 1) * inject_Z (Z.pos m) * Qpower 2 e)
  | SpecFloat.S754_infinity _ => None
  | SpecFloat.S754_nan => None
  end.

(** What [Math.round] returns: an integer, or its argument when that is an
    infinity or NaN.  (The sign of a zero result is not kept.) *)
Inductive rounded : Type :=
| Int (z : Z)
| NonFinite (x : float).

(** [Math.round(x)]: the integer nearest to the double [x], halves
    rounded up. *)
Definition Math_round (x : float) : rounded :=
  match value x with
  | Some q => Int (JS.round q)
  | None => NonFinite x
  end.

(** A position in document coordinates: a touch, or the event itself. *)
Record Pos : Type := { pageX : float; pageY : float }.

Record Offset : Type := { left : float; top : float }.

(** A browser event object.  [touches] and [changedTouches] are absent on
    mouse events; [chartX] and [chartY] are the properties the library adds. *)
Record EventObj : Type := {
  type : string;
  button : Z;
  page : Pos;                              (* [e.pageX], [e.pageY] *)
  touches : option (list Pos);
  changedTouches : option (list Pos);
  chartX : option rounded;
  chartY : option rounded
}.

(** Objects are held in a store and passed by reference. *)
Abbreviation Ref := nat (only parsing).
Abbreviation Store := (gmap nat EventObj) (only parsing).

(** The pointer's fields involved: the cached [chartPosition], and what
    [offset(this.chart.container)] currently measures. *)
Record Pointer : Type := {
  chartPosition : option Offset;
  containerOffset : Offset
}.

Definition with_chart (cx cy : rounded) (ev : EventObj) : EventObj :=
  {| type := type ev; button := button ev; page := page ev;
     touches := touches ev; changedTouches := changedTouches ev;
     chartX := Some cx; chartY := Some cy |}.

(** Modelled from the spec: [extend] is defined in Utilities.js, which is
    not among the sources, and the specification does not describe it.  The
    model follows the sources that call it: the documentation of
    [normalize] ("takes a browser event object and extends it with ...
    chartX and chartY", returning "a browser event with extended
    properties"), and the calls [extend(Chart.prototype, ...)] and
    [extend(now, ...)] made only for their effect on the first argument:
    the properties are copied into the first argument, which is returned. *)
Definition extend (σ : Store) (a : Ref) (cx cy : rounded) : Store * Ref :=
  (alter (with_chart cx cy) a σ, a).

(** The object the position is read from ([ePos]).  Reading [pageX] of a
    missing [changedTouches[0]] raises. *)
Definition ePos (ev : EventObj) : JS.result Pos :=
  match touches ev with
  | Some ts =>
      match ts with
      | t :: _ => JS.Ok t                           (* [e.touches.item(0)] *)
      | [] => c ← JS.deref (changedTouches ev); JS.deref (head c)
      end
  | None => JS.Ok (page ev)
  end.

Definition normalize (ptr : Pointer) (σ : Store) (e : Ref)
    (chartPosition_arg : option Offset)
    : JS.result (Pointer * Store * Ref) :=
  ev ← JS.deref (σ !! e);
  pos ← ePos ev;
  let '(ptr', position) :=
    match chartPosition_arg with
    | Some o => (ptr, o)
    | None =>
        let o := containerOffset ptr in
        ({| chartPosition := Some o; containerOffset := containerOffset ptr |}, o)
    end in
  let '(σ', e') :=
    extend σ e (Math_round (pageX pos - left position)%float)
               (Math_round (pageY pos - top position)%float) in
  JS.Ok (ptr', σ', e').

(** The position the specification names for an event. *)
Inductive position_of (ev : EventObj) : Pos -> Prop :=
| first_touch t ts :
    touches ev = Some (t :: ts) -> position_of ev t
| first_changed_touch c cs :
    touches ev = Some [] -> changedTouches ev = Some (c :: cs) ->
    position_of ev c
| plain_mouse :
    touches ev = None -> position_of ev (page ev).

(** The offset in force for a call: the one passed in, else the
    container's. *)
Definition offset_used (ptr : Pointer) (arg : option Offset) : Offset :=
  default (containerOffset ptr) arg.

(** The statement of the specification at one event, for the position [p]
    it names: the call yields an event that carries the rounded
    differences. *)
Definition yields_chart_coordinates (ptr : Pointer) (σ : Store) (e : Ref)
    (arg : option Offset) (p : Pos) : Prop :=
  exists ptr' σ' e' ev',
    normalize ptr σ e arg = JS.Ok (ptr', σ', e') /\
    σ' !! e' = Some ev' /\
    chartX ev' = Some (Math_round (pageX p - left (offset_used ptr arg))%float) /\
    chartY ev' = Some (Math_round (pageY p - top (offset_used ptr arg))%float).

(** The freshness property as the specification words it: the result is an
    object other than the raw event, and the raw event is left as it was. *)
Definition returns_fresh_event (ptr : Pointer) (σ : Store) (e : Ref)
    (arg : option Offset) : Prop :=
  forall ptr' σ' e', normalize ptr σ e arg = JS.Ok (ptr', σ', e') ->
    e' <> e /\ σ' !! e = σ !! e.

(** A mouse move at (100.5, 200). *)
Definition click : EventObj :=
  {| type := "mousemove"; button := 0%Z;
     page := {| pageX := 100.5%float; pageY := 200%float |};
     touches := None; changedTouches := None;
     chartX := None; chartY := None |}.
(** A touch end: no touch is left, the one lifted was at (40, 55). *)
Definition tap : EventObj :=
  {| type := "touchend"; button := 0%Z;
     page := {| pageX := 0%float; pageY := 0%float |};
     touches := Some [];
     changedTouches := Some [ {| pageX := 40%float; pageY := 55%float |} ];
     chartX := None; chartY := None |}.
(** A touch event that lists no touch at all, neither in [touches] nor in
    [changedTouches], as a script can dispatch one. *)
Definition touchless : EventObj :=
  {| type := "touchend"; button := 0%Z;
     page := {| pageX := 0%float; pageY := 0%float |};
     touches := Some [];
     changedTouches := Some [];
     chartX := None; chartY := None |}.
(** A mouse move at the doubles nearest to (100.3, 200.5). *)
Definition fractional : EventObj :=
  {| type := "mousemove"; button := 0%Z;
     page := {| pageX := 0x1.9133333333333p+6%float;
                pageY := 200.5%float |};
     touches := None; changedTouches := None;
     chartX := None; chartY := None |}.
Definition pointer0 : Pointer :=
  {| chartPosition := None;
     containerOffset := {| left := 8%float; top := 12%float |} |}.
(** A container at the doubles nearest to (7.8, 0.5). *)
Definition pointer1 : Pointer :=
  {| chartPosition := None;
     containerOffset := {| left := 0x1.f333333333333p+2%float;
                           top := 0.5%float |} |}.

Lemma ePos_position_of (ev : EventObj) (p : Pos) :
  position_of ev p -> ePos ev = JS.Ok p.
Proof.
  intros [t ts Ht | c cs Ht Hc | Ht]; unfold ePos; rewrite Ht;
    [reflexivity | rewrite Hc; reflexivity | reflexivity].
Qed.

(** What a successful call computes, in terms of the offset in force. *)
Lemma normalize_ok (ptr : Pointer) (σ : gmap nat EventObj) (e : nat)
    (arg : option Offset) (ev : EventObj) (p : Pos) :
  σ !! e = Some ev -> ePos ev = JS.Ok p ->
  normalize ptr σ e arg =
  JS.Ok ({| chartPosition :=
              match arg with Some _ => chartPosition ptr
                           | None => Some (containerOffset ptr) end;
            containerOffset := containerOffset ptr |},
         alter (with_chart
                  (Math_round (pageX p - left (offset_used ptr arg))%float)
                  (Math_round (pageY p - top (offset_used ptr arg))%float))
               e σ,
         e).
Proof.
  intros He Hp. unfold normalize. rewrite He. cbn. rewrite Hp. cbn.
  destruct arg as [o |]; destruct ptr; reflexivity.
Qed.

(** [Math.round] of a finite double is the integer nearest to it. *)
Lemma Math_round_nearest (x : float) (d : Q) :
  value x = Some d ->
  exists z, Math_round x = Int z /\
            d - (1 # 2) < inject_Z z /\ inject_Z z <= d + (1 # 2).
Proof.
  intros H. unfold Math_round. rewrite H. eexists. split; [reflexivity |].
  apply JS.round_spec.
Qed.

(** The difference is taken in doubles before it is rounded.  The doubles
    nearest to 100.3 and 7.8 lie a little below them, and their exact
    difference a little below 92.5; the double nearest to that difference
    is 92.5 itself, which [Math.round] takes to 93, where the exact
    difference would give 92. *)
Lemma normalize_rounds_the_double :
  exists ptr' σ',
    normalize pointer1 {[ 0%nat := fractional ]} 0%nat None
      = JS.Ok (ptr', σ', 0%nat) /\
    (chartX <$> σ' !! 0%nat) = Some (Some (Int 93)) /\
    (chartY <$> σ' !! 0%nat) = Some (Some (Int 200)) /\
    exists px ox,
      value (pageX (page fractional)) = Some px /\
      value (left (containerOffset pointer1)) = Some ox /\
      px - ox < 925 # 10 /\
      JS.round (px - ox) = 92%Z.
Proof.
  eexists _, _. split; [reflexivity |]. split; [reflexivity |].
  split; [reflexivity |].
  eexists _, _. split; [reflexivity |]. split; [reflexivity |].
  split; reflexivity.
Qed.

(** C4 (as amended): for an event that has a position [p] (the first
    touch, else the first changed touch, else, without [touches], the
    event itself) and the chart offset in force, [normalize] returns and
    the event it returns carries [chartX = Math.round(pageX - left)] and
    [chartY = Math.round(pageY - top)], the differences being taken in
    double precision: whenever such a difference is finite, the coordinate
    is the integer nearest to it (halves rounded up). *)
Theorem normalize_chart_coordinates (ptr : Pointer) (σ : gmap nat EventObj)
    (e : nat) (arg : option Offset) (ev : EventObj) (p : Pos) :
  σ !! e = Some ev ->
  position_of ev p ->
  let off := offset_used ptr arg in
  exists ptr' σ' e' ev',
    normalize ptr σ e arg = JS.Ok (ptr', σ', e') /\
    σ' !! e' = Some ev' /\
    chartX ev' = Some (Math_round (pageX p - left off)%float) /\
    chartY ev' = Some (Math_round (pageY p - top off)%float) /\
    (forall dx, value (pageX p - left off)%float = Some dx ->
       exists cx, chartX ev' = Some (Int cx) /\
         dx - (1 # 2) < inject_Z cx /\ inject_Z cx <= dx + (1 # 2)) /\
    (forall dy, value (pageY p - top off)%float = Some dy ->
       exists cy, chartY ev' = Some (Int cy) /\
         dy - (1 # 2) < inject_Z cy /\ inject_Z cy <= dy + (1 # 2)).
Proof.
  intros He Hp off. apply ePos_position_of in Hp.
  rewrite (normalize_ok ptr σ e arg ev p He Hp).
  do 4 eexists. split; [reflexivity |].
  rewrite lookup_alter_eq, He.
  unfold fmap, option_fmap, option_map. cbn [chartX chartY with_chart].
  split; [reflexivity |]. split; [reflexivity |]. split; [reflexivity |].
  split; intros d Hd; destruct (Math_round_nearest _ d Hd) as (z & Hr & Hz);
    exists z; (split; [cbn [chartX chartY with_chart]; f_equal; exact Hr
                      | exact Hz]).
Qed.

(** A touch-end event at (40, 55) on a chart whose container sits at
    (8, 12): the changed touch gives chart coordinates (32, 43). *)
Lemma normalize_chart_coordinates_witness :
  exists ptr' σ' e' ev',
    normalize pointer0 {[ 0%nat := tap ]} 0%nat None = JS.Ok (ptr', σ', e') /\
    σ' !! e' = Some ev' /\
    chartX ev' = Some (Math_round (40 - 8)%float) /\
    chartY ev' = Some (Math_round (55 - 12)%float) /\
    (forall dx, value (40 - 8)%float = Some dx ->
       exists cx, chartX ev' = Some (Int cx) /\
         dx - (1 # 2) < inject_Z cx /\ inject_Z cx <= dx + (1 # 2)) /\
    (forall dy, value (55 - 12)%float = Some dy ->
       exists cy, chartY ev' = Some (Int cy) /\
         dy - (1 # 2) < inject_Z cy /\ inject_Z cy <= dy + (1 # 2)).
Proof.
  apply (normalize_chart_coordinates pointer0 {[ 0%nat := tap ]} 0%nat None
           tap {| pageX := 40%float; pageY := 55%float |}).
  - apply lookup_singleton_eq.
  - apply (first_changed_touch tap _ []); reflexivity.
Defined.

(** A touch event without any touch has no position: [normalize] raises
    on it instead of yielding chart coordinates, whatever position one
    reads the event at. *)
Lemma normalize_raises_without_touch :
  ~ exists p,
      yields_chart_coordinates pointer0 {[ 0%nat := touchless ]} 0%nat None p.
Proof.
  intros (p & ptr' & σ' & e' & ev' & H & _). discriminate H.
Qed.

(** C9 (as amended): for an event that has a position, [normalize] extends
    the raw event in place and returns that same object: the reference
    returned is the one passed in, the stored event differs from the raw one
    only in [chartX] and [chartY], and no other object of the store
    changes. *)
Theorem normalize_extends_in_place (ptr : Pointer) (σ : gmap nat EventObj)
    (e : nat) (arg : option Offset) (ev : EventObj) (p : Pos) :
  σ !! e = Some ev ->
  position_of ev p ->
  exists ptr' σ' cx cy,
    normalize ptr σ e arg = JS.Ok (ptr', σ', e) /\
    σ' !! e = Some (with_chart cx cy ev) /\
    (forall k, k <> e -> σ' !! k = σ !! k).
Proof.
  intros He Hp. apply ePos_position_of in Hp.
  rewrite (normalize_ok ptr σ e arg ev p He Hp).
  do 4 eexists. split; [reflexivity |]. split.
  - rewrite lookup_alter_eq, He. reflexivity.
  - intros k Hk. apply lookup_alter_ne. congruence.
Qed.

(** The amended statement at a mouse event stored at reference 0. *)
Lemma normalize_extends_in_place_witness :
  exists ptr' σ' cx cy,
    normalize pointer0 {[ 0%nat := click ]} 0%nat None = JS.Ok (ptr', σ', 0%nat) /\
    σ' !! 0%nat = Some (with_chart cx cy click) /\
    (forall k, k <> 0%nat ->
       σ' !! k = ({[ 0%nat := click ]} : gmap nat EventObj) !! k).
Proof.
  apply (normalize_extends_in_place pointer0 {[ 0%nat := click ]} 0%nat None
           click (page click)).
  - apply lookup_singleton_eq.
  - apply plain_mouse. reflexivity.
Defined.

(** The event returned for a mouse event is the raw event itself, now
    carrying [chartX] and [chartY]: it is neither a new object nor left
    unchanged. *)
Lemma normalize_returns_raw_event :
  ~ returns_fresh_event pointer0 {[ 0%nat := click ]} 0%nat None.
Proof.
  intros H. edestruct H as [Hne _]; [reflexivity |]. apply Hne. reflexivity.
Qed.

(** *** Normalising an event again *)

Lemma ePos_with_chart (cx cy : rounded) (ev : EventObj) :
  ePos (with_chart cx cy ev) = ePos ev.
Proof. reflexivity. Qed.

Lemma alter_with_chart_twice (cx cy : rounded) (e : nat)
    (σ : gmap nat EventObj) :
  alter (with_chart cx cy) e (alter (with_chart cx cy) e σ)
  = alter (with_chart cx cy) e σ.
Proof.
  apply map_eq. intros k. destruct (decide (k = e)) as [-> | Hne].
  - rewrite !lookup_alter_eq. destruct (σ !! e); reflexivity.
  - rewrite !lookup_alter_ne by congruence. reflexivity.
Qed.

(** X21: [normalize] is idempotent.  Normalising the event it returned
    once more, with the same offset argument or with the chart position it
    cached, returns the same event with the same coordinates and leaves the
    pointer as it is. *)
Theorem normalize_idempotent (ptr ptr1 : Pointer) (σ σ1 : gmap nat EventObj)
    (e e1 : nat) (arg : option Offset) :
  normalize ptr σ e arg = JS.Ok (ptr1, σ1, e1) ->
  normalize ptr1 σ1 e1 arg = JS.Ok (ptr1, σ1, e1) /\
  (arg = None ->
   normalize ptr1 σ1 e1 (chartPosition ptr1) = JS.Ok (ptr1, σ1, e1)).
Proof.
  intros H.
  destruct (σ !! e) as [ev |] eqn:He;
    [| unfold normalize in H; rewrite He in H; discriminate].
  destruct (ePos ev) as [p |] eqn:Hp;
    [| unfold normalize in H; rewrite He in H; cbn in H; rewrite Hp in H;
       discriminate].
  rewrite (normalize_ok ptr σ e arg ev p He Hp) in H.
  injection H as <- <- <-.
  set (cx := Math_round (pageX p - left (offset_used ptr arg))%float).
  set (cy := Math_round (pageY p - top (offset_used ptr arg))%float).
  assert (He1 : alter (with_chart cx cy) e σ !! e = Some (with_chart cx cy ev))
    by (rewrite lookup_alter_eq, He; reflexivity).
  assert (Hp1 : ePos (with_chart cx cy ev) = JS.Ok p)
    by (rewrite ePos_with_chart; exact Hp).
  split.
  - rewrite (normalize_ok _ _ e arg _ p He1 Hp1).
    destruct arg as [o |]; cbn [offset_used default chartPosition
                                containerOffset];
      fold cx cy; rewrite alter_with_chart_twice; reflexivity.
  - intros ->. cbn [chartPosition].
    rewrite (normalize_ok _ _ e (Some (containerOffset ptr)) _ p He1 Hp1).
    cbn [offset_used default chartPosition containerOffset].
    fold cx cy. rewrite alter_with_chart_twice. reflexivity.
Qed.

Lemma normalize_idempotent_witness :
  let σ := {[ 0%nat := click ]} in
  let once :=
    ({| chartPosition := Some {| left := 8%float; top := 12%float |};
        containerOffset := {| left := 8%float; top := 12%float |} |},
     alter (with_chart (Int 93) (Int 188)) 0%nat σ, 0%nat) in
  normalize (fst (fst once)) (snd (fst once)) (snd once) None = JS.Ok once /\
  (@None Offset = None ->
   normalize (fst (fst once)) (snd (fst once)) (snd once)
     (chartPosition (fst (fst once))) = JS.Ok once).
Proof.
  apply (normalize_idempotent pointer0 _ {[ 0%nat := click ]} _ 0%nat 0%nat
           None).
  unfold normalize. rewrite lookup_singleton_eq. reflexivity.
Defined.


End Normalize.

(** ** Drag gesture ([Pointer.dragStart], [Pointer.drag]) *)

Module Gesture.

Local Open Scope Z_scope.

Inductive Key : Type := alt | ctrl | meta | shift.

(** A normalised pointer event: chart coordinates and modifier keys. *)
Record Event : Type := {
  type : string;
  chartX : Z;
  chartY : Z;
  keyDown : Key -> bool        (* [e.altKey], [e.ctrlKey], ... *)
}.

(** The selection marker: the rectangle's attributes, and the [touch] flag
    a pinch gesture puts on its own marker. *)
Record Marker : Type := {
  touch : bool;
  x : Z;
  y : Z;
  width : Z;
  height : Z
}.

Record Chart : Type := {
  plotLeft : Z;
  plotTop : Z;
  plotWidth : Z;
  plotHeight : Z;
  hasCartesianSeries : bool;
  styledMode : bool;
  panKey : option Key;                 (* [options.chart.panKey] *)
  panning : bool;                      (* [options.chart.panning] *)
  mouseIsDown : option string;
  cancelClick : bool;
  chart_mouseDownX : Z;
  chart_mouseDownY : Z
}.

(** The pointer's fields.  [hasDragged2] is the square of the distance the
    code stores in [hasDragged]: on integer pixels [Math.sqrt(n) > 10]
    exactly when [n > 100]. *)
Record Pointer : Type := {
  selectionMarker : option Marker;
  hasDragged2 : Z;
  mouseDownX : Z;
  mouseDownY : Z;
  zoomX : bool;
  zoomY : bool;
  zoomHor : bool;
  zoomVert : bool
}.

(** Calls into the renderer and the chart, in program order. *)
Inductive Effect : Type :=
| RendererRect (x y w h : Z)     (* the marker is created and added *)
| MarkerFill                     (* its fill is set, outside styled mode *)
| Pan (e : Event).               (* [chart.pan(e, panning)] *)

(** [Chart.isInsidePlot(plotX, plotY)] *)
Definition isInsidePlot (c : Chart) (px py : Z) : bool :=
  (0 <=? px) && (px <=? plotWidth c) && (0 <=? py) && (py <=? plotHeight c).

Definition dragStart (c : Chart) (p : Pointer) (e : Event) : Chart * Pointer :=
  ({| plotLeft := plotLeft c; plotTop := plotTop c;
      plotWidth := plotWidth c; plotHeight := plotHeight c;
      hasCartesianSeries := hasCartesianSeries c; styledMode := styledMode c;
      panKey := panKey c; panning := panning c;
      mouseIsDown := Some (type e); cancelClick := false;
      chart_mouseDownX := chartX e; chart_mouseDownY := chartY e |},
   {| selectionMarker := selectionMarker p; hasDragged2 := hasDragged2 p;
      mouseDownX := chartX e; mouseDownY := chartY e;
      zoomX := zoomX p; zoomY := zoomY p;
      zoomHor := zoomHor p; zoomVert := zoomVert p |}).

(** The pointer coordinate brought back into the plot area. *)
Definition clamp (lo len v : Z) : Z :=
  if v <? lo then lo else if v >? lo + len then lo + len else v.

(** [options.chart.panKey && e[panKey + 'Key']] *)
Definition panKeyHeld (c : Chart) (e : Event) : bool :=
  match panKey c with
  | Some k => keyDown e k
  | None => false
  end.

Definition clickedInside (c : Chart) (p : Pointer) : bool :=
  isInsidePlot c (mouseDownX p - plotLeft c) (mouseDownY p - plotTop c).

(** The squared distance of the clamped pointer from the drag origin. *)
Definition displacement2 (c : Chart) (p : Pointer) (e : Event) : Z :=
  (mouseDownX p - clamp (plotLeft c) (plotWidth c) (chartX e)) ^ 2 +
  (mouseDownY p - clamp (plotTop c) (plotHeight c) (chartY e)) ^ 2.

Definition with_marker (m : option Marker) (hd : Z) (p : Pointer) : Pointer :=
  {| selectionMarker := m; hasDragged2 := hd;
     mouseDownX := mouseDownX p; mouseDownY := mouseDownY p;
     zoomX := zoomX p; zoomY := zoomY p;
     zoomHor := zoomHor p; zoomVert := zoomVert p |}.

Definition drag (c : Chart) (p : Pointer) (e : Event) : Pointer * list Effect :=
  let touching :=
    match selectionMarker p with Some m => touch m | None => false end in
  if touching then (p, [])
  else
    let cX := clamp (plotLeft c) (plotWidth c) (chartX e) in
    let cY := clamp (plotTop c) (plotHeight c) (chartY e) in
    let hd := (mouseDownX p - cX) ^ 2 + (mouseDownY p - cY) ^ 2 in
    if hd >? 100 then
      let inside := clickedInside c p in
      (* make a selection *)
      let '(m1, created) :=
        if hasCartesianSeries c && (zoomX p || zoomY p) && inside
           && negb (panKeyHeld c e)
        then
          match selectionMarker p with
          | None =>
              let w := if zoomHor p then 1 else plotWidth c in
              let h := if zoomVert p then 1 else plotHeight c in
              (Some {| touch := false; x := plotLeft c; y := plotTop c;
                       width := w; height := h |},
               RendererRect (plotLeft c) (plotTop c) w h
                 :: (if styledMode c then [] else [MarkerFill]))
          | Some m => (Some m, [])
          end
        else (selectionMarker p, []) in
      (* adjust the width of the selection marker *)
      let m2 :=
        match m1 with
        | Some m =>
            if zoomHor p then
              let size := cX - mouseDownX p in
              Some {| touch := touch m; y := y m; height := height m;
                      width := Z.abs size;
                      x := (if size >? 0 then 0 else size) + mouseDownX p |}
            else m1
        | None => None
        end in
      (* adjust the height of the selection marker *)
      let m3 :=
        match m2 with
        | Some m =>
            if zoomVert p then
              let size := cY - mouseDownY p in
              Some {| touch := touch m; x := x m; width := width m;
                      height := Z.abs size;
                      y := (if size >? 0 then 0 else size) + mouseDownY p |}
            else m2
        | None => None
        end in
      (* panning *)
      let panned :=
        if inside && negb (bool_decide (is_Some m3)) && panning c
        then [Pan e] else [] in
      (with_marker m3 hd p, created ++ panned)
    else (with_marker (selectionMarker p) hd p, []).

(** A sequence of move events, each handled by [drag]. *)
Fixpoint drags (c : Chart) (p : Pointer) (es : list Event)
    : Pointer * list Effect :=
  match es with
  | [] => (p, [])
  | e :: rest =>
      let '(p1, eff1) := drag c p e in
      let '(p2, eff2) := drags c p1 rest in
      (p2, eff1 ++ eff2)
  end.

(** The marker was created by this effect list. *)
Definition creates_marker (eff : list Effect) : Prop :=
  exists x y w h, RendererRect x y w h ∈ eff.

(** The commitment at the crossing event as the specification words it:
    zoom enabled, a start inside the plot area and no pan key create the
    marker; panning enabled and no marker call the pan operation. *)
Definition commits_on_crossing (c : Chart) (p : Pointer) (e : Event) : Prop :=
  selectionMarker p = None ->
  100 < displacement2 c p e ->
  ((zoomX p || zoomY p) && clickedInside c p && negb (panKeyHeld c e) = true ->
     creates_marker (snd (drag c p e)) /\
     is_Some (selectionMarker (fst (drag c p e)))) /\
  (panning c = true -> selectionMarker (fst (drag c p e)) = None ->
     Pan e ∈ snd (drag c p e)).

(** A 300 x 200 plot area at (50, 40), panning enabled, no zoom. *)
Definition pan_chart : Chart :=
  {| plotLeft := 50; plotTop := 40; plotWidth := 300; plotHeight := 200;
     hasCartesianSeries := true; styledMode := false;
     panKey := None; panning := true;
     mouseIsDown := Some "mousedown"%string; cancelClick := false;
     chart_mouseDownX := 10; chart_mouseDownY := 100 |}.
(** The same plot area with zoom along x and no panning. *)
Definition zoom_chart : Chart :=
  {| plotLeft := 50; plotTop := 40; plotWidth := 300; plotHeight := 200;
     hasCartesianSeries := true; styledMode := false;
     panKey := None; panning := false;
     mouseIsDown := Some "mousedown"%string; cancelClick := false;
     chart_mouseDownX := 100; chart_mouseDownY := 100 |}.
(** A drag that started at (10, 100), left of the plot area. *)
Definition started_outside : Pointer :=
  {| selectionMarker := None; hasDragged2 := 0;
     mouseDownX := 10; mouseDownY := 100;
     zoomX := false; zoomY := false; zoomHor := false; zoomVert := false |}.
(** A drag that started at (100, 100), inside the plot area. *)
Definition started_inside : Pointer :=
  {| selectionMarker := None; hasDragged2 := 0;
     mouseDownX := 100; mouseDownY := 100;
     zoomX := true; zoomY := false; zoomHor := true; zoomVert := false |}.
Definition move_to (cx cy : Z) : Event :=
  {| type := "mousemove"; chartX := cx; chartY := cy; keyDown := fun _ => false |}.

(** [drag] never moves the drag origin nor changes the zoom flags. *)
Lemma drag_frame (c : Chart) (p : Pointer) (e : Event) :
  let p' := fst (drag c p e) in
  mouseDownX p' = mouseDownX p /\ mouseDownY p' = mouseDownY p /\
  zoomX p' = zoomX p /\ zoomY p' = zoomY p /\
  zoomHor p' = zoomHor p /\ zoomVert p' = zoomVert p.
Proof.
  unfold drag.
  destruct (match selectionMarker p with Some m => touch m | None => false end);
    [cbn; auto 10 |].
  match goal with |- context [if ?b then _ else _] => destruct b end;
    [| cbn; auto 10].
  match goal with |- context [let '(_, _) := ?t in _] => destruct t end.
  cbn. auto 10.
Qed.

Lemma displacement2_drag (c : Chart) (p : Pointer) (e e' : Event) :
  displacement2 c (fst (drag c p e)) e' = displacement2 c p e'.
Proof.
  destruct (drag_frame c p e) as (Hx & Hy & _).
  unfold displacement2. rewrite Hx, Hy. reflexivity.
Qed.

Lemma clickedInside_drag (c : Chart) (p : Pointer) (e : Event) :
  clickedInside c (fst (drag c p e)) = clickedInside c p.
Proof.
  destruct (drag_frame c p e) as (Hx & Hy & _).
  unfold clickedInside. rewrite Hx, Hy. reflexivity.
Qed.

(** Within the threshold a move event has no effect but recording the
    distance. *)
Lemma drag_within_threshold (c : Chart) (p : Pointer) (e : Event) :
  displacement2 c p e <= 100 ->
  snd (drag c p e) = [] /\
  selectionMarker (fst (drag c p e)) = selectionMarker p.
Proof.
  intros H. unfold drag.
  destruct (match selectionMarker p with Some m => touch m | None => false end);
    [split; reflexivity |].
  fold (displacement2 c p e).
  destruct (displacement2 c p e >? 100) eqn:E; [lia |].
  split; reflexivity.
Qed.

Lemma drags_within_threshold (c : Chart) (es : list Event) :
  forall p,
    Forall (fun e => displacement2 c p e <= 100) es ->
    snd (drags c p es) = [] /\
    selectionMarker (fst (drags c p es)) = selectionMarker p /\
    (forall e, displacement2 c (fst (drags c p es)) e = displacement2 c p e) /\
    clickedInside c (fst (drags c p es)) = clickedInside c p /\
    zoomX (fst (drags c p es)) = zoomX p /\
    zoomY (fst (drags c p es)) = zoomY p.
Proof.
  induction es as [| e es IH]; intros p Hall; [cbn; auto 10 |].
  apply Forall_cons in Hall as [He Hes].
  destruct (drag_within_threshold c p e He) as [Heff Hm].
  destruct (drag_frame c p e) as (_ & _ & Hzx & Hzy & _).
  cbn [drags].
  destruct (drag c p e) as [p1 eff1] eqn:Ed. cbn [fst snd] in *.
  assert (Hd : forall e', displacement2 c p1 e' = displacement2 c p e').
  { intros e'. rewrite <- (displacement2_drag c p e e'), Ed. reflexivity. }
  assert (Hc : clickedInside c p1 = clickedInside c p).
  { rewrite <- (clickedInside_drag c p e), Ed. reflexivity. }
  destruct (IH p1) as (IH1 & IH2 & IH3 & IH4 & IH5 & IH6).
  { eapply Forall_impl; [exact Hes |]. intros e' He'. cbn in He'.
    rewrite Hd. exact He'. }
  destruct (drags c p1 es) as [p2 eff2]. cbn [fst snd] in *.
  subst eff1 eff2. repeat split; congruence.
Qed.

(** What the first event beyond the threshold does when no marker exists
    yet. *)
Lemma drag_crossing (c : Chart) (p : Pointer) (e : Event) :
  selectionMarker p = None ->
  100 < displacement2 c p e ->
  if hasCartesianSeries c && (zoomX p || zoomY p) && clickedInside c p
     && negb (panKeyHeld c e)
  then creates_marker (snd (drag c p e)) /\
       is_Some (selectionMarker (fst (drag c p e))) /\
       Pan e ∉ snd (drag c p e)
  else selectionMarker (fst (drag c p e)) = None /\
       snd (drag c p e) =
         if clickedInside c p && panning c then [Pan e] else [].
Proof.
  intros Hm Hd. unfold drag. rewrite Hm. fold (displacement2 c p e).
  destruct (displacement2 c p e >? 100) eqn:E; [| lia].
  destruct (hasCartesianSeries c && (zoomX p || zoomY p) && clickedInside c p
            && negb (panKeyHeld c e)) eqn:Hzoom.
  - destruct (zoomHor p), (zoomVert p), (styledMode c); cbn;
      rewrite ?andb_false_r; cbn;
      (split; [do 4 eexists; apply elem_of_cons; left; reflexivity |]);
      (split; [eauto |]);
      intros Hpan; repeat (apply elem_of_cons in Hpan as [Hpan | Hpan];
                           [discriminate |]);
      apply elem_of_nil in Hpan; exact Hpan.
  - cbn. split; [reflexivity |].
    destruct (clickedInside c p), (panning c); reflexivity.
Qed.

(** C3 (as amended): while the clamped pointer stays within 10px of the
    drag origin, [drag] neither creates a selection marker nor calls the pan
    operation.  The first move event beyond 10px creates the marker when the
    chart has cartesian series, zoom is enabled, the drag started inside the
    plot area and no pan key is held; otherwise it calls the pan operation
    when the drag started inside the plot area and panning is enabled, and
    does nothing when neither holds. *)
Theorem drag_threshold (c : Chart) (p : Pointer) (es : list Event) (e : Event) :
  Forall (fun e' => displacement2 c p e' <= 100) es ->
  selectionMarker p = None ->
  100 < displacement2 c p e ->
  let p1 := fst (drags c p es) in
  snd (drags c p es) = [] /\ selectionMarker p1 = None /\
  if hasCartesianSeries c && (zoomX p || zoomY p) && clickedInside c p
     && negb (panKeyHeld c e)
  then creates_marker (snd (drag c p1 e)) /\
       is_Some (selectionMarker (fst (drag c p1 e))) /\
       Pan e ∉ snd (drag c p1 e)
  else selectionMarker (fst (drag c p1 e)) = None /\
       snd (drag c p1 e) =
         if clickedInside c p && panning c then [Pan e] else [].
Proof.
  intros Hall Hm Hd p1.
  destruct (drags_within_threshold c es p Hall)
    as (Heff & Hsel & Hdisp & Hci & Hzx & Hzy).
  fold p1 in Hsel, Hdisp, Hci, Hzx, Hzy.
  split; [exact Heff |]. split; [congruence |].
  pose proof (drag_crossing c p1 e) as H.
  rewrite Hci, Hzx, Hzy in H. apply H; [congruence |].
  rewrite Hdisp. exact Hd.
Qed.

(** A drag from (100, 100) on [zoom_chart]: two moves within 10px, then
    one to (130, 100), which creates the marker. *)
Lemma drag_threshold_witness :
  let es := [move_to 103 104; move_to 106 108] in
  let e := move_to 130 100 in
  let p1 := fst (drags zoom_chart started_inside es) in
  snd (drags zoom_chart started_inside es) = [] /\
  selectionMarker p1 = None /\
  creates_marker (snd (drag zoom_chart p1 e)) /\
  is_Some (selectionMarker (fst (drag zoom_chart p1 e))) /\
  Pan e ∉ snd (drag zoom_chart p1 e).
Proof.
  apply (drag_threshold zoom_chart started_inside
           [move_to 103 104; move_to 106 108] (move_to 130 100)).
  - repeat constructor; vm_compute; discriminate.
  - reflexivity.
  - vm_compute. reflexivity.
Defined.

(** A drag that started left of the plot area on [pan_chart] and moved
    40px: panning is enabled and there is no marker, yet the pan operation
    is not called. *)
Lemma drag_outside_does_not_pan :
  ~ commits_on_crossing pan_chart started_outside (move_to 50 100).
Proof.
  intros H. destruct H as [_ Hpan].
  - reflexivity.
  - vm_compute. reflexivity.
  - specialize (Hpan eq_refl eq_refl). vm_compute in Hpan.
    apply elem_of_nil in Hpan. exact Hpan.
Qed.

(** The marker is not created on a chart without cartesian series, even
    with zoom enabled and a start inside the plot area. *)
Lemma drag_needs_cartesian_series :
  let c := {| plotLeft := 50; plotTop := 40; plotWidth := 300; plotHeight := 200;
              hasCartesianSeries := false; styledMode := false;
              panKey := None; panning := false;
              mouseIsDown := Some "mousedown"%string; cancelClick := false;
              chart_mouseDownX := 100; chart_mouseDownY := 100 |} in
  drag c started_inside (move_to 130 100) =
  (with_marker None 900 started_inside, []).
Proof. reflexivity. Qed.

(** *** The selection marker stays inside the plot area *)

(** The rectangle of [m] lies within the plot area of [c]. *)
Definition inside_plot (c : Chart) (m : Marker) : Prop :=
  plotLeft c <= x m /\ x m + width m <= plotLeft c + plotWidth c /\
  0 <= width m /\
  plotTop c <= y m /\ y m + height m <= plotTop c + plotHeight c /\
  0 <= height m.

(** What holds of the pointer between two move events of one drag: a
    marker exists only for a drag that started inside the plot area, and
    lies inside it. *)
Definition marker_ok (c : Chart) (p : Pointer) : Prop :=
  match selectionMarker p with
  | None => True
  | Some m => clickedInside c p = true /\ inside_plot c m
  end.

Lemma clamp_bounds (lo len v : Z) :
  0 <= len -> lo <= clamp lo len v <= lo + len.
Proof.
  intros H. unfold clamp.
  destruct (Z.ltb_spec v lo); [lia |].
  rewrite Z.gtb_ltb. destruct (Z.ltb_spec (lo + len) v); lia.
Qed.

Lemma clickedInside_bounds (c : Chart) (p : Pointer) :
  clickedInside c p = true ->
  plotLeft c <= mouseDownX p <= plotLeft c + plotWidth c /\
  plotTop c <= mouseDownY p <= plotTop c + plotHeight c.
Proof.
  unfold clickedInside, isInsidePlot. rewrite !andb_true_iff.
  intros [[[H1 H2] H3] H4].
  apply Z.leb_le in H1, H2, H3, H4. lia.
Qed.

(** The two adjustments [drag] makes to an existing marker. *)
Lemma adjusted_inside (c : Chart) (p : Pointer) (e : Event) (m : Marker) :
  clickedInside c p = true -> inside_plot c m ->
  let cX := clamp (plotLeft c) (plotWidth c) (chartX e) in
  let cY := clamp (plotTop c) (plotHeight c) (chartY e) in
  let m2 :=
    if zoomHor p then
      {| touch := touch m; y := y m; height := height m;
         width := Z.abs (cX - mouseDownX p);
         x := (if cX - mouseDownX p >? 0 then 0 else cX - mouseDownX p)
              + mouseDownX p |}
    else m in
  let m3 :=
    if zoomVert p then
      {| touch := touch m2; x := x m2; width := width m2;
         height := Z.abs (cY - mouseDownY p);
         y := (if cY - mouseDownY p >? 0 then 0 else cY - mouseDownY p)
              + mouseDownY p |}
    else m2 in
  inside_plot c m3.
Proof.
  intros Hin Hm. apply clickedInside_bounds in Hin as [HX HY].
  pose proof (clamp_bounds (plotLeft c) (plotWidth c) (chartX e)) as HcX.
  pose proof (clamp_bounds (plotTop c) (plotHeight c) (chartY e)) as HcY.
  specialize (HcX ltac:(lia)). specialize (HcY ltac:(lia)).
  unfold inside_plot in *. cbv zeta.
  set (cX := clamp (plotLeft c) (plotWidth c) (chartX e)) in *.
  set (cY := clamp (plotTop c) (plotHeight c) (chartY e)) in *.
  rewrite !Z.gtb_ltb.
  destruct (zoomHor p), (zoomVert p); cbn [x y width height];
    repeat match goal with
           | |- context [if ?a <? ?b then _ else _] =>
               destruct (Z.ltb_spec a b)
           end; lia.
Qed.

Lemma drag_marker_ok (c : Chart) (p : Pointer) (e : Event) :
  marker_ok c p -> marker_ok c (fst (drag c p e)).
Proof.
  unfold marker_ok. intros Hok.
  rewrite clickedInside_drag. unfold drag.
  destruct (selectionMarker p) as [m |] eqn:Em.
  - destruct Hok as [Hin Hm].
    destruct (touch m) eqn:Et.
    { cbn [fst]. rewrite Em. auto. }
    match goal with |- context [if ?b >? 100 then _ else _] =>
      destruct (b >? 100) end;
      [| cbn [fst with_marker selectionMarker]; auto].
    pose proof (adjusted_inside c p e m Hin Hm) as Hadj. cbv zeta in Hadj.
    match goal with |- context [let '(_, _) := (if ?b then _ else _) in _] =>
      destruct b end;
      cbn [fst with_marker selectionMarker];
      destruct (zoomHor p), (zoomVert p);
      cbn [fst with_marker selectionMarker touch x y width height] in *;
      auto.
  - match goal with |- context [if ?b >? 100 then _ else _] =>
      destruct (b >? 100) end;
      [| cbn [fst with_marker selectionMarker]; rewrite ?Em; auto].
    destruct (clickedInside c p) eqn:Hin;
      [| rewrite !andb_false_r; cbn; exact I].
    destruct (hasCartesianSeries c && (zoomX p || zoomY p) && true
              && negb (panKeyHeld c e)); [| cbn; exact I].
    pose proof (clickedInside_bounds c p Hin) as [HX HY].
    set (m := {| touch := false; x := plotLeft c; y := plotTop c;
                 width := if zoomHor p then 1 else plotWidth c;
                 height := if zoomVert p then 1 else plotHeight c |}).
    assert (Hfull : inside_plot c
              {| touch := false; x := plotLeft c; y := plotTop c;
                 width := plotWidth c; height := plotHeight c |})
      by (unfold inside_plot; cbn; lia).
    pose proof (adjusted_inside c p e _ Hin Hfull) as Hadj. cbv zeta in Hadj.
    subst m.
    destruct (zoomHor p), (zoomVert p);
      cbn [fst with_marker selectionMarker touch x y width height] in *;
      (split; [reflexivity |]);
      unfold inside_plot in *;
      cbn [touch x y width height] in *; lia.
Qed.

Lemma drags_marker_ok (c : Chart) (es : list Event) :
  forall p, marker_ok c p -> marker_ok c (fst (drags c p es)).
Proof.
  induction es as [| e es IH]; intros p Hok; [exact Hok |].
  cbn [drags]. pose proof (drag_marker_ok c p e Hok) as H1.
  destruct (drag c p e) as [p1 eff1]. cbn [fst] in H1.
  specialize (IH p1 H1). destruct (drags c p1 es) as [p2 eff2].
  exact IH.
Qed.

(** X3: from a pointer without a selection marker, whatever move events
    the drag goes through, the marker, once there, is a rectangle inside
    the plot area: its sides are never negative and it never reaches past
    the plot edges, wherever the pointer moves. *)
Theorem drag_marker_inside_plot
    (c : Chart) (p : Pointer) (es : list Event) (m : Marker) :
  selectionMarker p = None ->
  selectionMarker (fst (drags c p es)) = Some m ->
  inside_plot c m.
Proof.
  intros Hnone Hm.
  assert (Hok : marker_ok c p) by (unfold marker_ok; rewrite Hnone; exact I).
  apply (drags_marker_ok c es) in Hok.
  unfold marker_ok in Hok. rewrite Hm in Hok. apply Hok.
Qed.

(** A zoom drag from (100, 100) that leaves the plot area on the right
    and comes back to its left edge. *)
Lemma drag_marker_inside_plot_witness :
  inside_plot zoom_chart
    {| touch := false; x := 50; y := 40; width := 50; height := 200 |}.
Proof.
  apply (drag_marker_inside_plot zoom_chart started_inside
           [move_to 900 100; move_to 0 500]); reflexivity.
Defined.

End Gesture.

(** ** The end of a drag ([Pointer.drop]) *)

Module Release.

Import Gesture.

(** [axis.coll]: the collection an axis belongs to.  The selection data
    has a list for the first two only. *)
Inductive Coll : Type := xAxis | yAxis | otherAxis.

(** What [drop] and [getCoordinates] read of an axis.  [toValue] is the
    axis' map from a pixel position to an axis value. *)
Record Axis : Type := {
  coll : Coll;
  isXAxis : bool;
  horiz : bool;
  zoomEnabled : bool;
  min : option Q;
  minPixelPadding : Q;
  toValue : Q -> Q
}.

Record Datum : Type := { d_axis : Axis; d_min : Q; d_max : Q }.

Record SelectionData : Type := {
  originalEvent : Event;
  sel_xAxis : list Datum;
  sel_yAxis : list Datum
}.

(** The chart and its pointer at a release.  [index] is [chart.index],
    [undefined] once the chart is destroyed. *)
Record World : Type := {
  chart : Gesture.Chart;
  index : option nat;
  axes : list Axis;
  pointer : Gesture.Pointer;
  hasPinched : bool;
  pinchDown : list (Z * Z)
}.

Inductive Call : Type :=
| FireSelection (d : SelectionData) (pinched : bool)
| MarkerDestroy
| ScaleGroups
| CssCursor.

(** [chart.cancelClick = c; chart.mouseIsDown = false] *)
Definition released (cancel : bool) (c : Gesture.Chart) : Gesture.Chart :=
  {| plotLeft := plotLeft c; plotTop := plotTop c;
     plotWidth := plotWidth c; plotHeight := plotHeight c;
     hasCartesianSeries := hasCartesianSeries c; styledMode := styledMode c;
     panKey := panKey c; panning := panning c;
     mouseIsDown := None; cancelClick := cancel;
     chart_mouseDownX := chart_mouseDownX c;
     chart_mouseDownY := chart_mouseDownY c |}.

Definition with_pointer (p : Gesture.Pointer) (w : World) : World :=
  {| chart := chart w; index := index w; axes := axes w; pointer := p;
     hasPinched := hasPinched w; pinchDown := pinchDown w |}.

(** The test inside the axis loop (#859, #3569). *)
Definition zooms (pinched : bool) (p : Gesture.Pointer) (a : Axis) : bool :=
  zoomEnabled a && bool_decide (is_Some (min a)) &&
  (pinched || match coll a with
              | xAxis => zoomX p
              | yAxis => zoomY p
              | otherAxis => false
              end).

(** The range of axis [a] under the marker [box]. *)
Definition range (e : Event) (box : Marker) (a : Axis) : Datum :=
  let pad := if String.eqb (type e) "touchend" then minPixelPadding a else 0%Q in
  let selectionMin :=
    toValue a ((if horiz a then inject_Z (x box) else inject_Z (y box)) + pad)%Q in
  let selectionMax :=
    toValue a ((if horiz a then inject_Z (x box + width box)
                else inject_Z (y box + height box)) - pad)%Q in
  {| d_axis := a;
     d_min := Placement.Qminb selectionMin selectionMax;
     d_max := Placement.Qmaxb selectionMin selectionMax |}.

(** One turn of the axis loop: the lists of the selection data and the
    [runZoom] flag.  Pushing to the list of a collection the data has no
    list for raises. *)
Definition record_axis (e : Event) (box : Marker) (pinched : bool)
    (p : Gesture.Pointer)
    (acc : JS.result (list Datum * list Datum * bool)) (a : Axis)
    : JS.result (list Datum * list Datum * bool) :=
  '(xs, ys, runZoom) ← acc;
  if zooms pinched p a then
    match coll a with
    | xAxis => JS.Ok (xs ++ [range e box a], ys, true)
    | yAxis => JS.Ok (xs, ys ++ [range e box a], true)
    | otherAxis => JS.TypeError
    end
  else JS.Ok (xs, ys, runZoom).

Section Handlers.

(** What the handlers of the chart's [selection] event, and the zoom that
    follows them by default, do to the chart and the pointer. *)
Variable react : SelectionData -> World -> World.

Definition drop (w : World) (e : Event) : JS.result (World * list Call) :=
  let pinched := hasPinched w in
  '(w2, t2) ←
    match selectionMarker (pointer w) with
    | Some box =>
        (* a selection has been made *)
        '(w1, t1) ←
          (if negb (hasDragged2 (pointer w) =? 0)%Z || pinched then
             '(xs, ys, runZoom) ←
               fold_left (record_axis e box pinched (pointer w)) (axes w)
                         (JS.Ok ([], [], false));
             if runZoom : bool then
               let d := {| originalEvent := e; sel_xAxis := xs;
                           sel_yAxis := ys |} in
               JS.Ok (react d w, [FireSelection d pinched])
             else JS.Ok (w, [])
           else JS.Ok (w, []));
        '(w1', t1') ←
          (if bool_decide (is_Some (index w1)) then
             match selectionMarker (pointer w1) with
             | Some _ =>
                 JS.Ok (with_pointer
                          (with_marker None (hasDragged2 (pointer w1))
                                       (pointer w1)) w1,
                        t1 ++ [MarkerDestroy])
             | None => JS.TypeError
             end
           else JS.Ok (w1, t1));
        (* reset scaling preview *)
        JS.Ok (w1', t1' ++ (if pinched then [ScaleGroups] else []))
    | None => JS.Ok (w, [])
    end;
  (* reset all *)
  if bool_decide (is_Some (index w2)) then
    JS.Ok ({| chart := released (hasDragged2 (pointer w2) >? 100)%Z (chart w2);
              index := index w2; axes := axes w2;
              pointer := with_marker (selectionMarker (pointer w2)) 0%Z
                                     (pointer w2);
              hasPinched := false; pinchDown := [] |},
           t2 ++ [CssCursor])
  else JS.Ok (w2, t2).

(** The pointer after a release on a live chart. *)
Definition idle (w : World) : Prop :=
  mouseIsDown (chart w) = None /\
  selectionMarker (pointer w) = None /\
  hasDragged2 (pointer w) = 0%Z /\
  hasPinched w = false /\
  pinchDown w = [].

(** Every range recorded for the selection is ordered and belongs to an
    axis that [zooms]. *)
Definition ranges_ok (pinched : bool) (p : Gesture.Pointer)
    (ds : list Datum) : Prop :=
  Forall (fun d => (d_min d <= d_max d)%Q /\ zooms pinched p (d_axis d) = true)
         ds.

Lemma range_ordered (e : Event) (box : Marker) (a : Axis) :
  (d_min (range e box a) <= d_max (range e box a))%Q.
Proof.
  unfold range. cbn [d_min d_max]. unfold Placement.Qminb, Placement.Qmaxb.
  repeat match goal with
         | |- context [JS.Qltb ?u ?v] =>
             let E := fresh "E" in
             destruct (JS.Qltb u v) eqn:E;
             [apply JS.Qltb_lt in E | apply JS.Qltb_ge in E]
         end; lra.
Qed.

Lemma record_axes_ok (e : Event) (box : Marker) (pinched : bool)
    (p : Gesture.Pointer) (l : list Axis) :
  forall xs ys rz xs' ys' rz',
    ranges_ok pinched p xs -> ranges_ok pinched p ys ->
    (rz = true -> xs ++ ys <> []) ->
    fold_left (record_axis e box pinched p) l (JS.Ok (xs, ys, rz))
      = JS.Ok (xs', ys', rz') ->
    ranges_ok pinched p xs' /\ ranges_ok pinched p ys' /\
    (rz' = true -> xs' ++ ys' <> []).
Proof.
  induction l as [| a l IH]; intros xs ys rz xs' ys' rz' Hx Hy Hrz H.
  - cbn in H. injection H as <- <- <-. auto.
  - cbn [fold_left] in H.
    unfold record_axis at 2 in H. cbn [mbind result_bind JS.bind] in H.
    destruct (zooms pinched p a) eqn:Ez.
    + destruct (coll a) eqn:Ec.
      * apply IH in H; auto.
        -- apply Forall_app. split; [exact Hx |].
           apply Forall_cons. split; [| apply Forall_nil_2].
           split; [apply range_ordered | exact Ez].
        -- intros _. destruct xs; discriminate.
      * apply IH in H; auto.
        -- apply Forall_app. split; [exact Hy |].
           apply Forall_cons. split; [| apply Forall_nil_2].
           split; [apply range_ordered | exact Ez].
        -- intros _. destruct xs; [destruct ys |]; discriminate.
      * exfalso. clear -H. induction l as [| b l IHl]; [discriminate |].
        apply IHl. exact H.
    + apply IH in H; auto.
Qed.

Lemma bind_Ok {A B : Type} (m : JS.result A) (f : A -> JS.result B) (b : B) :
  m ≫= f = JS.Ok b -> exists a, m = JS.Ok a /\ f a = JS.Ok b.
Proof. destruct m as [a |]; [| discriminate]. intros H. exists a. auto. Qed.

(** The marker branch of [drop] ends without a marker when the chart is
    still alive. *)
Lemma marker_destroyed (w1 w1' : World) (t1 t1' : list Call) :
  (if bool_decide (is_Some (index w1)) then
     match selectionMarker (pointer w1) with
     | Some _ =>
         JS.Ok (with_pointer
                  (with_marker None (hasDragged2 (pointer w1)) (pointer w1))
                  w1,
                t1 ++ [MarkerDestroy])
     | None => JS.TypeError
     end
   else JS.Ok (w1, t1)) = JS.Ok (w1', t1') ->
  is_Some (index w1') -> selectionMarker (pointer w1') = None.
Proof.
  intros H Hidx. destruct (bool_decide (is_Some (index w1))) eqn:E.
  - destruct (selectionMarker (pointer w1)); [| discriminate].
    injection H as <- <-. reflexivity.
  - injection H as <- <-. apply bool_decide_eq_false in E. contradiction.
Qed.

(** X4: a release that finds the chart alive, once its selection
    handlers have run, leaves the pointer idle: the mouse is up, the
    marker is gone, no distance and no pinch are recorded. *)
Theorem drop_leaves_pointer_idle
    (w w' : World) (e : Event) (t : list Call) :
  drop w e = JS.Ok (w', t) ->
  is_Some (index w') ->
  idle w'.
Proof.
  intros H Hidx. unfold drop in H.
  apply bind_Ok in H as ([w2 t2] & Hbranch & Hreset).
  assert (Hm : is_Some (index w2) -> selectionMarker (pointer w2) = None).
  { destruct (selectionMarker (pointer w)) as [box |] eqn:Em.
    - apply bind_Ok in Hbranch as ([w1 t1] & _ & H2).
      apply bind_Ok in H2 as ([w1' t1'] & Hd & H3).
      injection H3 as <- <-. intros Hi.
      exact (marker_destroyed _ _ _ _ Hd Hi).
    - injection Hbranch as <- <-. intros _. exact Em. }
  destruct (bool_decide (is_Some (index w2))) eqn:E.
  - apply bool_decide_eq_true in E. injection Hreset as <- <-.
    unfold idle. cbn. rewrite (Hm E). auto.
  - apply bool_decide_eq_false in E. injection Hreset as <- <-.
    contradiction.
Qed.

(** X5: the [selection] event is fired at most once, only for a pointer
    that had a marker and a recorded drag or pinch, and with at least one
    axis range; every range in it belongs to a zoom-enabled axis with a
    defined minimum and has [min <= max], also on a reversed axis. *)
Theorem drop_selection_ranges
    (w w' : World) (e : Event) (t : list Call) :
  drop w e = JS.Ok (w', t) ->
  forall d pinched, FireSelection d pinched ∈ t ->
    (exists rest, t = FireSelection d pinched :: rest /\
                  forall d' b, FireSelection d' b ∉ rest) /\
    is_Some (selectionMarker (pointer w)) /\
    (hasDragged2 (pointer w) <> 0%Z \/ hasPinched w = true) /\
    pinched = hasPinched w /\
    sel_xAxis d ++ sel_yAxis d <> [] /\
    ranges_ok (hasPinched w) (pointer w) (sel_xAxis d ++ sel_yAxis d).
Proof.
  intros H d pinched Hin. unfold drop in H.
  apply bind_Ok in H as ([w2 t2] & Hbranch & Hreset).
  assert (Ht : exists tail, t = t2 ++ tail /\
                 forall d' b, FireSelection d' b ∉ tail).
  { destruct (bool_decide (is_Some (index w2))); injection Hreset as <- <-.
    - exists [CssCursor]. split; [reflexivity |].
      intros d' b Hd. apply list_elem_of_singleton in Hd. discriminate.
    - exists []. split; [rewrite app_nil_r; reflexivity |].
      intros d' b Hd. inversion Hd. }
  destruct Ht as (tail & -> & Htail). clear Hreset.
  destruct (selectionMarker (pointer w)) as [box |] eqn:Em.
  2: { injection Hbranch as <- <-. cbn in Hin. exfalso.
       exact (Htail _ _ Hin). }
  apply bind_Ok in Hbranch as ([w1 t1] & Hsel & H2).
  apply bind_Ok in H2 as ([w1' t1'] & Hd & H3).
  injection H3 as <- <-.
  assert (Ht1' : exists mid, t1' = t1 ++ mid /\
                   forall d' b, FireSelection d' b ∉ mid).
  { destruct (bool_decide (is_Some (index w1))).
    - destruct (selectionMarker (pointer w1)); [| discriminate].
      injection Hd as <- <-. exists [MarkerDestroy].
      split; [reflexivity |].
      intros d' b Hx. apply list_elem_of_singleton in Hx. discriminate.
    - injection Hd as <- <-. exists []. split; [rewrite app_nil_r; reflexivity |].
      intros d' b Hx. inversion Hx. }
  destruct Ht1' as (mid & -> & Hmid). clear Hd.
  assert (Hsc : forall d' b,
             FireSelection d' b ∉ (if hasPinched w then [ScaleGroups] else [])).
  { intros d' b Hx. destruct (hasPinched w).
    - apply list_elem_of_singleton in Hx. discriminate.
    - inversion Hx. }
  assert (Hrest : forall d' b,
             FireSelection d' b ∉
               mid ++ (if hasPinched w then [ScaleGroups] else []) ++ tail).
  { intros d' b Hx. apply elem_of_app in Hx as [Hx | Hx];
      [exact (Hmid _ _ Hx) |].
    apply elem_of_app in Hx as [Hx | Hx];
      [exact (Hsc _ _ Hx) | exact (Htail _ _ Hx)]. }
  destruct (negb (hasDragged2 (pointer w) =? 0)%Z || hasPinched w) eqn:Eg.
  2: { injection Hsel as <- <-. cbn [app] in Hin. exfalso.
       rewrite <- app_assoc in Hin. exact (Hrest _ _ Hin). }
  apply bind_Ok in Hsel as ([[xs ys] rz] & Hfold & Hfire).
  destruct rz.
  2: { injection Hfire as <- <-. cbn [app] in Hin. exfalso.
       rewrite <- app_assoc in Hin. exact (Hrest _ _ Hin). }
  injection Hfire as <- <-.
  apply record_axes_ok in Hfold as (Hx & Hy & Hne);
    [| apply Forall_nil_2 | apply Forall_nil_2 | discriminate].
  rewrite <- !app_assoc in Hin. cbn [app] in Hin.
  apply elem_of_cons in Hin as [Heq | Hin]; [| exfalso; exact (Hrest _ _ Hin)].
  injection Heq as -> ->. cbn [sel_xAxis sel_yAxis].
  split; [| split; [eauto | split; [| split; [reflexivity | split]]]].
  - eexists. split; [rewrite <- !app_assoc; reflexivity | exact Hrest].
  - apply orb_true_iff in Eg as [Eg | Eg]; [left | right; exact Eg].
    apply negb_true_iff in Eg. apply Z.eqb_neq in Eg. exact Eg.
  - apply Hne. reflexivity.
  - apply Forall_app. split; assumption.
Qed.

(** Moves within the threshold neither create a marker nor record more
    than the threshold. *)
Lemma drags_short (c : Gesture.Chart) (es : list Event) :
  forall q,
    selectionMarker q = None -> (hasDragged2 q <= 100)%Z ->
    Forall (fun e => (displacement2 c q e <= 100)%Z) es ->
    selectionMarker (fst (drags c q es)) = None /\
    (hasDragged2 (fst (drags c q es)) <= 100)%Z.
Proof.
  induction es as [| e es IH]; intros q Hm Hd Hall; [auto |].
  apply Forall_cons in Hall as [He Hall].
  cbn [drags].
  assert (Hall' : Forall (fun e' =>
            (displacement2 c (fst (drag c q e)) e' <= 100)%Z) es).
  { eapply Forall_impl; [exact Hall |]. intros e' He'.
    rewrite displacement2_drag. exact He'. }
  assert (Hstep : selectionMarker (fst (drag c q e)) = None /\
                  (hasDragged2 (fst (drag c q e)) <= 100)%Z).
  { unfold drag. rewrite Hm. fold (displacement2 c q e).
    destruct (displacement2 c q e >? 100)%Z eqn:E; [lia |].
    cbn. split; [reflexivity | exact He]. }
  destruct (drag c q e) as [q1 eff1]. cbn [fst] in *.
  destruct Hstep as [Hm1 Hd1].
  specialize (IH q1 Hm1 Hd1 Hall').
  destruct (drags c q1 es) as [q2 eff2]. exact IH.
Qed.

(** X6: a press followed by moves that all stay within ten pixels of
    it, on an idle pointer, is released as a click: nothing is selected,
    no marker is destroyed, and [cancelClick] is left false. *)
Theorem drop_after_short_drag_is_click
    (c : Gesture.Chart) (p : Gesture.Pointer) (down up : Event)
    (moves : list Event) (i : nat) (ax : list Axis) (pd : list (Z * Z)) :
  selectionMarker p = None ->
  hasDragged2 p = 0%Z ->
  Forall (fun e => (displacement2 c (snd (dragStart c p down)) e <= 100)%Z)
         moves ->
  let c1 := fst (dragStart c p down) in
  let p1 := snd (dragStart c p down) in
  exists w',
    drop {| chart := c1; index := Some i; axes := ax;
            pointer := fst (drags c1 p1 moves);
            hasPinched := false; pinchDown := pd |} up
      = JS.Ok (w', [CssCursor]) /\
    cancelClick (chart w') = false /\ idle w'.
Proof.
  intros Hnone Hzero Hall c1 p1.
  assert (Hall1 : Forall (fun e => (displacement2 c1 p1 e <= 100)%Z) moves).
  { eapply Forall_impl; [exact Hall |]. intros e He. exact He. }
  destruct (drags_short c1 moves p1) as [Hm Hd]; auto.
  { cbn. rewrite Hzero. lia. }
  unfold drop. cbn [pointer hasPinched index chart axes].
  rewrite Hm. cbn [mbind result_bind JS.bind].
  rewrite bool_decide_eq_true_2 by eauto.
  eexists. split; [reflexivity |].
  split.
  - cbn. rewrite Z.gtb_ltb. apply Z.ltb_ge. exact Hd.
  - unfold idle. cbn. auto.
Qed.


End Handlers.

(** Handlers that leave the chart and the pointer alone. *)
Definition no_reaction (d : SelectionData) (w : World) : World := w.

(** A handler that destroys the chart (#877). *)
Definition destroys_chart (d : SelectionData) (w : World) : World :=
  {| chart := chart w; index := None; axes := axes w; pointer := pointer w;
     hasPinched := hasPinched w; pinchDown := pinchDown w |}.

(** A reversed x axis: pixel [px] shows the value [400 - px]. *)
Definition reversed_x : Axis :=
  {| coll := xAxis; isXAxis := true; horiz := true; zoomEnabled := true;
     min := Some 0%Q;
     minPixelPadding := 0%Q; toValue := fun px => (400 - px)%Q |}.

(** The zoom drag of [started_inside], moved to (200, 100). *)
Definition zooming : World :=
  {| chart := zoom_chart; index := Some 0%nat; axes := [reversed_x];
     pointer := fst (drag zoom_chart started_inside (move_to 200 100));
     hasPinched := false; pinchDown := [] |}.

Definition mouseup : Event :=
  {| type := "mouseup"; chartX := 200; chartY := 100;
     keyDown := fun _ => false |}.

(** A zoom drag over a reversed axis, released on a live chart. *)
Lemma drop_leaves_pointer_idle_witness :
  idle (match drop no_reaction zooming mouseup with
        | JS.Ok (w', _) => w'
        | JS.TypeError => zooming
        end).
Proof.
  eapply (drop_leaves_pointer_idle no_reaction zooming _ mouseup).
  - vm_compute. reflexivity.
  - vm_compute. eauto.
Defined.

(** The range selected by that drag: pixels 100 to 200 of the reversed
    axis, recorded as 200 to 300. *)
Definition selected : SelectionData :=
  {| originalEvent := mouseup;
     sel_xAxis := [ {| d_axis := reversed_x; d_min := 200; d_max := 300 |} ];
     sel_yAxis := [] |}.

Lemma drop_selection_ranges_witness :
  ranges_ok false (pointer zooming) (sel_xAxis selected ++ sel_yAxis selected).
Proof.
  pose proof (drop_selection_ranges no_reaction zooming _ mouseup _ eq_refl
                selected false) as H.
  apply H. left.
Defined.

Definition mousedown : Event :=
  {| type := "mousedown"; chartX := 100; chartY := 100;
     keyDown := fun _ => false |}.

(** A press at (100, 100), moves of three and then eight pixels, and the
    release. *)
Lemma drop_after_short_drag_is_click_witness :
  exists w',
    drop no_reaction
         {| chart := fst (dragStart zoom_chart started_inside mousedown);
            index := Some 0%nat; axes := [reversed_x];
            pointer :=
              fst (drags (fst (dragStart zoom_chart started_inside mousedown))
                         (snd (dragStart zoom_chart started_inside mousedown))
                         [move_to 103 100; move_to 100 108]);
            hasPinched := false; pinchDown := [] |} mouseup
      = JS.Ok (w', [CssCursor]) /\
    cancelClick (chart w') = false /\ idle w'.
Proof.
  apply (drop_after_short_drag_is_click no_reaction zoom_chart started_inside
           mousedown mouseup [move_to 103 100; move_to 100 108]
           0%nat [reversed_x] []).
  - reflexivity.
  - reflexivity.
  - repeat constructor; vm_compute; discriminate.
Defined.

End Release.


(** ** Routing of document-level events ([Pointer.onContainerMouseMove],
    [Pointer.onContainerMouseDown], [Pointer.onDocumentMouseUp]) *)

Module Routing.

(** What the handlers read from a container event after normalisation:
    its type and button, whether the target lies in a tracker element,
    whether the position is inside the plot area, and whether the event
    object has [preventDefault]. *)
Record Event : Type := {
  type : string;
  button : Z;
  onTracker : bool;         (* [inClass(e.target, 'highcharts-tracker')] *)
  insidePlot : bool;        (* [chart.isInsidePlot(e.chartX - plotLeft, ...)] *)
  canPreventDefault : bool
}.

(** The pointer methods a handler hands the event on to. *)
Inductive Call : Type :=
| Normalize
| SetReturnValueFalse
| ZoomOption
| PreventDefault
| DragStart
| Drag
| RunPointActions
| Drop.

(** A registered chart: its [index], its mouse-down flag ([false] or the
    type of the event that started the gesture), its open-menu flag, and
    the calls its pointer has received, oldest first. *)
Record Chart : Type := {
  index : nat;
  mouseIsDown : option string;
  openMenu : bool;
  received : list Call
}.

(** The process-wide state: [H.hoverChartIndex] and the [charts] array,
    whose slots of destroyed charts are [undefined]. *)
Record Global : Type := {
  hoverChartIndex : option nat;
  charts : gmap nat Chart
}.

Definition receive (calls : list Call) (c : Chart) : Chart :=
  {| index := index c; mouseIsDown := mouseIsDown c; openMenu := openMenu c;
     received := received c ++ calls |}.

Definition set_mouseIsDown (v : option string) (c : Chart) : Chart :=
  {| index := index c; mouseIsDown := v; openMenu := openMenu c;
     received := received c |}.

(** Truthiness of the mouse-down flag. *)
Definition isDown (c : Chart) : bool :=
  match mouseIsDown c with
  | Some s => negb (String.eqb s "")
  | None => false
  end.

(** [charts[H.hoverChartIndex]] *)
Definition hoverChart (g : Global) : option Chart :=
  h ← hoverChartIndex g; charts g !! h.

(** [onContainerMouseMove] of the pointer of the chart in slot [i]. *)
Definition onContainerMouseMove (g : Global) (i : nat) (e : Event)
    : JS.result Global :=
  chart ← JS.deref (charts g !! i);
  let hover :=
    if bool_decide (hoverChartIndex g = None)
       || negb (bool_decide (is_Some (hoverChart g)))
       || negb (default false (isDown <$> hoverChart g))
    then Some (index chart)
    else hoverChartIndex g in
  let calls :=
    [Normalize]
    ++ (if canPreventDefault e then [] else [SetReturnValueFalse])
    ++ (if bool_decide (mouseIsDown chart = Some "mousedown"%string)
        then [Drag] else [])
    ++ (if (onTracker e || insidePlot e) && negb (openMenu chart)
        then [RunPointActions] else []) in
  mret {| hoverChartIndex := hover;
          charts := alter (receive calls) i (charts g) |}.

(** [onContainerMouseDown]: [dragStart] records the event type in
    [chart.mouseIsDown]. *)
Definition onContainerMouseDown (g : Global) (i : nat) (e : Event)
    : JS.result Global :=
  chart ← JS.deref (charts g !! i);
  mret {| hoverChartIndex := hoverChartIndex g;
          charts :=
            if bool_decide (button e ≠ 2%Z) then
              alter (fun c =>
                       set_mouseIsDown (Some (type e))
                         (receive ([Normalize; ZoomOption]
                                   ++ (if canPreventDefault e
                                       then [PreventDefault] else [])
                                   ++ [DragStart]) c))
                    i (charts g)
            else alter (receive [Normalize]) i (charts g) |}.

(** [onDocumentMouseUp]: [drop] goes to the hover chart, and resets its
    mouse-down flag. *)
Definition onDocumentMouseUp (g : Global) : Global :=
  match hoverChartIndex g with
  | Some h =>
      match charts g !! h with
      | Some _ =>
          {| hoverChartIndex := hoverChartIndex g;
             charts := alter (fun c => set_mouseIsDown None (receive [Drop] c))
                             h (charts g) |}
      | None => g
      end
  | None => g
  end.

(** A sequence of container mouse moves, each on the chart of some slot. *)
Fixpoint moves (g : Global) (l : list (nat * Event)) : JS.result Global :=
  match l with
  | [] => mret g
  | (i, e) :: rest => g' ← onContainerMouseMove g i e; moves g' rest
  end.

(** The routing property as stated for any chart in the mouse-down state:
    a container mouse move never reassigns the hover chart index. *)
Definition index_kept_while_any_down (g : Global) (i : nat) (e : Event)
    : Prop :=
  (exists j c, charts g !! j = Some c /\ isDown c = true) ->
  exists g', onContainerMouseMove g i e = JS.Ok g' /\
             hoverChartIndex g' = hoverChartIndex g.

Definition idle (i : nat) : Chart :=
  {| index := i; mouseIsDown := None; openMenu := false; received := [] |}.
(** Two charts on a page, before any pointer event. *)
Definition two_charts : Global :=
  {| hoverChartIndex := None;
     charts := {[ 0%nat := idle 0; 1%nat := idle 1 ]} |}.
Definition press : Event :=
  {| type := "mousedown"; button := 0; onTracker := false;
     insidePlot := true; canPreventDefault := true |}.
Definition move : Event :=
  {| type := "mousemove"; button := 0; onTracker := false;
     insidePlot := true; canPreventDefault := true |}.
(** The button is pressed on the second chart before the pointer ever
    moved over a chart. *)
Definition pressed_on_second : Global :=
  {| hoverChartIndex := None;
     charts := {[ 0%nat := idle 0;
                  1%nat := {| index := 1; mouseIsDown := Some "mousedown"%string;
                              openMenu := false;
                              received := [Normalize; ZoomOption;
                                           PreventDefault; DragStart] |} ]} |}.
(** The pointer moved over the second chart, then the button went down. *)
Definition dragging_second : Global :=
  {| hoverChartIndex := Some 1%nat;
     charts := {[ 0%nat := idle 0;
                  1%nat := {| index := 1; mouseIsDown := Some "mousedown"%string;
                              openMenu := false; received := [] |} ]} |}.

Lemma receive_mouseIsDown (calls : list Call) (c : Chart) :
  mouseIsDown (receive calls c) = mouseIsDown c.
Proof. reflexivity. Qed.

(** While the hover chart is in the mouse-down state, a move on any
    registered chart keeps the index, and changes no mouse-down flag. *)
Lemma move_keeps_index (g : Global) (i h : nat) (c : Chart) (e : Event) :
  hoverChartIndex g = Some h -> charts g !! h = Some c -> isDown c = true ->
  is_Some (charts g !! i) ->
  exists g', onContainerMouseMove g i e = JS.Ok g' /\
    hoverChartIndex g' = Some h /\
    (forall j, mouseIsDown <$> charts g' !! j = mouseIsDown <$> charts g !! j).
Proof.
  intros Hh Hc Hdown [ci Hi]. unfold onContainerMouseMove.
  rewrite Hi. cbn [JS.deref mbind result_bind JS.bind].
  unfold hoverChart. rewrite Hh. cbn [mbind option_bind].
  rewrite Hc. cbn [fmap option_fmap option_map default]. rewrite Hdown.
  rewrite bool_decide_eq_false_2 by discriminate.
  rewrite bool_decide_eq_true_2 by eauto. cbn [negb orb].
  eexists. split; [reflexivity |]. cbn [hoverChartIndex charts].
  split; [reflexivity |].
  intros j. destruct (decide (i = j)) as [<- | Hne].
  - rewrite lookup_alter_eq, Hi. reflexivity.
  - rewrite lookup_alter_ne by exact Hne. reflexivity.
Qed.

(** A move changes the index only when the hover chart, if there is one,
    is not in the mouse-down state; the new index is the chart's own. *)
Lemma move_reassigns_when_idle (g g' : Global) (i : nat) (e : Event) :
  onContainerMouseMove g i e = JS.Ok g' ->
  hoverChartIndex g' <> hoverChartIndex g ->
  default false (isDown <$> hoverChart g) = false /\
  exists ci, charts g !! i = Some ci /\ hoverChartIndex g' = Some (index ci).
Proof.
  unfold onContainerMouseMove. intros H Hne.
  destruct (charts g !! i) as [ci |] eqn:Hi; [| discriminate].
  cbn [JS.deref mbind result_bind JS.bind mret result_ret] in H.
  injection H as <-. cbn [hoverChartIndex] in Hne.
  destruct (bool_decide (hoverChartIndex g = None)
            || negb (bool_decide (is_Some (hoverChart g)))
            || negb (default false (isDown <$> hoverChart g))) eqn:Hcond;
    [| congruence].
  split; [| eauto].
  apply orb_true_iff in Hcond as [Hcond | Hcond];
    [apply orb_true_iff in Hcond as [Hcond | Hcond] |].
  - apply bool_decide_eq_true_1 in Hcond. unfold hoverChart. rewrite Hcond.
    reflexivity.
  - apply negb_true_iff, bool_decide_eq_false_1 in Hcond.
    destruct (hoverChart g); [exfalso; apply Hcond; eauto | reflexivity].
  - apply negb_true_iff in Hcond. exact Hcond.
Qed.

Lemma moves_keep_index (l : list (nat * Event)) :
  forall (g : Global) (h : nat) (c : Chart),
    hoverChartIndex g = Some h -> charts g !! h = Some c -> isDown c = true ->
    Forall (fun ie => is_Some (charts g !! ie.1)) l ->
    exists g', moves g l = JS.Ok g' /\ hoverChartIndex g' = Some h /\
      (forall j, mouseIsDown <$> charts g' !! j = mouseIsDown <$> charts g !! j).
Proof.
  induction l as [| [i e] l IH]; intros g h c Hh Hc Hdown Hall.
  - exists g. split; [reflexivity |]. split; [exact Hh | reflexivity].
  - apply Forall_cons in Hall as [Hi Hl]. cbn [fst] in Hi.
    destruct (move_keeps_index g i h c e Hh Hc Hdown Hi) as (g1 & Hg1 & Hh1 & Hm1).
    cbn [moves]. rewrite Hg1. cbn [mbind result_bind JS.bind].
    assert (Hc1 : exists c1, charts g1 !! h = Some c1 /\ isDown c1 = true).
    { specialize (Hm1 h). rewrite Hc in Hm1.
      destruct (charts g1 !! h) as [c1 |]; [| discriminate].
      exists c1. split; [reflexivity |].
      cbn in Hm1. injection Hm1 as Hm1. unfold isDown in *. rewrite Hm1.
      exact Hdown. }
    destruct Hc1 as (c1 & Hc1 & Hdown1).
    destruct (IH g1 h c1 Hh1 Hc1 Hdown1) as (g' & Hg' & Hh' & Hm').
    { eapply Forall_impl; [exact Hl |]. intros [j e'] [cj Hj]. cbn [fst] in *.
      specialize (Hm1 j). rewrite Hj in Hm1.
      destruct (charts g1 !! j); [eauto | discriminate]. }
    exists g'. split; [exact Hg' |]. split; [exact Hh' |].
    intros j. rewrite Hm'. apply Hm1.
Qed.

(** C10 (as amended): while the chart designated by [H.hoverChartIndex] has
    its mouse-down flag set, container mouse moves on any registered charts
    keep the index and every mouse-down flag, so the document mouse-up that
    follows drops on that chart and clears its flag.  A move assigns the
    handling chart's own index only when the index is undefined, designates
    no registered chart, or designates a chart whose flag is not set. *)
Theorem hover_chart_kept_while_dragging
    (g : Global) (h : nat) (c : Chart) (l : list (nat * Event)) :
  hoverChartIndex g = Some h -> charts g !! h = Some c -> isDown c = true ->
  Forall (fun ie => is_Some (charts g !! ie.1)) l ->
  (exists g', moves g l = JS.Ok g' /\ hoverChartIndex g' = Some h /\
     (forall j, mouseIsDown <$> charts g' !! j = mouseIsDown <$> charts g !! j) /\
     exists c', charts (onDocumentMouseUp g') !! h = Some c' /\
       mouseIsDown c' = None /\ last (received c') = Some Drop) /\
  (forall g0 g1 i e, onContainerMouseMove g0 i e = JS.Ok g1 ->
     hoverChartIndex g1 <> hoverChartIndex g0 ->
     default false (isDown <$> hoverChart g0) = false /\
     exists ci, charts g0 !! i = Some ci /\ hoverChartIndex g1 = Some (index ci)).
Proof.
  intros Hh Hc Hdown Hall. split; [| apply move_reassigns_when_idle].
  destruct (moves_keep_index l g h c Hh Hc Hdown Hall) as (g' & Hg' & Hh' & Hm').
  exists g'. repeat split; try assumption.
  unfold onDocumentMouseUp. rewrite Hh'.
  pose proof (Hm' h) as Hmh. rewrite Hc in Hmh.
  destruct (charts g' !! h) as [c1 |] eqn:Hc1; [| discriminate].
  cbn [charts]. rewrite lookup_alter_eq, Hc1. cbn.
  eexists. split; [reflexivity |]. split; [reflexivity |].
  cbn. apply last_snoc.
Qed.

(** The amended statement on [dragging_second]: the pointer leaves the
    second chart during the drag and moves over the first one. *)
Lemma hover_chart_kept_while_dragging_witness :
  exists g', moves dragging_second [(1%nat, move); (0%nat, move)] = JS.Ok g' /\
    hoverChartIndex g' = Some 1%nat /\
    (forall j, mouseIsDown <$> charts g' !! j =
               mouseIsDown <$> charts dragging_second !! j) /\
    exists c', charts (onDocumentMouseUp g') !! 1%nat = Some c' /\
      mouseIsDown c' = None /\ last (received c') = Some Drop.
Proof.
  refine (proj1 (hover_chart_kept_while_dragging dragging_second 1%nat _
                   [(1%nat, move); (0%nat, move)] eq_refl eq_refl eq_refl _)).
  repeat constructor; cbn; eauto.
Defined.

(** The button can go down on a chart that is not the hover chart: here it
    is the first event of the page. *)
Lemma press_before_any_move :
  onContainerMouseDown two_charts 1%nat press = JS.Ok pressed_on_second.
Proof. reflexivity. Qed.

(** In that state the second chart is in the mouse-down state, yet a move
    over the first chart takes the hover chart index, and the mouse-up that
    follows drops on the first chart. *)
Lemma move_takes_index_from_pressed_chart :
  ~ index_kept_while_any_down pressed_on_second 0%nat move.
Proof.
  intros H. destruct H as (g' & Hg & Hi).
  - exists 1%nat. eexists. split; reflexivity.
  - vm_compute in Hg. injection Hg as <-. discriminate Hi.
Qed.

End Routing.

(** ** The tooltip's hide timer ([Tooltip.hide], [Tooltip.refresh]) *)

Module HideTimer.

Local Open Scope Z_scope.

(** The callback [hide] schedules: it fades the label out (or hides it at
    once when the delay is zero) and sets [isHidden]. *)
Record Task : Type := { delay : Z }.

(** Calls on the tooltip label, oldest first. *)
Inductive LabelCall : Type :=
| FadeOut
| HideLabel
| Show
| Render.       (* the text, colour and position updates of [refresh] *)

(** The tooltip's fields involved, and the host's timer table: [pending]
    maps the identifier of every timer that was set and has neither fired
    nor been cleared to its callback; identifiers are handed out in
    increasing order. *)
Record World : Type := {
  enabled : bool;                 (* [options.enabled] *)
  hideDelay : option Z;           (* [options.hideDelay] *)
  isHidden : bool;
  hideTimer : option nat;
  label : list LabelCall;
  pending : gmap nat Task;
  next : nat
}.

(** [Tooltip.init]: the tooltip starts hidden, no timer was ever set. *)
Definition init (en : bool) (hd : option Z) : World :=
  {| enabled := en; hideDelay := hd; isHidden := true; hideTimer := None;
     label := []; pending := ∅; next := 0 |}.

(** Modelled from the spec: [H.clearTimeout] is defined in Utilities.js,
    which is not among the sources; it cancels the timer [id] when [id] is
    defined ("a subsequent refresh or reset cancels any pending hide
    timer"). *)
Definition clearTimeout (id : option nat) (w : World) : World :=
  match id with
  | Some i =>
      {| enabled := enabled w; hideDelay := hideDelay w; isHidden := isHidden w;
         hideTimer := hideTimer w; label := label w;
         pending := delete i (pending w); next := next w |}
  | None => w
  end.

(** The body of the scheduled callback. *)
Definition run_task (t : Task) (w : World) : World :=
  {| enabled := enabled w; hideDelay := hideDelay w; isHidden := true;
     hideTimer := hideTimer w;
     label := label w ++ [if delay t =? 0 then HideLabel else FadeOut];
     pending := pending w; next := next w |}.

Section Deferral.

(** Which delays [syncTimeout] defers instead of running the callback at
    once. *)
Variable defers : Z -> bool.

(** Modelled from the spec: [syncTimeout] is defined in Utilities.js, which
    is not among the sources.  It either defers the callback on a new
    timer, whose identifier it returns, or runs it at once and sets no
    timer ([hide]'s documentation: "a value of 0 disables the fade out
    animation").  Which delays are deferred is left open: [defers]. *)
Definition syncTimeout (t : Task) (w : World) : World * option nat :=
  if defers (delay t) then
    ({| enabled := enabled w; hideDelay := hideDelay w; isHidden := isHidden w;
        hideTimer := hideTimer w; label := label w;
        pending := <[next w := t]> (pending w); next := S (next w) |},
     Some (next w))
  else (run_task t w, None).

Definition set_hideTimer (id : option nat) (w : World) : World :=
  {| enabled := enabled w; hideDelay := hideDelay w; isHidden := isHidden w;
     hideTimer := id; label := label w;
     pending := pending w; next := next w |}.

(** [pick(delay, this.options.hideDelay, 500)] *)
Definition effective_delay (w : World) (d : option Z) : Z :=
  default 500 (JS.pick [d; hideDelay w]).

Definition hide (w : World) (d : option Z) : World :=
  let w1 := clearTimeout (hideTimer w) w in
  let d' := effective_delay w d in
  if negb (isHidden w1) then
    let '(w2, id) := syncTimeout {| delay := d' |} w1 in
    set_hideTimer id w2
  else w1.

(** [refresh]: the guard on [options.enabled], the cancellation of the hide
    timer, then either [hide()] when the formatter returned [false], or the
    label update that ends with [isHidden = false].  [textIsFalse] is the
    outcome of the formatter call. *)
Definition refresh (w : World) (textIsFalse : bool) : World :=
  if negb (enabled w) then w
  else
    let w1 := clearTimeout (hideTimer w) w in
    if textIsFalse then hide w1 None
    else
      {| enabled := enabled w1; hideDelay := hideDelay w1; isHidden := false;
         hideTimer := hideTimer w1;
         label := label w1 ++ (if isHidden w1 then [Show] else []) ++ [Render];
         pending := pending w1; next := next w1 |}.

(** The end of [refresh], once the timer is cleared: [hide()] when the
    formatter returned [false], else the label update. *)
Definition refresh_end (w1 : World) (textIsFalse : bool) : World :=
  if textIsFalse then hide w1 None
  else
    {| enabled := enabled w1; hideDelay := hideDelay w1; isHidden := false;
       hideTimer := hideTimer w1;
       label := label w1 ++ (if isHidden w1 then [Show] else []) ++ [Render];
       pending := pending w1; next := next w1 |}.

(** The host fires timer [id], if it is pending. *)
Definition fire (w : World) (id : nat) : World :=
  match pending w !! id with
  | Some t =>
      run_task t
        {| enabled := enabled w; hideDelay := hideDelay w; isHidden := isHidden w;
           hideTimer := hideTimer w; label := label w;
           pending := delete id (pending w); next := next w |}
  | None => w
  end.

(** [Tooltip.update]: [destroy] clears the timer, [init] starts over with
    the new options. *)
Definition update (w : World) (en : bool) (hd : option Z) : World :=
  let w1 := clearTimeout (hideTimer w) w in
  {| enabled := en; hideDelay := hd; isHidden := true;
     hideTimer := hideTimer w1; label := label w1;
     pending := pending w1; next := next w1 |}.

(** What can happen to a tooltip. *)
Inductive Op : Type :=
| Hide (d : option Z)
| Refresh (textIsFalse : bool)
| Fire (id : nat)
| Update (en : bool) (hd : option Z).

Definition step (w : World) (op : Op) : World :=
  match op with
  | Hide d => hide w d
  | Refresh b => refresh w b
  | Fire id => fire w id
  | Update en hd => update w en hd
  end.

Definition steps (w : World) (ops : list Op) : World := fold_left step ops w.

(** The states a tooltip reaches from its construction. *)
Inductive reachable : World -> Prop :=
| reach_init en hd : reachable (init en hd)
| reach_step w op : reachable w -> reachable (step w op).

(** The only timer that can be pending is the one recorded in [hideTimer];
    identifiers not yet handed out are not pending; a hidden tooltip has no
    pending timer; a disabled tooltip is hidden. *)
Record invariant (w : World) : Prop := {
  inv_timer : forall id, is_Some (pending w !! id) -> hideTimer w = Some id;
  inv_next : forall id, is_Some (pending w !! id) -> (id < next w)%nat;
  inv_hidden : isHidden w = true -> pending w = ∅;
  inv_enabled : enabled w = false -> isHidden w = true
}.

(** A timer that is no longer pending although its identifier was handed
    out. *)
Definition stale (id : nat) (w : World) : Prop :=
  (id < next w)%nat /\ pending w !! id = None.

Lemma stale_clearTimeout (id : nat) (o : option nat) (w : World) :
  stale id w -> stale id (clearTimeout o w).
Proof.
  intros [Hlt Hp]. destruct o as [i |]; [| split; assumption].
  split; [exact Hlt |]. cbn. destruct (decide (i = id)) as [-> | Hne].
  - apply lookup_delete_eq.
  - rewrite lookup_delete_ne by exact Hne. exact Hp.
Qed.

Lemma stale_syncTimeout (id : nat) (t : Task) (w : World) :
  stale id w -> stale id (syncTimeout t w).1.
Proof.
  intros [Hlt Hp]. unfold syncTimeout. destruct (defers (delay t)); cbn.
  - split; cbn; [lia |]. rewrite lookup_insert_ne by lia. exact Hp.
  - split; assumption.
Qed.

Lemma stale_hide (id : nat) (d : option Z) (w : World) :
  stale id w -> stale id (hide w d).
Proof.
  intros H. unfold hide.
  pose proof (stale_clearTimeout id (hideTimer w) w H) as H1.
  destruct (negb (isHidden (clearTimeout (hideTimer w) w))); [| exact H1].
  pose proof (stale_syncTimeout id {| delay := effective_delay w d |} _ H1) as H2.
  destruct (syncTimeout _ _) as [w2 o]. exact H2.
Qed.

Lemma stale_refresh (id : nat) (b : bool) (w : World) :
  stale id w -> stale id (refresh w b).
Proof.
  intros H. unfold refresh. destruct (negb (enabled w)); [exact H |].
  pose proof (stale_clearTimeout id (hideTimer w) w H) as H1.
  destruct b; [apply stale_hide; exact H1 | exact H1].
Qed.

Lemma stale_fire (id i : nat) (w : World) : stale id w -> stale id (fire w i).
Proof.
  intros [Hlt Hp]. unfold fire. destruct (pending w !! i); [| split; assumption].
  split; [exact Hlt |]. cbn. destruct (decide (i = id)) as [-> | Hne].
  - apply lookup_delete_eq.
  - rewrite lookup_delete_ne by exact Hne. exact Hp.
Qed.

Lemma stale_step (id : nat) (op : Op) (w : World) :
  stale id w -> stale id (step w op).
Proof.
  intros H. destruct op as [d | b | i | en hd]; cbn [step].
  - apply stale_hide; exact H.
  - apply stale_refresh; exact H.
  - apply stale_fire; exact H.
  - exact (stale_clearTimeout id (hideTimer w) w H).
Qed.

Lemma stale_steps (id : nat) (ops : list Op) :
  forall w, stale id w -> stale id (steps w ops).
Proof.
  induction ops as [| op ops IH]; intros w H; [exact H |].
  apply IH, stale_step, H.
Qed.

Lemma stale_fire_noop (id : nat) (w : World) : stale id w -> fire w id = w.
Proof. intros [_ Hp]. unfold fire. rewrite Hp. reflexivity. Qed.

(** Clearing the recorded timer leaves nothing pending. *)
Lemma clear_recorded_timer (w : World) :
  invariant w -> pending (clearTimeout (hideTimer w) w) = ∅.
Proof.
  intros Hinv. apply map_eq. intros id. rewrite lookup_empty.
  destruct (hideTimer w) as [i |] eqn:Hi; cbn.
  - destruct (decide (i = id)) as [-> | Hne]; [apply lookup_delete_eq |].
    rewrite lookup_delete_ne by exact Hne.
    destruct (pending w !! id) eqn:Hp; [| reflexivity].
    pose proof (inv_timer w Hinv id (mk_is_Some _ _ Hp)). congruence.
  - destruct (pending w !! id) eqn:Hp; [| reflexivity].
    pose proof (inv_timer w Hinv id (mk_is_Some _ _ Hp)). congruence.
Qed.

Lemma invariant_init (en : bool) (hd : option Z) : invariant (init en hd).
Proof.
  split; cbn; try reflexivity;
    intros id [t Ht]; rewrite lookup_empty in Ht; discriminate.
Qed.

(** From a state with nothing pending, [hide] keeps the invariant. *)
Lemma invariant_hide_cleared (w : World) (d : Z) :
  pending w = ∅ -> (enabled w = false -> isHidden w = true) ->
  invariant (if negb (isHidden w)
             then let '(w2, id) := syncTimeout {| delay := d |} w in
                  set_hideTimer id w2
             else w).
Proof.
  intros Hp Hen. destruct (isHidden w) eqn:Hh; cbn [negb].
  - split.
    + intros id [t Ht]. rewrite Hp, lookup_empty in Ht. discriminate.
    + intros id [t Ht]. rewrite Hp, lookup_empty in Ht. discriminate.
    + intros _. exact Hp.
    + intros _. exact Hh.
  - unfold syncTimeout. cbn [delay]. destruct (defers d) eqn:Hd; cbn.
    + split; cbn.
      * intros id [t Ht]. rewrite Hp in Ht.
        destruct (decide (next w = id)) as [<- | Hne]; [reflexivity |].
        rewrite lookup_insert_ne, lookup_empty in Ht by exact Hne. discriminate.
      * intros id [t Ht]. rewrite Hp in Ht.
        destruct (decide (next w = id)) as [<- | Hne]; [lia |].
        rewrite lookup_insert_ne, lookup_empty in Ht by exact Hne. discriminate.
      * congruence.
      * intros Hf. specialize (Hen Hf). congruence.
    + split; cbn.
      * intros id [t Ht]. rewrite Hp, lookup_empty in Ht. discriminate.
      * intros id [t Ht]. rewrite Hp, lookup_empty in Ht. discriminate.
      * intros _. exact Hp.
      * reflexivity.
Qed.

Lemma invariant_hide (w : World) (d : option Z) :
  invariant w -> invariant (hide w d).
Proof.
  intros Hinv. unfold hide.
  apply (invariant_hide_cleared (clearTimeout (hideTimer w) w)).
  - apply clear_recorded_timer, Hinv.
  - destruct (hideTimer w); apply (inv_enabled w Hinv).
Qed.

Lemma invariant_refresh (w : World) (b : bool) :
  invariant w -> invariant (refresh w b).
Proof.
  intros Hinv. unfold refresh. destruct (enabled w) eqn:Hen; cbn [negb];
    [| exact Hinv].
  pose proof (clear_recorded_timer w Hinv) as Hp.
  assert (Hen1 : enabled (clearTimeout (hideTimer w) w) = true)
    by (destruct (hideTimer w); exact Hen).
  destruct b.
  - unfold hide.
    apply (invariant_hide_cleared
             (clearTimeout (hideTimer (clearTimeout (hideTimer w) w))
                (clearTimeout (hideTimer w) w))).
    + destruct (hideTimer (clearTimeout (hideTimer w) w)) as [i |]; [| exact Hp].
      cbn. rewrite Hp. apply delete_empty.
    + intros Hf. destruct (hideTimer (clearTimeout (hideTimer w) w)); cbn in Hf;
        congruence.
  - split; cbn; try discriminate;
      try (intros id [t Ht]; rewrite Hp, lookup_empty in Ht; discriminate).
    congruence.
Qed.

Lemma invariant_fire (w : World) (id : nat) :
  invariant w -> invariant (fire w id).
Proof.
  intros Hinv. unfold fire. destruct (pending w !! id) as [t |] eqn:Ht;
    [| exact Hinv].
  assert (Hp : delete id (pending w) = ∅).
  { apply map_eq. intros j. rewrite lookup_empty.
    destruct (decide (id = j)) as [<- | Hne]; [apply lookup_delete_eq |].
    rewrite lookup_delete_ne by exact Hne.
    destruct (pending w !! j) eqn:Hj; [| reflexivity].
    pose proof (inv_timer w Hinv j (mk_is_Some _ _ Hj)) as H1.
    pose proof (inv_timer w Hinv id (mk_is_Some _ _ Ht)) as H2. congruence. }
  split; cbn; rewrite ?Hp; try reflexivity;
    intros j [t' Ht']; rewrite lookup_empty in Ht'; discriminate.
Qed.

Lemma invariant_update (w : World) (en : bool) (hd : option Z) :
  invariant w -> invariant (update w en hd).
Proof.
  intros Hinv. pose proof (clear_recorded_timer w Hinv) as Hp.
  split; unfold update; cbn; rewrite ?Hp; try reflexivity;
    intros j [t' Ht']; rewrite lookup_empty in Ht'; discriminate.
Qed.

Lemma reachable_invariant (w : World) : reachable w -> invariant w.
Proof.
  induction 1 as [en hd | w op _ IH]; [apply invariant_init |].
  destruct op; cbn [step].
  - apply invariant_hide, IH.
  - apply invariant_refresh, IH.
  - apply invariant_fire, IH.
  - apply invariant_update, IH.
Qed.

(** Once the recorded timer is cleared, the rest of [hide] cannot bring a
    stale timer back. *)
Lemma stale_hide_from_cleared (id : nat) (d : option Z) (w : World) :
  stale id (clearTimeout (hideTimer w) w) -> stale id (hide w d).
Proof.
  intros H1. unfold hide.
  destruct (negb (isHidden (clearTimeout (hideTimer w) w))); [| exact H1].
  pose proof (stale_syncTimeout id {| delay := effective_delay w d |} _ H1) as H2.
  destruct (syncTimeout _ _) as [w2 o]. exact H2.
Qed.

Lemma pending_cleared_stale (id : nat) (w : World) :
  invariant w -> is_Some (pending w !! id) ->
  stale id (clearTimeout (hideTimer w) w).
Proof.
  intros Hinv Hp. rewrite (inv_timer w Hinv id Hp). split; cbn.
  - apply (inv_next w Hinv id Hp).
  - apply lookup_delete_eq.
Qed.

Lemma hide_pending (w : World) (d : option Z) (id : nat) (t : Task) :
  invariant w -> pending (hide w d) !! id = Some t ->
  hideTimer (hide w d) = Some id /\ delay t = effective_delay w d.
Proof.
  intros Hinv. pose proof (clear_recorded_timer w Hinv) as Hp.
  unfold hide.
  destruct (negb (isHidden (clearTimeout (hideTimer w) w)));
    [| rewrite Hp, lookup_empty; discriminate].
  unfold syncTimeout. cbn [delay].
  destruct (defers (effective_delay w d)); cbn.
  - rewrite Hp. intros Ht.
    destruct (decide (next (clearTimeout (hideTimer w) w) = id)) as [<- | Hne].
    + rewrite lookup_insert_eq in Ht. injection Ht as <-. split; reflexivity.
    + rewrite lookup_insert_ne, lookup_empty in Ht by exact Hne. discriminate.
  - rewrite Hp, lookup_empty. discriminate.
Qed.

(** What a call of [hide] leaves behind: nothing on a hidden tooltip; on
    a shown one, the one timer it schedules, which hides the tooltip when
    it fires, or, when the delay is not deferred, a tooltip hidden at
    once. *)
Lemma hide_outcome (w : World) (d : option Z) :
  invariant w ->
  (isHidden w = true ->
   pending (hide w d) = ∅ /\ isHidden (hide w d) = true) /\
  (isHidden w = false -> defers (effective_delay w d) = true ->
   hideTimer (hide w d) = Some (next w) /\
   pending (hide w d) = {[ next w := {| delay := effective_delay w d |} ]} /\
   isHidden (hide w d) = false /\
   isHidden (fire (hide w d) (next w)) = true /\
   pending (fire (hide w d) (next w)) = ∅) /\
  (isHidden w = false -> defers (effective_delay w d) = false ->
   isHidden (hide w d) = true /\ pending (hide w d) = ∅).
Proof.
  intros Hinv. pose proof (clear_recorded_timer w Hinv) as Hp.
  assert (Hh : isHidden (clearTimeout (hideTimer w) w) = isHidden w)
    by (destruct (hideTimer w); reflexivity).
  assert (Hn : next (clearTimeout (hideTimer w) w) = next w)
    by (destruct (hideTimer w); reflexivity).
  unfold hide. rewrite Hh. split; [| split].
  - intros Hw. rewrite Hw. cbn [negb]. rewrite Hp, Hh. auto.
  - intros Hw Hd. rewrite Hw. cbn [negb]. unfold syncTimeout. cbn [delay].
    rewrite Hd.
    cbn [set_hideTimer hideTimer pending isHidden next]. rewrite Hp, Hn, Hh.
    split; [reflexivity |]. split; [reflexivity |]. split; [exact Hw |].
    split.
    + unfold fire. cbn [pending set_hideTimer]. rewrite lookup_insert_eq.
      reflexivity.
    + unfold fire. cbn [pending set_hideTimer]. rewrite lookup_insert_eq.
      cbn [run_task pending]. rewrite delete_insert_eq. apply delete_empty.
  - intros Hw Hd. rewrite Hw. cbn [negb]. unfold syncTimeout. cbn [delay].
    rewrite Hd.
    cbn [set_hideTimer run_task hideTimer pending isHidden next].
    rewrite Hp. auto.
Qed.

(** C7: in every state a tooltip reaches, at most one hide timer is
    pending.  A call of [hide] leaves the previously scheduled timer
    cancelled, and a timer it schedules is the recorded one and has the
    delay given, else the [hideDelay] option, else 500 ms.  On a shown
    tooltip [hide] does schedule: with a delay that is deferred, exactly
    one timer is pending afterwards, the tooltip is still shown, and it is
    hidden once that timer fires; with a delay that is not deferred it is
    hidden at once; on a hidden tooltip nothing is scheduled.  A call of
    [refresh] cancels the pending hide timer, which is then never pending
    again, whatever happens next: it does not fire afterwards. *)
Theorem hide_timer_last_write_wins (w : World) :
  reachable w ->
  (forall i j, is_Some (pending w !! i) -> is_Some (pending w !! j) -> i = j) /\
  (forall d id, is_Some (pending w !! id) -> stale id (hide w d)) /\
  (forall d id t, pending (hide w d) !! id = Some t ->
     hideTimer (hide w d) = Some id /\
     delay t = match d with
               | Some x => x
               | None => default 500 (hideDelay w)
               end) /\
  (forall d, isHidden w = false -> defers (effective_delay w d) = true ->
     hideTimer (hide w d) = Some (next w) /\
     pending (hide w d) = {[ next w := {| delay := effective_delay w d |} ]} /\
     isHidden (hide w d) = false /\
     isHidden (fire (hide w d) (next w)) = true /\
     pending (fire (hide w d) (next w)) = ∅) /\
  (forall d, isHidden w = false -> defers (effective_delay w d) = false ->
     isHidden (hide w d) = true /\ pending (hide w d) = ∅) /\
  (forall d, isHidden w = true ->
     pending (hide w d) = ∅ /\ isHidden (hide w d) = true) /\
  (forall b id ops, is_Some (pending w !! id) ->
     stale id (steps (refresh w b) ops) /\
     fire (steps (refresh w b) ops) id = steps (refresh w b) ops).
Proof.
  intros Hreach. pose proof (reachable_invariant w Hreach) as Hinv.
  split; [| split; [| split; [| split; [| split; [| split]]]]];
    [| | | intros d; apply (hide_outcome w d Hinv)
         | intros d; apply (hide_outcome w d Hinv)
         | intros d; apply (hide_outcome w d Hinv) |].
  - intros i j Hi Hj.
    pose proof (inv_timer w Hinv i Hi). pose proof (inv_timer w Hinv j Hj).
    congruence.
  - intros d id Hp. apply stale_hide_from_cleared, pending_cleared_stale; assumption.
  - intros d id t Ht. destruct (hide_pending w d id t Hinv Ht) as [H1 H2].
    split; [exact H1 |]. rewrite H2. unfold effective_delay.
    destruct d as [x |]; [reflexivity |]. cbn. destruct (hideDelay w); reflexivity.
  - intros b id ops Hp.
    assert (Hst : stale id (refresh w b)).
    { unfold refresh. destruct (enabled w) eqn:Hen; cbn [negb].
      - pose proof (pending_cleared_stale id w Hinv Hp) as H1.
        destruct b; [apply stale_hide; exact H1 | exact H1].
      - pose proof (inv_hidden w Hinv (inv_enabled w Hinv Hen)) as He.
        destruct Hp as [t Ht]. rewrite He, lookup_empty in Ht. discriminate. }
    pose proof (stale_steps id ops _ Hst) as Hst'.
    split; [exact Hst' | apply stale_fire_noop, Hst'].
Qed.

End Deferral.

(** The host defers callbacks with a positive delay. *)
Definition positive_delay (d : Z) : bool := 0 <? d.

(** The tooltip is shown, then asked to hide with the default delay. *)
Definition shown_then_hidden : World :=
  step positive_delay (step positive_delay (init true None) (Refresh false))
       (Hide None).

(** The statement at [shown_then_hidden], where timer 0 is pending with
    the default delay of 500 ms. *)
Lemma hide_timer_last_write_wins_witness :
  let hide := hide positive_delay in
  let refresh := refresh positive_delay in
  let steps := steps positive_delay in
  pending shown_then_hidden !! 0%nat = Some {| delay := 500 |} /\
  (forall i j, is_Some (pending shown_then_hidden !! i) ->
     is_Some (pending shown_then_hidden !! j) -> i = j) /\
  (forall d id, is_Some (pending shown_then_hidden !! id) ->
     stale id (hide shown_then_hidden d)) /\
  (forall d id t, pending (hide shown_then_hidden d) !! id = Some t ->
     hideTimer (hide shown_then_hidden d) = Some id /\
     delay t = match d with
               | Some x => x
               | None => default 500 (hideDelay shown_then_hidden)
               end) /\
  (forall d, isHidden shown_then_hidden = false ->
     positive_delay (effective_delay shown_then_hidden d) = true ->
     hideTimer (hide shown_then_hidden d) = Some (next shown_then_hidden) /\
     pending (hide shown_then_hidden d)
       = {[ next shown_then_hidden :=
              {| delay := effective_delay shown_then_hidden d |} ]} /\
     isHidden (hide shown_then_hidden d) = false /\
     isHidden (fire (hide shown_then_hidden d) (next shown_then_hidden))
       = true /\
     pending (fire (hide shown_then_hidden d) (next shown_then_hidden)) = ∅) /\
  (forall d, isHidden shown_then_hidden = false ->
     positive_delay (effective_delay shown_then_hidden d) = false ->
     isHidden (hide shown_then_hidden d) = true /\
     pending (hide shown_then_hidden d) = ∅) /\
  (forall d, isHidden shown_then_hidden = true ->
     pending (hide shown_then_hidden d) = ∅ /\
     isHidden (hide shown_then_hidden d) = true) /\
  (forall b id ops, is_Some (pending shown_then_hidden !! id) ->
     stale id (steps (refresh shown_then_hidden b) ops) /\
     fire (steps (refresh shown_then_hidden b) ops) id =
     steps (refresh shown_then_hidden b) ops).
Proof.
  split; [reflexivity |].
  apply (hide_timer_last_write_wins positive_delay shown_then_hidden).
  unfold shown_then_hidden. do 2 apply reach_step. apply reach_init.
Defined.

(** The guard of [refresh] comes before the cancellation: on a state that
    no tooltip reaches, disabled yet shown with a timer pending, [refresh]
    leaves the timer pending. *)
Lemma refresh_disabled_keeps_timer :
  let w := {| enabled := false; hideDelay := None; isHidden := false;
              hideTimer := Some 0%nat; label := [Show; Render];
              pending := {[ 0%nat := {| delay := 500 |} ]}; next := 1 |} in
  refresh positive_delay w false = w /\ ~ reachable positive_delay w.
Proof.
  split; [reflexivity |]. intros H.
  pose proof (inv_enabled _ (reachable_invariant _ _ H) eq_refl) as Hh.
  discriminate Hh.
Qed.

End HideTimer.

(** ** Hover reconciliation ([Pointer.getHoverData], [Pointer.getActiveSeries],
    [Pointer.runPointActions], [Pointer.reset]) *)

Module Hover.

Local Open Scope Z_scope.

(** Points, series and axes are objects referred to by identifier; every
    identifier denotes an object, and a destroyed point is one whose
    properties, [series] among them, are [null]. *)
Record PointObj : Type := {
  p_series : option nat;
  p_x : Z;
  p_isNull : bool;
  p_plotX : option Z;
  p_tooltipPos : bool;                 (* [tooltipPos] is set (pies) *)
  p_state : option string
}.

Inductive Coll : Type := xAxis | yAxis.

Record SeriesObj : Type := {
  kd : Nearest.Series;                 (* the series as the resolver sees it *)
  s_visible : bool;
  s_directTouch : bool;
  s_stickyTracking : bool;
  s_enableMouseTracking : option bool; (* [options.enableMouseTracking] *)
  s_inactiveOtherPoints : bool;        (* [options.inactiveOtherPoints] *)
  s_followPointer : bool;              (* [tooltipOptions.followPointer] *)
  s_isCartesian : bool;
  s_xAxis : option nat;
  s_yAxis : option nat;
  s_points : list nat;
  s_getPoint : nat -> nat;             (* the boost module's [getPoint] *)
  s_linkedParent : option nat;
  s_linkedSeries : option (list nat);
  s_navigatorSeries : option nat
}.

(** [axis.crosshair] is [false] or an options object with an optional
    [snap]. *)
Record AxisObj : Type := {
  a_crosshair : option (option bool);
  a_coll : Coll
}.

(** The tooltip object: its timer state (with [options.enabled] and
    [isHidden]), [shared], [followPointer] (unset until the first refresh),
    and whether the formatter currently returns [false]. *)
Record TooltipObj : Type := {
  t_timer : HideTimer.World;
  t_shared : bool;
  t_followPointer : bool;
  t_textIsFalse : bool
}.

(** The chart, its pointer and the objects they refer to. *)
Record World : Type := {
  hoverPoint : option nat;
  hoverSeries : option nat;
  hoverPoints : option (list nat);
  chartSeries : list nat;
  chartAxes : list nat;
  isBoosting : bool;
  hasTooltip : bool;                   (* [chart.tooltip] is set *)
  tooltip : TooltipObj;
  unDocMouseMove : bool;               (* the document listener is bound *)
  isDirectTouch : bool;
  hoverX : option Z;
  point : nat -> PointObj;
  series : nat -> SeriesObj;
  axis : nat -> AxisObj
}.

Record Event : Type := {
  type : string;
  at_ : Nearest.Event
}.

(** Calls to collaborators, in program order. *)
Inductive Call : Type :=
| PointSetState (p : nat) (state : option string) (move : bool)
| PointOnMouseOut (p : nat)
| FirePointEvent (p : nat) (name : string)
| SeriesOnMouseOver (s : nat)
| SeriesOnMouseOut (s : nat)
| SeriesSetInactive (s : nat)          (* [setState('inactive', true)] *)
| TooltipRefresh (points : list nat)   (* the [refresh] event of the tooltip *)
| TooltipHide (delay : option Z)
| TooltipFollow                        (* [updatePosition] at the pointer *)
| AddDocMouseMove
| RemoveDocMouseMove
| DrawCrosshair (a : nat) (p : option nat)
| HideCrosshair (a : nat).

Record St : Type := {
  world : World;
  trace : list Call
}.

(** Whether the function ran to its end or left through [return]. *)
Inductive Flow : Type := Fallthrough | Returned.

Definition set_hover (hp : option nat) (hps : option (list nat))
    (w : World) : World :=
  {| hoverPoint := hp; hoverSeries := hoverSeries w; hoverPoints := hps;
     chartSeries := chartSeries w; chartAxes := chartAxes w;
     isBoosting := isBoosting w; hasTooltip := hasTooltip w;
     tooltip := tooltip w; unDocMouseMove := unDocMouseMove w;
     isDirectTouch := isDirectTouch w; hoverX := hoverX w;
     point := point w; series := series w; axis := axis w |}.

Definition set_hoverX (v : option Z) (w : World) : World :=
  {| hoverPoint := hoverPoint w; hoverSeries := hoverSeries w;
     hoverPoints := hoverPoints w;
     chartSeries := chartSeries w; chartAxes := chartAxes w;
     isBoosting := isBoosting w; hasTooltip := hasTooltip w;
     tooltip := tooltip w; unDocMouseMove := unDocMouseMove w;
     isDirectTouch := isDirectTouch w; hoverX := v;
     point := point w; series := series w; axis := axis w |}.

Definition set_unDocMouseMove (b : bool) (w : World) : World :=
  {| hoverPoint := hoverPoint w; hoverSeries := hoverSeries w;
     hoverPoints := hoverPoints w;
     chartSeries := chartSeries w; chartAxes := chartAxes w;
     isBoosting := isBoosting w; hasTooltip := hasTooltip w;
     tooltip := tooltip w; unDocMouseMove := b;
     isDirectTouch := isDirectTouch w; hoverX := hoverX w;
     point := point w; series := series w; axis := axis w |}.

Definition set_tooltip (t : TooltipObj) (w : World) : World :=
  {| hoverPoint := hoverPoint w; hoverSeries := hoverSeries w;
     hoverPoints := hoverPoints w;
     chartSeries := chartSeries w; chartAxes := chartAxes w;
     isBoosting := isBoosting w; hasTooltip := hasTooltip w;
     tooltip := t;
     unDocMouseMove := unDocMouseMove w;
     isDirectTouch := isDirectTouch w; hoverX := hoverX w;
     point := point w; series := series w; axis := axis w |}.

Definition set_timer (t : HideTimer.World) (w : World) : World :=
  set_tooltip {| t_timer := t; t_shared := t_shared (tooltip w);
                 t_followPointer := t_followPointer (tooltip w);
                 t_textIsFalse := t_textIsFalse (tooltip w) |} w.

Definition set_followPointer (b : bool) (w : World) : World :=
  set_tooltip {| t_timer := t_timer (tooltip w);
                 t_shared := t_shared (tooltip w);
                 t_followPointer := b;
                 t_textIsFalse := t_textIsFalse (tooltip w) |} w.

Definition set_points (f : nat -> PointObj) (w : World) : World :=
  {| hoverPoint := hoverPoint w; hoverSeries := hoverSeries w;
     hoverPoints := hoverPoints w;
     chartSeries := chartSeries w; chartAxes := chartAxes w;
     isBoosting := isBoosting w; hasTooltip := hasTooltip w;
     tooltip := tooltip w; unDocMouseMove := unDocMouseMove w;
     isDirectTouch := isDirectTouch w; hoverX := hoverX w;
     point := f; series := series w; axis := axis w |}.

(** A point object with every property set to [null]. *)
Definition destroyed (o : PointObj) : PointObj :=
  {| p_series := None; p_x := p_x o; p_isNull := p_isNull o;
     p_plotX := None; p_tooltipPos := false; p_state := None |}.

Definition destroy_point (p : nat) (w : World) : World :=
  set_points
    (fun q => if Nat.eqb q p then destroyed (point w q) else point w q) w.

(** A point object in the visual state [s]. *)
Definition in_state (s : option string) (o : PointObj) : PointObj :=
  {| p_series := p_series o; p_x := p_x o; p_isNull := p_isNull o;
     p_plotX := p_plotX o; p_tooltipPos := p_tooltipPos o; p_state := s |}.

(** Modelled from the spec: [Point.setState] is defined in Point.js, which
    is not among the sources.  The specification names the visual states
    (normal, hover, inactive, select) and has the reconciliation "apply
    hover visual state to every point in the new hover set" and "clear
    hover visual state" through it; the sources read the current one back
    as [point.state].  The point takes the state it is given, [None]
    standing for the normal state of [setState()]. *)
Definition with_state (p : nat) (s : option string) (w : World) : World :=
  set_points
    (fun q => if Nat.eqb q p then in_state s (point w q) else point w q) w.

(** The result of [getHoverData]. *)
Record HoverData : Type := {
  hd_hoverPoint : option nat;
  hd_hoverSeries : option nat;
  hd_hoverPoints : list nat
}.

Definition noSharedTooltip (w : World) (s : nat) : bool :=
  Nearest.noSharedTooltip (kd (series w s)).

(** The local [filter] of [getHoverData]. *)
Definition tracked (w : World) (shared : bool) (s : nat) : bool :=
  s_visible (series w s)
  && negb (negb shared && s_directTouch (series w s))
  && default true (s_enableMouseTracking (series w s)).

(** [find(s.points, p => p.x === hoverPoint.x && !p.isNull)] *)
Definition find_same_x (w : World) (hx : Z) (s : nat) : option nat :=
  List.find (fun p => (p_x (point w p) =? hx) && negb (p_isNull (point w p)))
            (s_points (series w s)).

Definition getHoverData (w : World)
    (existingHoverPoint existingHoverSeries : option nat)
    (allSeries : list nat) (directTouch shared : bool) (e : Event)
    : JS.result HoverData :=
  let useExisting := directTouch && bool_decide (is_Some existingHoverPoint) in
  let sticky :=
    List.filter (fun s => tracked w shared s && s_stickyTracking (series w s))
                allSeries in
  let searchSeries :=
    match existingHoverSeries with
    | Some hs => if negb (s_stickyTracking (series w hs)) then [hs] else sticky
    | None => sticky
    end in
  let found :=
    if useExisting then existingHoverPoint
    else Nearest.pid <$>
           Nearest.findNearestKDPoint
             (map (fun s => kd (series w s)) searchSeries) shared (at_ e) in
  match found with
  | None =>
      mret {| hd_hoverPoint := None; hd_hoverSeries := None;
              hd_hoverPoints := [] |}
  | Some hp =>
      let hs := p_series (point w hp) in
      together ←
        (if shared then s ← JS.deref hs; mret (negb (noSharedTooltip w s))
         else mret false);
      let points :=
        if together : bool then
          omap (fun s =>
                  (fun p => if isBoosting w then s_getPoint (series w s) p else p)
                    <$> find_same_x w (p_x (point w hp)) s)
               (List.filter (fun s => tracked w shared s
                                      && negb (noSharedTooltip w s))
                            allSeries)
        else [hp] in
      mret {| hd_hoverPoint := Some hp; hd_hoverSeries := hs;
              hd_hoverPoints := points |}
  end.

(** [getActiveSeries]: each point's series with its linked parent, linked
    children and navigator series. *)
Fixpoint getActiveSeries (w : World) (points : list nat)
    : JS.result (list nat) :=
  match points with
  | [] => mret []
  | item :: rest =>
      s ← JS.deref (p_series (point w item));
      others ← getActiveSeries w rest;
      mret ([s]
            ++ option_list (s_linkedParent (series w s))
            ++ default [] (s_linkedSeries (series w s))
            ++ option_list (s_navigatorSeries (series w s))
            ++ others)
  end.

(** [pick(axis.crosshair.snap, true)] *)
Definition snap (w : World) (a : nat) : bool :=
  default true (mjoin (a_crosshair (axis w a))).

Definition axisOf (w : World) (c : Coll) (s : nat) : option nat :=
  match c with
  | xAxis => s_xAxis (series w s)
  | yAxis => s_yAxis (series w s)
  end.

(** [find(points, p => p.series[axis.coll] === axis)] *)
Fixpoint find_on_axis (w : World) (a : nat) (points : list nat)
    : JS.result (option nat) :=
  match points with
  | [] => mret None
  | p :: rest =>
      s ← JS.deref (p_series (point w p));
      if bool_decide (axisOf w (a_coll (axis w a)) s = Some a) then mret (Some p)
      else find_on_axis w a rest
  end.

(** The first loop of [reset]: [allowMove] survives when no tooltip point
    of a cartesian series has lost its [plotX]. *)
Fixpoint still_plotted (w : World) (points : list nat) : JS.result bool :=
  match points with
  | [] => mret true
  | p :: rest =>
      s ← JS.deref (p_series (point w p));
      ok ← still_plotted w rest;
      mret (negb (s_isCartesian (series w s)
                  && negb (bool_decide (is_Some (p_plotX (point w p)))))
            && ok)
  end.

(** What [refresh] is given: one point, or an array of points. *)
Inductive Target : Type :=
| Single (p : nat)
| Many (ps : list nat).

Definition splat (t : Target) : list nat :=
  match t with
  | Single p => [p]
  | Many ps => ps
  end.

(** [tooltip && tooltip.shared ? hoverPoints : hoverPoint] *)
Definition tooltipPoints (w : World) : option Target :=
  if hasTooltip w && t_shared (tooltip w) then Many <$> hoverPoints w
  else Single <$> hoverPoint w.

(** What [getAnchor] reads of a point: whether it has a [tooltipPos], and
    its series.  The object [{}] has neither. *)
Definition anchor_view (w : World) (p : nat) : bool * option nat :=
  (p_tooltipPos (point w p), p_series (point w p)).

Definition empty_object : bool * option nat := (false, None).

(** The loop of [getAnchor]: [point.series.yAxis] is read on every
    point. *)
Fixpoint read_axes (points : list (bool * option nat)) : JS.result unit :=
  match points with
  | [] => mret tt
  | (_, s) :: rest => _ ← JS.deref s; read_axes rest
  end.

(** [tooltip.getAnchor(points, mouseEvent)], as far as it can raise: with
    [followPointer] and a mouse event the anchor is the mouse position;
    else it is the [tooltipPos] of the first point, or the average of the
    points' positions, read through every point's series. *)
Definition getAnchor (w : World) (hasEvent : bool)
    (points : list (bool * option nat)) : JS.result unit :=
  if t_followPointer (tooltip w) && hasEvent then mret tt
  else
    match points with
    | [] => JS.TypeError
    | (pos, _) :: _ => if pos : bool then mret tt else read_axes points
    end.

(** The local [tooltip] of [runPointActions] is set: the chart has a
    tooltip and it is enabled. *)
Definition tooltipOn (w : World) : bool :=
  hasTooltip w && HideTimer.enabled (t_timer (tooltip w)).

(** [shared = tooltip ? tooltip.shared : false] *)
Definition sharedMode (w : World) : bool :=
  tooltipOn w && t_shared (tooltip w).

Definition tooltipHidden (w : World) : bool :=
  HideTimer.isHidden (t_timer (tooltip w)).

(** The hover data [runPointActions] resolves before it acts. *)
Definition resolve (w : World) (e : Event) (p : option nat)
    : JS.result HoverData :=
  let hoverPoint0 := match p with Some _ => p | None => hoverPoint w end in
  let hoverSeries0 :=
    match hoverPoint0 ≫= (fun q => p_series (point w q)) with
    | Some s => Some s
    | None => hoverSeries w
    end in
  let directTouch :=
    negb (String.eqb (type e) "touchmove")
    && (bool_decide (is_Some p)
        || (match hoverSeries0 with
            | Some hs => s_directTouch (series w hs)
            | None => false
            end && isDirectTouch w)) in
  getHoverData w hoverPoint0 hoverSeries0 (chartSeries w)
    directTouch (sharedMode w) e.

(** The condition of the full reconciliation: a new hover point, or a
    hidden tooltip. *)
Definition needs_reconcile (w : World) (hp : nat) : bool :=
  bool_decide (Some hp ≠ hoverPoint w) || (tooltipOn w && tooltipHidden w).

Section Reactions.

(** What a collaborator call does to the chart and its objects: the
    handlers it runs are arbitrary. *)
Variable react : Call -> World -> World.

(** Which delays [syncTimeout] defers (see [HideTimer]). *)
Variable defers : Z -> bool.

(** Computations on the state that may raise a [TypeError]. *)
Definition M (A : Type) : Type := St -> JS.result (A * St).

#[local] Instance M_ret : MRet M := fun A a st => JS.Ok (a, st).
#[local] Instance M_bind : MBind M := fun A B k m st =>
  match m st with
  | JS.Ok (a, st') => k a st'
  | JS.TypeError => JS.TypeError
  end.

Definition call (c : Call) : M unit := fun st =>
  JS.Ok (tt, {| world := react c (world st); trace := trace st ++ [c] |}).

Definition gets {A : Type} (f : World -> A) : M A := fun st =>
  JS.Ok (f (world st), st).

Definition modify (f : World -> World) : M unit := fun st =>
  JS.Ok (tt, {| world := f (world st); trace := trace st |}).

Definition lift {A : Type} (r : JS.result A) : M A := fun st =>
  match r with
  | JS.Ok a => JS.Ok (a, st)
  | JS.TypeError => JS.TypeError
  end.

Definition raise {A : Type} : M A := fun _ => JS.TypeError.

Definition when (b : bool) (m : M unit) : M unit := if b then m else mret tt.

(** A method of point [p] is looked up.  A destroyed point has lost its
    methods with its other properties: calling one raises. *)
Definition method_of (p : nat) : M unit :=
  w ← gets id;
  if bool_decide (is_Some (p_series (point w p))) then mret tt else raise.

(** A method call on a point that was resolved earlier and may have been
    destroyed since. *)
Definition call_on (p : nat) (c : Call) : M unit :=
  method_of p;; call c.

Fixpoint forEach {A : Type} (l : list A) (f : A -> M unit) : M unit :=
  match l with
  | [] => mret tt
  | a :: rest => f a;; forEach rest f
  end.

(** The branch of [refresh] on [shared] and the kind of its argument.
    An array has no [series]: with [shared] the series that are not active
    are dimmed and every point is put in hover state and asked for its
    label; without, the array has no [getLabelConfig] to call.  A single
    point of a series that shares tooltips is, with [shared], taken for an
    array, and has no [forEach]. *)
Definition refresh_states (target : Target) : M unit :=
  w ← gets id;
  match target with
  | Many ps =>
      if t_shared (tooltip w) then
        (* Set inactive state for all points *)
        activeSeries ← lift (getActiveSeries w ps);
        forEach (chartSeries w) (fun s =>
          w' ← gets id;
          when (s_inactiveOtherPoints (series w' s)
                || negb (bool_decide (s ∈ activeSeries)))
               (call (SeriesSetInactive s)));;
        (* Now set hover state for the choosen ones *)
        forEach ps (fun q =>
          call_on q (PointSetState q (Some "hover"%string) false);;
          method_of q)                             (* [getLabelConfig] *)
      else raise
  | Single p =>
      s ← lift (JS.deref (p_series (point w p)));
      if t_shared (tooltip w) && negb (Nearest.noSharedTooltip (kd (series w s)))
      then raise
      else method_of p                             (* [getLabelConfig] *)
  end.

(** [tooltip.refresh(pointOrPoints, mouseEvent)]: the guard on
    [options.enabled]; the hide timer is cleared; [followPointer] is taken
    from the series of the first point; the anchor is computed; the states
    are set; the formatter is called; the first point's series is read for
    the distance; then the tooltip is hidden, when the formatter returned
    [false], or its label is updated and shown; last, the tooltip's
    [refresh] event is fired. *)
Definition tooltip_refresh (target : Target) (hasEvent : bool) : M unit :=
  w ← gets id;
  if negb (HideTimer.enabled (t_timer (tooltip w))) then mret tt
  else
    modify (fun w =>
              set_timer (HideTimer.clearTimeout
                           (HideTimer.hideTimer (t_timer (tooltip w)))
                           (t_timer (tooltip w))) w);;
    (* get the reference point coordinates (pie charts use tooltipPos) *)
    p0 ← lift (JS.deref (head (splat target)));
    s0 ← lift (JS.deref (p_series (point w p0)));
    modify (set_followPointer (s_followPointer (series w s0)));;
    w1 ← gets id;
    lift (getAnchor w1 hasEvent (map (anchor_view w1) (splat target)));;
    refresh_states target;;
    textIsFalse ← gets (fun w => t_textIsFalse (tooltip w));
    (* register the current series *)
    w2 ← gets id;
    lift (JS.deref (p_series (point w2 p0)));;
    (* update the inner HTML *)
    modify (fun w =>
              set_timer (HideTimer.refresh_end defers (t_timer (tooltip w))
                           textIsFalse) w);;
    call (TooltipRefresh (splat target)).

(** [tooltip.hide(delay)] *)
Definition tooltip_hide (delay : option Z) : M unit :=
  modify (fun w =>
            set_timer (HideTimer.hide defers (t_timer (tooltip w)) delay) w);;
  call (TooltipHide delay).

(** The reconciliation up to the mouse-out of the previous hover point. *)
Definition reconcile_prefix (hd : HoverData) : M unit :=
  let points := hd_hoverPoints hd in
  old ← gets hoverPoints;
  forEach (default [] old) (fun q =>
    when (negb (bool_decide (q ∈ points))) (call (PointSetState q None false)));;
  (* Set normal state to previous series *)
  current ← gets hoverSeries;
  (if bool_decide (current ≠ hd_hoverSeries hd)
   then hs ← lift (JS.deref (hd_hoverSeries hd)); call (SeriesOnMouseOver hs)
   else mret tt);;
  (* Set inactive state for all points *)
  w ← gets id;
  activeSeries ← lift (getActiveSeries w points);
  forEach (chartSeries w) (fun s =>
    w' ← gets id;
    when (s_inactiveOtherPoints (series w' s)
          || negb (bool_decide (s ∈ activeSeries)))
         (call (SeriesSetInactive s)));;
  (* Do mouseover on all points *)
  forEach points (fun q =>
    call_on q (PointSetState q (Some "hover"%string) false));;
  previous ← gets hoverPoint;
  match previous with
  | Some q => call (FirePointEvent q "mouseOut")
  | None => mret tt
  end.

(** The rest of the reconciliation, for a hover point that is still
    alive. *)
Definition reconcile_suffix (hp : nat) (hd : HoverData)
    (tooltipOn useSharedTooltip : bool) : M unit :=
  call (FirePointEvent hp "mouseOver");;
  modify (set_hover (Some hp) (Some (hd_hoverPoints hd)));;
  when tooltipOn
    (tooltip_refresh
       (if useSharedTooltip then Many (hd_hoverPoints hd) else Single hp)
       true).

Definition reconcile (hp : nat) (hd : HoverData)
    (tooltipOn useSharedTooltip : bool) : M Flow :=
  reconcile_prefix hd;;
  (* Hover point may have been destroyed in the event handlers *)
  w ← gets id;
  if negb (bool_decide (is_Some (p_series (point w hp)))) then mret Returned
  else reconcile_suffix hp hd tooltipOn useSharedTooltip;; mret Fallthrough.

(** The statements after the conditional: the document listener and the
    crosshairs. *)
Definition after_reconcile (points : list nat) : M unit :=
  bound ← gets unDocMouseMove;
  when (negb bound) (modify (set_unDocMouseMove true);; call AddDocMouseMove);;
  axes ← gets chartAxes;
  forEach axes (fun a =>
    w ← gets id;
    pt ← (if snap w a then lift (find_on_axis w a points) else mret None);
    if bool_decide (is_Some pt) || negb (snap w a)
    then call (DrawCrosshair a pt)
    else call (HideCrosshair a)).

Definition runPointActions (e : Event) (p : option nat) : M unit :=
  w ← gets id;
  hd ← lift (resolve w e p);
  let followPointer :=
    match hd_hoverSeries hd with
    | Some hs => s_followPointer (series w hs)
    | None => false
    end in
  let useSharedTooltip :=
    sharedMode w && match hd_hoverSeries hd with
                    | Some hs => negb (noSharedTooltip w hs)
                    | None => false
                    end in
  let follow : M Flow :=
    when (followPointer && tooltipOn w && negb (tooltipHidden w))
         (lift (getAnchor w true [empty_object]);;
          call TooltipFollow);;
    mret Fallthrough in
  flow ←
    match hd_hoverPoint hd with
    | Some hp =>
        if needs_reconcile w hp
        then reconcile hp hd (tooltipOn w) useSharedTooltip
        else follow
    | None => follow
    end;
  match flow with
  | Returned => mret tt
  | Fallthrough => after_reconcile (hd_hoverPoints hd)
  end.

(** The crosshairs of one hover point's own axes (shared tooltip). *)
Definition redraw_own_crosshairs (pt : nat) : M unit :=
  w ← gets id;
  s ← lift (JS.deref (p_series (point w pt)));
  when (s_isCartesian (series w s))
    (xa ← lift (JS.deref (s_xAxis (series w s)));
     when (bool_decide (is_Some (a_crosshair (axis w xa))))
          (call (DrawCrosshair xa (Some pt)));;
     w' ← gets id;
     s' ← lift (JS.deref (p_series (point w' pt)));
     ya ← lift (JS.deref (s_yAxis (series w' s')));
     when (bool_decide (is_Some (a_crosshair (axis w' ya))))
          (call (DrawCrosshair ya (Some pt)))).

(** The branch of [reset] that only moves the tooltip. *)
Definition reset_move (hoverPoint_ : option nat)
    (hoverPoints_ : option (list nat)) (tooltipPoints : option Target)
    (hasTooltip_ : bool) : M unit :=
  match tooltipPoints with
  | Some target =>
      when (hasTooltip_ && negb (bool_decide (splat target = [])))
        (tooltip_refresh target false;;
         sharedNow ← gets (fun w => t_shared (tooltip w));
         match (if sharedNow : bool then hoverPoints_ else None), hoverPoint_ with
         | Some hps, _ =>
             forEach hps (fun pt =>
               w ← gets id;
               call_on pt (PointSetState pt (p_state (point w pt)) true);;
               redraw_own_crosshairs pt)
         | None, Some hp =>
             w ← gets id;
             call_on hp (PointSetState hp (p_state (point w hp)) true);;
             axes ← gets chartAxes;
             forEach axes (fun a =>
               w' ← gets id;
               when (bool_decide (is_Some (a_crosshair (axis w' a))))
                    (call (DrawCrosshair a (Some hp))))
         | None, None => mret tt
         end)
  | None => mret tt
  end.

(** The full reset. *)
Definition reset_full (hoverPoint_ hoverSeries_ : option nat)
    (hoverPoints_ : option (list nat)) (hasTooltip_ : bool)
    (delay : option Z) : M unit :=
  match hoverPoint_ with
  | Some hp => call (PointOnMouseOut hp)
  | None => mret tt
  end;;
  forEach (default [] hoverPoints_) (fun pt => call (PointSetState pt None false));;
  match hoverSeries_ with
  | Some hs => call (SeriesOnMouseOut hs)
  | None => mret tt
  end;;
  when hasTooltip_ (tooltip_hide delay);;
  bound ← gets unDocMouseMove;
  when bound (modify (set_unDocMouseMove false);; call RemoveDocMouseMove);;
  (* Remove crosshairs *)
  axes ← gets chartAxes;
  forEach axes (fun a => call (HideCrosshair a));;
  modify (fun w => set_hoverX None (set_hover None None w)).

Definition reset (allowMove : bool) (delay : option Z) : M unit :=
  w ← gets id;
  (* Check if the points have moved outside the plot area *)
  allowMove' ←
    match (if allowMove then tooltipPoints w else None) with
    | Some target => lift (still_plotted w (splat target))
    | None => mret allowMove
    end;
  if allowMove' : bool
  then reset_move (hoverPoint w) (hoverPoints w) (tooltipPoints w) (hasTooltip w)
  else reset_full (hoverPoint w) (hoverSeries w) (hoverPoints w)
                  (hasTooltip w) delay.

(** [m] run from [st] returns normally, in a result that satisfies [Q]. *)
Definition wp {A : Type} (m : M A) (Q : A -> St -> Prop) (st : St) : Prop :=
  exists a st', m st = JS.Ok (a, st') /\ Q a st'.

(** [m] never raises. *)
Definition safe {A : Type} (m : M A) : Prop :=
  forall st, wp m (fun _ _ => True) st.

(** The hover references the full reset clears. *)
Definition cleared (w : World) : Prop :=
  hoverPoint w = None /\ hoverPoints w = None /\ hoverX w = None.

Lemma wp_ret {A : Type} (a : A) (Q : A -> St -> Prop) (st : St) :
  Q a st -> wp (mret a) Q st.
Proof. intros H. exists a, st. split; [reflexivity | exact H]. Qed.

Lemma wp_bind {A B : Type} (m : M A) (k : A -> M B) (Q : B -> St -> Prop)
    (st : St) :
  wp m (fun a st' => wp (k a) Q st') st -> wp (m ≫= k) Q st.
Proof.
  intros (a & st1 & Hm & b & st2 & Hk & HQ). exists b, st2.
  split; [| exact HQ]. unfold mbind, M_bind. rewrite Hm. exact Hk.
Qed.

Lemma wp_mono {A : Type} (m : M A) (Q Q' : A -> St -> Prop) (st : St) :
  wp m Q st -> (forall a st', Q a st' -> Q' a st') -> wp m Q' st.
Proof. intros (a & st' & Hm & HQ) H. exists a, st'. auto. Qed.

Lemma wp_gets {A : Type} (f : World -> A) (Q : A -> St -> Prop) (st : St) :
  Q (f (world st)) st -> wp (gets f) Q st.
Proof. intros H. eexists _, _. split; [reflexivity | exact H]. Qed.

Lemma wp_modify (f : World -> World) (Q : unit -> St -> Prop) (st : St) :
  Q tt {| world := f (world st); trace := trace st |} -> wp (modify f) Q st.
Proof. intros H. eexists _, _. split; [reflexivity | exact H]. Qed.

Lemma wp_call (c : Call) (Q : unit -> St -> Prop) (st : St) :
  Q tt {| world := react c (world st); trace := trace st ++ [c] |} ->
  wp (call c) Q st.
Proof. intros H. eexists _, _. split; [reflexivity | exact H]. Qed.

Lemma wp_lift {A : Type} (r : JS.result A) (a : A) (Q : A -> St -> Prop)
    (st : St) :
  r = JS.Ok a -> Q a st -> wp (lift r) Q st.
Proof. intros -> H. exists a, st. split; [reflexivity | exact H]. Qed.

Lemma wp_when (b : bool) (m : M unit) (Q : unit -> St -> Prop) (st : St) :
  (if b then wp m Q st else Q tt st) -> wp (when b m) Q st.
Proof. destruct b; [auto | apply wp_ret]. Qed.

(** A loop keeps an invariant that each of its iterations keeps. *)
Lemma wp_forEach {A : Type} (Inv : St -> Prop) (l : list A) (f : A -> M unit) :
  (forall a st, a ∈ l -> Inv st -> wp (f a) (fun _ => Inv) st) ->
  forall st, Inv st -> wp (forEach l f) (fun _ => Inv) st.
Proof.
  induction l as [| a l IH]; intros Hf st HI.
  - apply wp_ret. exact HI.
  - cbn [forEach]. apply wp_bind.
    eapply wp_mono; [apply Hf; [apply elem_of_cons; auto | exact HI] |].
    intros u st' HI'. apply IH; [| exact HI'].
    intros b st'' Hb. apply Hf. apply elem_of_cons. auto.
Qed.

Lemma wp_seq_safe {A B : Type} (m : M A) (k : A -> M B)
    (Q : B -> St -> Prop) (st : St) :
  safe m -> (forall a st', wp (k a) Q st') -> wp (m ≫= k) Q st.
Proof.
  intros Hm Hk. apply wp_bind. eapply wp_mono; [apply Hm |].
  intros a st' Ht. apply Hk.
Qed.

Lemma safe_call (c : Call) : safe (call c).
Proof. intros st. apply wp_call. exact I. Qed.

Lemma safe_ret {A : Type} (a : A) : safe (mret a : M A).
Proof. intros st. apply wp_ret. exact I. Qed.

Lemma safe_when (b : bool) (m : M unit) : safe m -> safe (when b m).
Proof. intros H st. apply wp_when. destruct b; [apply H | exact I]. Qed.

Lemma safe_forEach {A : Type} (l : list A) (f : A -> M unit) :
  (forall a, safe (f a)) -> safe (forEach l f).
Proof.
  intros H st. apply (wp_forEach (fun _ => True)); [| exact I].
  intros a st' _ _. apply H.
Qed.

Lemma safe_bind {A B : Type} (m : M A) (k : A -> M B) :
  safe m -> (forall a, safe (k a)) -> safe (m ≫= k).
Proof. intros Hm Hk st. apply wp_seq_safe; [exact Hm | intros a st'; apply Hk]. Qed.

Lemma safe_tooltip_hide (delay : option Z) : safe (tooltip_hide delay).
Proof.
  intros st. unfold tooltip_hide. apply wp_bind, wp_modify, wp_call. exact I.
Qed.

(** The full reset never raises and ends with the hover references
    cleared, whatever the collaborators do. *)
Lemma reset_full_clears (hp hs : option nat) (hps : option (list nat))
    (hasTooltip_ : bool) (delay : option Z) (st : St) :
  wp (reset_full hp hs hps hasTooltip_ delay)
     (fun _ st' => cleared (world st')) st.
Proof.
  unfold reset_full.
  apply wp_seq_safe; [destruct hp; [apply safe_call | apply safe_ret] |].
  intros _ st1. apply wp_seq_safe;
    [apply safe_forEach; intros; apply safe_call |].
  intros _ st2. apply wp_seq_safe;
    [destruct hs; [apply safe_call | apply safe_ret] |].
  intros _ st3. apply wp_seq_safe; [apply safe_when, safe_tooltip_hide |].
  intros _ st4. apply wp_bind, wp_gets. apply wp_seq_safe.
  { apply safe_when, safe_bind; [| intros; apply safe_call].
    intros st'. apply wp_modify. exact I. }
  intros _ st5. apply wp_bind, wp_gets. apply wp_seq_safe;
    [apply safe_forEach; intros; apply safe_call |].
  intros _ st6. apply wp_modify. repeat split.
Qed.

Lemma reset_false (delay : option Z) (st : St) :
  reset false delay st =
  reset_full (hoverPoint (world st)) (hoverSeries (world st))
             (hoverPoints (world st)) (hasTooltip (world st)) delay st.
Proof. reflexivity. Qed.


(** The trace grew from [tr0] by calls that satisfy [P]. *)
Definition extends (P : Call -> Prop) (tr0 : list Call) (st : St) : Prop :=
  exists calls, trace st = tr0 ++ calls /\ Forall P calls.

Lemma extends_refl (P : Call -> Prop) (st : St) : extends P (trace st) st.
Proof. exists []. split; [symmetry; apply app_nil_r | constructor]. Qed.

Lemma extends_call (P : Call -> Prop) (tr0 : list Call) (c : Call)
    (w : World) (st : St) :
  extends P tr0 st -> P c ->
  extends P tr0 {| world := w; trace := trace st ++ [c] |}.
Proof.
  intros (calls & Ht & Hall) Hc. exists (calls ++ [c]). cbn [trace]. split.
  - rewrite Ht. symmetry. apply app_assoc.
  - apply Forall_app. split; [exact Hall | repeat constructor; exact Hc].
Qed.

Lemma wp_method_of (p : nat) (Q : unit -> St -> Prop) (st : St) :
  is_Some (p_series (point (world st) p)) -> Q tt st -> wp (method_of p) Q st.
Proof.
  intros Hs HQ. unfold method_of. apply wp_bind, wp_gets. cbn [id].
  rewrite bool_decide_eq_true_2 by exact Hs. apply wp_ret, HQ.
Qed.

Lemma getActiveSeries_ok (w : World) (points : list nat) :
  (forall q, q ∈ points -> is_Some (p_series (point w q))) ->
  exists l, getActiveSeries w points = JS.Ok l.
Proof.
  induction points as [| q points IH]; intros H; [eexists; reflexivity |].
  cbn [getActiveSeries].
  destruct (H q) as [s Hs]; [apply elem_of_cons; auto |]. rewrite Hs.
  destruct IH as [l Hl]; [intros r Hr; apply H, elem_of_cons; auto |].
  cbn. rewrite Hl. eexists. reflexivity.
Qed.

Lemma read_axes_ok (w : World) (l : list nat) :
  (forall q, q ∈ l -> is_Some (p_series (point w q))) ->
  read_axes (map (anchor_view w) l) = JS.Ok tt.
Proof.
  induction l as [| a l IH]; intros H; [reflexivity |].
  cbn [map read_axes anchor_view].
  destruct (H a) as [s Hs]; [apply elem_of_cons; auto |]. rewrite Hs. cbn.
  apply IH. intros q Hq. apply H, elem_of_cons. auto.
Qed.

(** Without a mouse event the anchor is read off the points, which must
    have their series (or the first one a [tooltipPos]). *)
Lemma getAnchor_ok (w : World) (l : list nat) :
  l <> [] ->
  (forall q, q ∈ l -> is_Some (p_series (point w q))) ->
  getAnchor w false (map (anchor_view w) l) = JS.Ok tt.
Proof.
  intros Hne H. unfold getAnchor. rewrite andb_false_r.
  destruct l as [| a l]; [congruence |].
  pose proof (read_axes_ok w (a :: l) H) as Hr.
  cbn [map anchor_view] in *.
  destruct (p_tooltipPos (point w a)); [reflexivity | exact Hr].
Qed.

(** *** The moving reset *)

(** The calls the moving branch of [reset] makes, those of the tooltip's
    [refresh] included. *)
Definition is_move_call (c : Call) : bool :=
  match c with
  | TooltipRefresh _ | PointSetState _ _ _ | SeriesSetInactive _
  | DrawCrosshair _ _ => true
  | _ => false
  end.

(** What a call is for, as far as the chart and its objects go: a point's
    state setter puts the point in the state it is given. *)
Definition applies_state (c : Call) (w : World) : World :=
  match c with
  | PointSetState p s _ => with_state p s w
  | _ => w
  end.

(** The handlers run by the calls of the moving branch do what the call is
    for and no more: a point's state setter sets that point's state; the
    series' state setter, the tooltip's refresh event and the drawing of a
    crosshair leave the chart, the pointer, the points and the tooltip as
    they are. *)
Definition state_setters_only : Prop :=
  forall c w, is_move_call c = true -> react c w = applies_state c w.

(** The points [refresh] puts in hover state: the hover points of a shared
    tooltip. *)
Definition hovered_by_refresh (w0 : World) (p : nat) : Prop :=
  t_shared (tooltip w0) = true /\ p ∈ default [] (hoverPoints w0).

(** A call of the moving branch, for the world [w0] it started from: the
    refresh event of the tooltip; for a shared tooltip, the dimming of a
    series and the hover state of a hover point; the re-application of a
    point's state; the drawing of a crosshair at a point. *)
Definition moving (w0 : World) (c : Call) : Prop :=
  match c with
  | TooltipRefresh _ => True
  | DrawCrosshair _ (Some _) => True
  | SeriesSetInactive _ => t_shared (tooltip w0) = true
  | PointSetState p s _ =>
      s = p_state (point w0 p) \/
      (s = Some "hover"%string /\ hovered_by_refresh w0 p)
  | _ => False
  end.

(** The point is still within plottable bounds: it has its series, and if
    the series is cartesian the point has a [plotX] (and the series its
    two axes). *)
Definition plotted (w : World) (p : nat) : Prop :=
  exists s, p_series (point w p) = Some s /\
    (s_isCartesian (series w s) = true ->
       is_Some (p_plotX (point w p)) /\
       is_Some (s_xAxis (series w s)) /\ is_Some (s_yAxis (series w s))).

(** The world after the tooltip refresh of the moving branch, as far as
    the hide timer goes. *)
Definition refreshed (w : World) : World :=
  match tooltipPoints w with
  | Some target =>
      if hasTooltip w && negb (bool_decide (splat target = []))
      then set_timer (HideTimer.refresh defers (t_timer (tooltip w))
                        (t_textIsFalse (tooltip w))) w
      else w
  | None => w
  end.

(** What the moving branch keeps of the world [w0] it started from:
    everything but the tooltip's timer and [followPointer], and the state
    of the points [refresh] puts in hover state. *)
Record kept (w0 w : World) : Prop := {
  kept_rest : set_tooltip (tooltip w0) (set_points (point w0) w) = w0;
  kept_shared : t_shared (tooltip w) = t_shared (tooltip w0);
  kept_text : t_textIsFalse (tooltip w) = t_textIsFalse (tooltip w0);
  kept_points :
    forall q, point w q = point w0 q \/
              (hovered_by_refresh w0 q /\
               point w q = in_state (Some "hover"%string) (point w0 q))
}.

(** The invariant of the moving branch: [T] is the timer state of the
    tooltip at this stage. *)
Definition moved (w0 : World) (T : HideTimer.World) (tr0 : list Call)
    (st : St) : Prop :=
  kept w0 (world st) /\ t_timer (tooltip (world st)) = T /\
  extends (moving w0) tr0 st.

Lemma kept_refl (w0 : World) : kept w0 w0.
Proof. split; auto. destruct w0; reflexivity. Qed.

Lemma in_state_same (o : PointObj) : in_state (p_state o) o = o.
Proof. destruct o; reflexivity. Qed.

Lemma kept_series (w0 w : World) (q : nat) :
  kept w0 w -> p_series (point w q) = p_series (point w0 q).
Proof.
  intros H. destruct (kept_points _ _ H q) as [-> | [_ ->]]; reflexivity.
Qed.

Lemma kept_state (w0 w : World) (q : nat) :
  kept w0 w -> moving w0 (PointSetState q (p_state (point w q)) true).
Proof.
  intros H. cbn. destruct (kept_points _ _ H q) as [-> | [Hh ->]]; auto.
Qed.

Lemma moved_start (w0 : World) (st : St) :
  world st = w0 -> moved w0 (t_timer (tooltip w0)) (trace st) st.
Proof.
  intros <-. split; [apply kept_refl |]. split; [reflexivity |].
  apply extends_refl.
Qed.

Lemma moved_call (w0 : World) (T : HideTimer.World) (tr0 : list Call)
    (c : Call) (st : St) :
  state_setters_only ->
  is_move_call c = true -> moving w0 c -> moved w0 T tr0 st ->
  wp (call c) (fun _ => moved w0 T tr0) st.
Proof.
  intros Hb Hc Hm (Hk & Ht & He). apply wp_call. cbn [world].
  rewrite (Hb c _ Hc).
  split; [| split; [| apply extends_call; assumption]].
  - destruct c; try discriminate Hc; cbn [applies_state]; try exact Hk.
    destruct Hk as [H1 H2 H3 H4]. split; [exact H1 | exact H2 | exact H3 |].
    intros q. cbn [world with_state set_points point].
    destruct (Nat.eqb_spec q p) as [-> | Hne]; [| apply H4].
    assert (Hin : in_state state (point (world st) p)
                  = in_state state (point w0 p))
      by (destruct (H4 p) as [-> | [_ ->]]; reflexivity).
    rewrite Hin. cbn in Hm. destruct Hm as [-> | [-> Hh]].
    + left. apply in_state_same.
    + right. auto.
  - destruct c; try discriminate Hc; exact Ht.
Qed.

(** A write to the tooltip's timer or [followPointer]. *)
Lemma moved_tooltip (w0 : World) (T T' : HideTimer.World) (tr0 : list Call)
    (st : St) (t : TooltipObj) :
  t_shared t = t_shared (tooltip (world st)) ->
  t_textIsFalse t = t_textIsFalse (tooltip (world st)) ->
  t_timer t = T' ->
  moved w0 T tr0 st ->
  moved w0 T' tr0 {| world := set_tooltip t (world st); trace := trace st |}.
Proof.
  intros Hs Hx Ht ([H1 H2 H3 H4] & _ & He).
  split; [| split; [exact Ht | exact He]].
  split; [exact H1 | | | exact H4]; cbn [world set_tooltip tooltip];
    congruence.
Qed.

Lemma moved_own_crosshairs (w0 : World) (T : HideTimer.World)
    (tr0 : list Call) (pt : nat) (st : St) :
  state_setters_only ->
  plotted w0 pt -> moved w0 T tr0 st ->
  wp (redraw_own_crosshairs pt) (fun _ => moved w0 T tr0) st.
Proof.
  intros Hb (s & Hs & Hc) Hm. unfold redraw_own_crosshairs.
  assert (Hser : forall st', moved w0 T tr0 st' ->
            series (world st') = series w0 /\
            p_series (point (world st') pt) = Some s).
  { intros st' (Hk & _). split.
    - exact (f_equal series (kept_rest _ _ Hk)).
    - rewrite (kept_series _ _ pt Hk). exact Hs. }
  apply wp_bind, wp_gets. cbn [id].
  destruct (Hser st Hm) as [Hse Hps].
  apply wp_bind. eapply wp_lift; [rewrite Hps; reflexivity |].
  apply wp_when. rewrite Hse.
  destruct (s_isCartesian (series w0 s)) eqn:Hcart; [| exact Hm].
  destruct (Hc eq_refl) as (_ & [xa Hxa] & [ya Hya]).
  apply wp_bind. eapply wp_lift; [rewrite Hxa; reflexivity |].
  apply wp_bind. apply wp_when.
  assert (Hafter : forall st', moved w0 T tr0 st' ->
            wp (w' ← gets id;
                s' ← lift (JS.deref (p_series (point w' pt)));
                ya ← lift (JS.deref (s_yAxis (series w' s')));
                when (bool_decide (is_Some (a_crosshair (axis w' ya))))
                     (call (DrawCrosshair ya (Some pt))))
               (fun _ => moved w0 T tr0) st').
  { intros st' Hm'. destruct (Hser st' Hm') as [Hse' Hps'].
    apply wp_bind, wp_gets. cbn [id].
    apply wp_bind. eapply wp_lift; [rewrite Hps'; reflexivity |].
    apply wp_bind. eapply wp_lift; [rewrite Hse', Hya; reflexivity |].
    apply wp_when. destruct (bool_decide _); [| exact Hm'].
    apply moved_call; [exact Hb | reflexivity | exact I | exact Hm']. }
  destruct (bool_decide _).
  - eapply wp_mono;
      [apply moved_call; [exact Hb | reflexivity | exact I | exact Hm] |].
    intros u st' Hm'. apply Hafter, Hm'.
  - apply Hafter, Hm.
Qed.

(** What the moving branch passes to [refresh]. *)
Lemma tooltipPoints_cases (w : World) (target : Target) :
  tooltipPoints w = Some target -> hasTooltip w = true ->
  (t_shared (tooltip w) = true /\ exists ps,
     target = Many ps /\ hoverPoints w = Some ps) \/
  (t_shared (tooltip w) = false /\ exists p,
     target = Single p /\ hoverPoint w = Some p).
Proof.
  unfold tooltipPoints. intros H Hhas. rewrite Hhas in H. cbn [andb] in H.
  destruct (t_shared (tooltip w)).
  - left. split; [reflexivity |].
    destruct (hoverPoints w) as [ps |]; [| discriminate].
    injection H as <-. eauto.
  - right. split; [reflexivity |].
    destruct (hoverPoint w) as [p |]; [| discriminate].
    injection H as <-. eauto.
Qed.

Lemma refresh_states_moved (w0 : World) (T : HideTimer.World)
    (tr0 : list Call) (target : Target) (st : St) :
  state_setters_only ->
  tooltipPoints w0 = Some target -> hasTooltip w0 = true ->
  (forall p, p ∈ splat target -> is_Some (p_series (point w0 p))) ->
  moved w0 T tr0 st ->
  wp (refresh_states target) (fun _ => moved w0 T tr0) st.
Proof.
  intros Hb Htp Hhas Hlive Hm. unfold refresh_states.
  apply wp_bind, wp_gets. cbn [id].
  assert (Halive : forall st' p, moved w0 T tr0 st' -> p ∈ splat target ->
            is_Some (p_series (point (world st') p))).
  { intros st' p (Hk & _) Hp. rewrite (kept_series _ _ p Hk). auto. }
  pose proof (kept_shared _ _ (proj1 Hm)) as Hsh.
  destruct (tooltipPoints_cases _ _ Htp Hhas)
    as [(Es & ps & -> & Hps) | (Es & p & -> & Hp)].
  - rewrite Hsh, Es. cbn [splat] in *.
    destruct (getActiveSeries_ok (world st) ps) as [active Hactive];
      [intros q Hq; exact (Halive st q Hm Hq) |].
    apply wp_bind. eapply wp_lift; [exact Hactive |].
    apply wp_bind. eapply wp_mono.
    { apply (wp_forEach (moved w0 T tr0)); [| exact Hm].
      intros s st' _ Hm'. apply wp_bind, wp_gets. apply wp_when.
      destruct (_ || _); [| exact Hm'].
      apply moved_call; [exact Hb | reflexivity | exact Es | exact Hm']. }
    intros u st1 Hm1.
    apply (wp_forEach (moved w0 T tr0)); [| exact Hm1].
    intros q st' Hq Hm'. apply wp_bind. unfold call_on. apply wp_bind.
    apply wp_method_of; [exact (Halive st' q Hm' Hq) |].
    eapply wp_mono.
    { apply moved_call; [exact Hb | reflexivity | | exact Hm'].
      right. split; [reflexivity |]. split; [exact Es |].
      rewrite Hps. exact Hq. }
    intros u' st'' Hm''. apply wp_method_of; [| exact Hm''].
    exact (Halive st'' q Hm'' Hq).
  - cbn [splat] in *.
    destruct (Halive st p Hm) as [s Hs]; [apply list_elem_of_singleton; auto |].
    apply wp_bind. eapply wp_lift; [rewrite Hs; reflexivity |].
    rewrite Hsh, Es. cbn [andb].
    apply wp_method_of; [rewrite Hs; eauto | exact Hm].
Qed.

(** The refresh of the moving branch: it returns, and leaves the timer as
    [HideTimer.refresh] says. *)
Lemma tooltip_refresh_moved (st : St) (target : Target) :
  state_setters_only ->
  tooltipPoints (world st) = Some target ->
  hasTooltip (world st) = true ->
  splat target <> [] ->
  (forall p, p ∈ splat target -> plotted (world st) p) ->
  wp (tooltip_refresh target false)
     (fun _ => moved (world st)
                 (HideTimer.refresh defers (t_timer (tooltip (world st)))
                    (t_textIsFalse (tooltip (world st))))
                 (trace st)) st.
Proof.
  intros Hb Htp Hhas Hne Hpl.
  set (w0 := world st) in *. set (t0 := t_timer (tooltip w0)).
  assert (Hlive : forall p, p ∈ splat target ->
                            is_Some (p_series (point w0 p))).
  { intros p Hp. destruct (Hpl p Hp) as (s & Hs & _). rewrite Hs. eauto. }
  unfold tooltip_refresh. apply wp_bind, wp_gets. cbn [id]. fold w0. fold t0.
  unfold HideTimer.refresh.
  destruct (HideTimer.enabled t0) eqn:Hen; cbn [negb].
  2: { apply wp_ret. apply moved_start. reflexivity. }
  set (T1 := HideTimer.clearTimeout (HideTimer.hideTimer t0) t0).
  apply wp_bind, wp_modify. cbn [world trace]. fold w0. fold t0. fold T1.
  destruct (splat target) as [| p0 rest] eqn:Hsp; [congruence |].
  apply wp_bind. eapply wp_lift; [reflexivity |].
  destruct (Hlive p0) as [s0 Hs0]; [apply elem_of_cons; auto |].
  apply wp_bind. eapply wp_lift; [rewrite Hs0; reflexivity |].
  apply wp_bind, wp_modify. cbn [world trace].
  apply wp_bind, wp_gets. cbn [id world].
  apply wp_bind. eapply wp_lift.
  { apply getAnchor_ok; [discriminate | exact Hlive]. }
  match goal with
  | |- wp _ _ ?s => assert (Hmid : moved w0 T1 (trace st) s)
  end.
  { split; [| split; [reflexivity | exact (extends_refl (moving w0) st)]].
    destruct (kept_refl w0) as [H1 H2 H3 H4].
    split; [exact H1 | exact H2 | exact H3 | exact H4]. }
  apply wp_bind. eapply wp_mono.
  { apply (refresh_states_moved w0 T1 (trace st) target); try assumption.
    rewrite Hsp. exact Hlive. }
  intros u st1 Hm1. apply wp_bind, wp_gets. apply wp_bind, wp_gets. cbn [id].
  destruct Hm1 as (Hk1 & Ht1 & He1).
  apply wp_bind. eapply wp_lift;
    [rewrite (kept_series _ _ p0 Hk1), Hs0; reflexivity |].
  apply wp_bind, wp_modify.
  apply moved_call; [exact Hb | reflexivity | exact I |].
  unfold set_timer.
  apply (moved_tooltip w0 T1 _ (trace st) st1);
    [reflexivity | reflexivity | | split; [exact Hk1 | split; assumption]].
  cbn [t_timer]. rewrite Ht1, (kept_text _ _ Hk1). reflexivity.
Qed.

Lemma still_plotted_ok (w : World) (tps : list nat) :
  (forall p, p ∈ tps -> plotted w p) -> still_plotted w tps = JS.Ok true.
Proof.
  induction tps as [| p tps IH]; intros H; [reflexivity |].
  cbn [still_plotted].
  destruct (H p) as (s & Hs & Hc); [apply elem_of_cons; auto |].
  rewrite Hs. cbn. rewrite IH by (intros q Hq; apply H, elem_of_cons; auto).
  cbn. destruct (s_isCartesian (series w s)); [| reflexivity].
  destruct (Hc eq_refl) as (Hx & _).
  rewrite bool_decide_eq_true_2 by exact Hx. reflexivity.
Qed.

(** The moving branch keeps the world but for the refreshed tooltip and the
    hover state [refresh] sets, and every call made is a call of the
    moving branch. *)
Lemma reset_move_frame (st : St) :
  state_setters_only ->
  (forall p, p ∈ from_option splat [] (tooltipPoints (world st)) ->
             plotted (world st) p) ->
  wp (reset_move (hoverPoint (world st)) (hoverPoints (world st))
        (tooltipPoints (world st)) (hasTooltip (world st)))
     (fun _ => moved (world st) (t_timer (tooltip (refreshed (world st))))
                 (trace st)) st.
Proof.
  intros Hb Hpl. unfold reset_move, refreshed.
  set (w0 := world st) in *.
  destruct (tooltipPoints w0) as [target |] eqn:Htp;
    [| apply wp_ret, moved_start; reflexivity].
  cbn [from_option] in Hpl.
  apply wp_when.
  destruct (hasTooltip w0 && negb (bool_decide (splat target = []))) eqn:Hc;
    [| apply moved_start; reflexivity].
  apply andb_true_iff in Hc as [Hhas Hne].
  apply negb_true_iff, bool_decide_eq_false in Hne.
  cbn [set_timer set_tooltip tooltip t_timer].
  set (T := HideTimer.refresh defers (t_timer (tooltip w0))
              (t_textIsFalse (tooltip w0))).
  apply wp_bind. eapply wp_mono;
    [apply (tooltip_refresh_moved st target Hb Htp Hhas Hne Hpl) |].
  fold w0. fold T. intros u st1 Hm1.
  apply wp_bind, wp_gets. rewrite (kept_shared _ _ (proj1 Hm1)).
  destruct (tooltipPoints_cases _ _ Htp Hhas)
    as [(Es & ps & -> & Hps) | (Es & p & -> & Hp)]; rewrite Es.
  - rewrite Hps. cbn [splat] in Hpl.
    apply (wp_forEach (moved w0 T (trace st))); [| exact Hm1].
    intros pt st' Hpt Hm'. apply wp_bind, wp_gets. cbn [id]. apply wp_bind.
    unfold call_on. apply wp_bind. apply wp_method_of.
    { rewrite (kept_series _ _ pt (proj1 Hm')).
      destruct (Hpl pt Hpt) as (s & Hs & _). rewrite Hs. eauto. }
    eapply wp_mono.
    { apply moved_call; [exact Hb | reflexivity | | exact Hm'].
      apply kept_state, Hm'. }
    intros u' st'' Hm''. apply moved_own_crosshairs; auto.
  - rewrite Hp. cbn [splat] in Hpl.
    apply wp_bind, wp_gets. cbn [id]. apply wp_bind.
    unfold call_on. apply wp_bind. apply wp_method_of.
    { rewrite (kept_series _ _ p (proj1 Hm1)).
      destruct (Hpl p) as (s & Hs & _); [apply list_elem_of_singleton; auto |].
      rewrite Hs. eauto. }
    eapply wp_mono.
    { apply moved_call; [exact Hb | reflexivity | | exact Hm1].
      apply kept_state, Hm1. }
    intros u' st' Hm'. apply wp_bind, wp_gets.
    apply (wp_forEach (moved w0 T (trace st))); [| exact Hm'].
    intros a st'' _ Hm''. apply wp_bind, wp_gets. apply wp_when.
    destruct (bool_decide _); [| exact Hm''].
    apply moved_call; [exact Hb | reflexivity | exact I | exact Hm''].
Qed.

(** A refresh whose formatter does not return [false] hides nothing: the
    tooltip is not hidden unless it already was, and no timer is added. *)
Lemma refreshed_not_hidden (w : World) :
  t_textIsFalse (tooltip w) = false ->
  (HideTimer.isHidden (t_timer (tooltip (refreshed w))) = true ->
   HideTimer.isHidden (t_timer (tooltip w)) = true) /\
  (forall id, is_Some (HideTimer.pending (t_timer (tooltip (refreshed w))) !! id) ->
              is_Some (HideTimer.pending (t_timer (tooltip w)) !! id)).
Proof.
  intros Htext.
  assert (Hsame :
    (HideTimer.isHidden (t_timer (tooltip w)) = true ->
     HideTimer.isHidden (t_timer (tooltip w)) = true) /\
    (forall id, is_Some (HideTimer.pending (t_timer (tooltip w)) !! id) ->
                is_Some (HideTimer.pending (t_timer (tooltip w)) !! id)))
    by (split; [intros H; exact H | intros id H; exact H]).
  unfold refreshed.
  destruct (tooltipPoints w) as [target |]; [| exact Hsame].
  destruct (hasTooltip w && _); [| exact Hsame].
  cbn [set_timer set_tooltip tooltip t_timer]. rewrite Htext.
  unfold HideTimer.refresh.
  destruct (HideTimer.enabled (t_timer (tooltip w))); cbn [negb];
    [| exact Hsame].
  cbn. split; [discriminate |].
  intros id. destruct (HideTimer.hideTimer (t_timer (tooltip w))) as [i |]; cbn;
    [| auto].
  destruct (decide (i = id)) as [-> | Hne].
  - rewrite lookup_delete_eq. intros [? ?]. discriminate.
  - rewrite lookup_delete_ne by exact Hne. auto.
Qed.



(** When [getHoverData] finds no point it returns no series and no
    points. *)
Lemma getHoverData_none (w : World) (ehp ehs : option nat)
    (all : list nat) (dt shared : bool) (e : Event) (hd : HoverData) :
  getHoverData w ehp ehs all dt shared e = JS.Ok hd ->
  hd_hoverPoint hd = None ->
  hd_hoverSeries hd = None /\ hd_hoverPoints hd = [].
Proof.
  unfold getHoverData.
  match goal with |- context [match ?f with Some _ => _ | None => _ end = _] =>
    destruct f as [hp |] end.
  - destruct shared; cbn.
    + destruct (p_series (point w hp)); cbn; [| discriminate].
      intros [= <-]. discriminate.
    + intros [= <-]. discriminate.
  - intros [= <-]. auto.
Qed.

(** The calls [runPointActions] makes when it has no hover point. *)
Definition listening (w0 : World) (c : Call) : Prop :=
  match c with
  | AddDocMouseMove => unDocMouseMove w0 = false
  | HideCrosshair _ | DrawCrosshair _ None => True
  | _ => False
  end.



End Reactions.

#[global] Instance Call_eq_dec : EqDecision Call.
Proof. solve_decision. Defined.

(** Reactions that do nothing. *)
Definition no_reaction (c : Call) (w : World) : World := w.

(** Reactions in which the handler of call [c] destroys point [hp]. *)
Definition destroys_on (c : Call) (hp : nat) (c' : Call) (w : World) : World :=
  if decide (c' = c) then destroy_point hp w else w.

(** A chart with one cartesian line series on axes 0 and 1; point [q] of
    the series sits at [x = q]; the series' search finds point 1.  Point 0
    is hovered and its tooltip is shown. *)
Definition line_series : SeriesObj :=
  {| kd := {| Nearest.noSharedTooltip := false;
              Nearest.findNearestPointBy := "x";
              Nearest.searchPoint := fun _ _ =>
                Some {| Nearest.pid := 1; Nearest.distX := 2; Nearest.dist := 2;
                        Nearest.series :=
                          {| Nearest.group := Some {| Nearest.zIndex := 1 |};
                             Nearest.index := 0 |} |} |};
     s_visible := true; s_directTouch := false; s_stickyTracking := true;
     s_enableMouseTracking := None; s_inactiveOtherPoints := false;
     s_followPointer := false; s_isCartesian := true;
     s_xAxis := Some 0%nat; s_yAxis := Some 1%nat; s_points := [0%nat; 1%nat];
     s_getPoint := fun q => q;
     s_linkedParent := None; s_linkedSeries := None;
     s_navigatorSeries := None |}.

Definition shown_timer : HideTimer.World :=
  {| HideTimer.enabled := true; HideTimer.hideDelay := Some 0;
     HideTimer.isHidden := false; HideTimer.hideTimer := None;
     HideTimer.label := [HideTimer.Show; HideTimer.Render];
     HideTimer.pending := ∅; HideTimer.next := 0 |}.

Definition hovering (textIsFalse : bool) : World :=
  {| hoverPoint := Some 0%nat; hoverSeries := Some 0%nat;
     hoverPoints := Some [0%nat];
     chartSeries := [0%nat]; chartAxes := [0%nat; 1%nat];
     isBoosting := false; hasTooltip := true;
     tooltip := {| t_timer := shown_timer; t_shared := false;
                   t_followPointer := false;
                   t_textIsFalse := textIsFalse |};
     unDocMouseMove := true; isDirectTouch := false; hoverX := None;
     point := fun q => {| p_series := Some 0%nat; p_x := Z.of_nat q;
                          p_isNull := false; p_plotX := Some (10 * Z.of_nat q);
                          p_tooltipPos := false;
                          p_state := Some "hover"%string |};
     series := fun _ => line_series;
     axis := fun a => {| a_crosshair := None;
                         a_coll := if Nat.eqb a 0 then xAxis else yAxis |} |}.

Definition mousemove : Event :=
  {| type := "mousemove";
     at_ := {| Nearest.chartX := 20; Nearest.chartY := 30 |} |}.

(** The chart of [hovering] with a second series, which is not active
    while a point of the first is hovered. *)
Definition two_series : World :=
  {| hoverPoint := Some 0%nat; hoverSeries := Some 0%nat;
     hoverPoints := Some [0%nat];
     chartSeries := [0%nat; 1%nat]; chartAxes := [0%nat; 1%nat];
     isBoosting := false; hasTooltip := true;
     tooltip := tooltip (hovering false);
     unDocMouseMove := true; isDirectTouch := false; hoverX := None;
     point := point (hovering false);
     series := series (hovering false);
     axis := axis (hovering false) |}.

(** The chart of [hovering] with a shared tooltip, its hover point shown
    as selected. *)
Definition shared_selected : World :=
  {| hoverPoint := Some 0%nat; hoverSeries := Some 0%nat;
     hoverPoints := Some [0%nat];
     chartSeries := [0%nat]; chartAxes := [0%nat; 1%nat];
     isBoosting := false; hasTooltip := true;
     tooltip := {| t_timer := shown_timer; t_shared := true;
                   t_followPointer := false; t_textIsFalse := false |};
     unDocMouseMove := true; isDirectTouch := false; hoverX := None;
     point := fun q => in_state (Some "select"%string)
                         (point (hovering false) q);
     series := series (hovering false);
     axis := axis (hovering false) |}.

(** The chart of [hovering] with point 1 hovered and a series whose
    tooltip follows the pointer; [follows] is the tooltip's own
    [followPointer]. *)
Definition following (follows : bool) : World :=
  {| hoverPoint := Some 1%nat; hoverSeries := Some 0%nat;
     hoverPoints := Some [1%nat];
     chartSeries := [0%nat]; chartAxes := [0%nat; 1%nat];
     isBoosting := false; hasTooltip := true;
     tooltip := {| t_timer := shown_timer; t_shared := false;
                   t_followPointer := follows; t_textIsFalse := false |};
     unDocMouseMove := true; isDirectTouch := false; hoverX := None;
     point := point (hovering false);
     series := fun _ =>
       {| kd := kd line_series;
          s_visible := true; s_directTouch := false; s_stickyTracking := true;
          s_enableMouseTracking := None; s_inactiveOtherPoints := false;
          s_followPointer := true; s_isCartesian := true;
          s_xAxis := Some 0%nat; s_yAxis := Some 1%nat;
          s_points := [0%nat; 1%nat]; s_getPoint := fun q => q;
          s_linkedParent := None; s_linkedSeries := None;
          s_navigatorSeries := None |};
     axis := axis (hovering false) |}.

(** The moving reset as the specification words it, with handlers that do
    no more than the calls are for: the hover fields, every point's visual
    state and the listener are unchanged, and the tooltip is not hidden. *)
Definition only_moves_tooltip (st : St) : Prop :=
  (forall p, p ∈ from_option splat [] (tooltipPoints (world st)) ->
             plotted (world st) p) ->
  exists st',
    reset applies_state HideTimer.positive_delay true None st
      = JS.Ok (tt, st') /\
    hoverPoint (world st') = hoverPoint (world st) /\
    hoverSeries (world st') = hoverSeries (world st) /\
    hoverPoints (world st') = hoverPoints (world st) /\
    (forall q, p_state (point (world st') q) = p_state (point (world st) q)) /\
    unDocMouseMove (world st') = unDocMouseMove (world st) /\
    (HideTimer.isHidden (t_timer (tooltip (world st'))) = true ->
     HideTimer.isHidden (t_timer (tooltip (world st))) = true).

Lemma hovering_plotted (w : World) :
  point w = point (hovering false) -> series w = series (hovering false) ->
  forall p, plotted w p.
Proof.
  intros Hp Hs p. exists 0%nat. rewrite Hp, Hs.
  split; [reflexivity |]. intros _. cbn. eauto.
Qed.



(** C8: [runPointActions] does not always return when an earlier step of
    the reconciliation destroys the resolved point.  On a chart that hovers
    point 0, a pointer move resolves point 1.  When the handler run by the
    state-clearing step destroys point 1, the computation of the active
    series reads [series.linkedParent] on [null] and raises; when the
    handler run by the inactive-state step destroys it, the hover-state
    step calls the [setState] the point has lost, and raises.  Both happen
    before the liveness check.  When the mouse-out handler destroys the
    point, the check that follows makes the function return: no mouse-over
    is fired, [hoverPoint] and [hoverPoints] are not committed, and the
    tooltip, the listener and the crosshairs are not touched. *)
Theorem runPointActions_raises_before_liveness_check :
  runPointActions (destroys_on (PointSetState 0 None false) 1)
    HideTimer.positive_delay mousemove None
    {| world := hovering false; trace := [] |} = JS.TypeError /\
  runPointActions (destroys_on (SeriesSetInactive 1) 1)
    HideTimer.positive_delay mousemove None
    {| world := two_series; trace := [] |} = JS.TypeError /\
  exists st1,
    runPointActions (destroys_on (FirePointEvent 0 "mouseOut") 1)
      HideTimer.positive_delay mousemove None
      {| world := hovering false; trace := [] |} = JS.Ok (tt, st1) /\
    trace st1 = [PointSetState 0 None false;
                 PointSetState 1 (Some "hover"%string) false;
                 FirePointEvent 0 "mouseOut"] /\
    hoverPoint (world st1) = Some 0%nat /\
    hoverPoints (world st1) = Some [0%nat] /\
    p_series (point (world st1) 1) = None.
Proof.
  split; [vm_compute; reflexivity |].
  split; [vm_compute; reflexivity |].
  eexists. split; [vm_compute; reflexivity |]. repeat split.
Qed.

(** Without one of these handlers the same pointer move hovers point 1:
    the pass ends with the mouse-over, the commit and the refresh. *)
Lemma runPointActions_moves_hover :
  exists st1,
    runPointActions applies_state HideTimer.positive_delay mousemove None
      {| world := hovering false; trace := [] |} = JS.Ok (tt, st1) /\
    trace st1 = [PointSetState 0 None false;
                 PointSetState 1 (Some "hover"%string) false;
                 FirePointEvent 0 "mouseOut";
                 FirePointEvent 1 "mouseOver";
                 TooltipRefresh [1%nat];
                 DrawCrosshair 0 (Some 1%nat);
                 DrawCrosshair 1 (Some 1%nat)] /\
    hoverPoint (world st1) = Some 1%nat /\
    hoverPoints (world st1) = Some [1%nat] /\
    p_state (point (world st1) 0) = None.
Proof. eexists. split; [vm_compute; reflexivity |]. repeat split. Qed.

(** The branch that moves a tooltip which follows the pointer: the anchor
    is asked for the object [{}], which has no series; the call returns
    when the tooltip's own [followPointer] is set, and raises when it is
    not. *)
Lemma runPointActions_follow :
  (exists st1,
     runPointActions applies_state HideTimer.positive_delay mousemove None
       {| world := following true; trace := [] |} = JS.Ok (tt, st1) /\
     trace st1 = [TooltipFollow; DrawCrosshair 0 (Some 1%nat);
                  DrawCrosshair 1 (Some 1%nat)]) /\
  runPointActions applies_state HideTimer.positive_delay mousemove None
    {| world := following false; trace := [] |} = JS.TypeError.
Proof.
  split; [eexists; split; vm_compute; reflexivity | vm_compute; reflexivity].
Qed.


(** *** Further properties of the hover resolution *)

(** X12: [getActiveSeries] raises exactly when one of the points has
    lost its series; otherwise its result holds, for every point, the
    point's series, the parent that series is linked to, the series linked
    to it and its navigator series. *)
Theorem getActiveSeries_raises_iff (w : World) (points : list nat) :
  (getActiveSeries w points = JS.TypeError <->
   exists q, q ∈ points /\ p_series (point w q) = None) /\
  (forall l, getActiveSeries w points = JS.Ok l ->
     forall q, q ∈ points ->
       exists s, p_series (point w q) = Some s /\ s ∈ l /\
         (forall par, s_linkedParent (series w s) = Some par -> par ∈ l) /\
         (forall kids k, s_linkedSeries (series w s) = Some kids ->
                         k ∈ kids -> k ∈ l) /\
         (forall nav, s_navigatorSeries (series w s) = Some nav -> nav ∈ l)).
Proof.
  induction points as [| p points [IHe IHo]].
  - split.
    + split; [discriminate |]. intros (q & Hq & _). inversion Hq.
    + intros l _ q Hq. inversion Hq.
  - cbn [getActiveSeries].
    destruct (p_series (point w p)) as [s |] eqn:Es; cbn.
    2: { split.
         - split; [| reflexivity]. intros _. exists p.
           split; [apply elem_of_cons; auto | exact Es].
         - discriminate. }
    destruct (getActiveSeries w points) as [others |] eqn:Eo; cbn.
    + split.
      * split; [discriminate |]. intros (q & Hq & Hn).
        apply elem_of_cons in Hq as [-> | Hq]; [congruence |].
        exfalso. assert (X : JS.Ok others = JS.TypeError (A := list nat))
          by (apply IHe; eauto).
        discriminate X.
      * intros l [= <-] q Hq.
        apply elem_of_cons in Hq as [-> | Hq].
        -- exists s. split; [exact Es |].
           split; [apply elem_of_cons; auto |].
           split; [| split].
           ++ intros par Hp. rewrite Hp. cbn.
              apply elem_of_cons. right. apply elem_of_cons. auto.
           ++ intros kids k Hk Hin. rewrite Hk. cbn [default].
              apply elem_of_cons. right.
              apply elem_of_app. right. apply elem_of_app. left. exact Hin.
           ++ intros nav Hn. rewrite Hn. cbn [option_list].
              apply elem_of_cons. right.
              apply elem_of_app. right. apply elem_of_app. right.
              apply elem_of_cons. auto.
        -- destruct (IHo others eq_refl q Hq) as (s' & Hs' & Hin & Hp & Hk & Hn).
           assert (Hmono : forall z, z ∈ others ->
                     z ∈ s :: option_list (s_linkedParent (series w s))
                          ++ default [] (s_linkedSeries (series w s))
                          ++ option_list (s_navigatorSeries (series w s))
                          ++ others).
           { intros z Hz. apply elem_of_cons. right.
             apply elem_of_app. right. apply elem_of_app. right.
             apply elem_of_app. right. exact Hz. }
           exists s'. split; [exact Hs' |]. split; [auto |].
           split; [| split]; eauto.
    + split.
      * split; [| reflexivity]. intros _.
        destruct (proj1 IHe eq_refl) as (q & Hq & Hn).
        exists q. split; [apply elem_of_cons; auto | exact Hn].
      * discriminate.
Qed.

Lemma length_omap_le {A B : Type} (f : A -> option B) (l : list A) :
  (length (omap f l) <= length l)%nat.
Proof.
  induction l as [| a l IH]; [reflexivity |].
  cbn. destruct (f a); cbn; lia.
Qed.

Lemma length_List_filter_le {A : Type} (f : A -> bool) (l : list A) :
  (length (List.filter f l) <= length l)%nat.
Proof.
  induction l as [| a l IH]; [reflexivity |].
  cbn. destruct (f a); cbn; lia.
Qed.

Lemma find_same_x_spec (w : World) (hx : Z) (s q : nat) :
  find_same_x w hx s = Some q ->
  q ∈ s_points (series w s) /\ p_x (point w q) = hx /\
  p_isNull (point w q) = false.
Proof.
  unfold find_same_x. intros H. apply find_some in H as [Hin Hp].
  apply andb_true_iff in Hp as [Hx Hn].
  apply Z.eqb_eq in Hx. apply negb_true_iff in Hn.
  split; [apply list_elem_of_In; exact Hin | auto].
Qed.

(** X13: what [getHoverData] returns.  Without a hover point there is
    no hover series and no hover points.  With one, the hover series is
    the point's series and the hover points are the point alone, or, for a
    shared tooltip, at most one point per series of the chart, each of
    them (outside boost mode) a non-null point with the hover point's [x]
    taken from a tracked series that shares tooltips.  The function raises
    only for a shared tooltip and a point that has lost its series. *)
Theorem getHoverData_points (w : World) (ehp ehs : option nat)
    (all : list nat) (dt shared : bool) (e : Event) :
  match getHoverData w ehp ehs all dt shared e with
  | JS.Ok hd =>
      match hd_hoverPoint hd with
      | None => hd_hoverSeries hd = None /\ hd_hoverPoints hd = []
      | Some hp =>
          hd_hoverSeries hd = p_series (point w hp) /\
          (hd_hoverPoints hd = [hp] \/
           (shared = true /\
            (length (hd_hoverPoints hd) <= length all)%nat /\
            (isBoosting w = false ->
             forall q, q ∈ hd_hoverPoints hd ->
               p_x (point w q) = p_x (point w hp) /\
               p_isNull (point w q) = false /\
               exists s, s ∈ all /\ tracked w true s = true /\
                         noSharedTooltip w s = false /\
                         q ∈ s_points (series w s))))
      end
  | JS.TypeError => shared = true /\ exists hp, p_series (point w hp) = None
  end.
Proof.
  unfold getHoverData.
  match goal with |- context [match ?f with Some _ => _ | None => _ end] =>
    destruct f as [hp |] end; [| cbn; auto].
  destruct shared; cbn; [| auto].
  destruct (p_series (point w hp)) as [hs |] eqn:Es; cbn; [| eauto].
  split; [symmetry; exact Es |].
  destruct (negb (noSharedTooltip w hs)); [| auto].
  right. split; [reflexivity |]. split.
  - etransitivity; [apply length_omap_le | apply length_List_filter_le].
  - intros Hb q Hq. rewrite Hb in Hq.
    apply list_elem_of_omap in Hq as (s & Hs & Hf).
    apply list_elem_of_In, filter_In in Hs as [Hs Ht].
    apply andb_true_iff in Ht as [Ht Hn]. apply negb_true_iff in Hn.
    destruct (find_same_x w (p_x (point w hp)) s) as [q' |] eqn:Ef;
      [| discriminate].
    cbn in Hf. injection Hf as <-.
    apply find_same_x_spec in Ef as (Hin & Hx & Hnull).
    repeat split; auto.
    exists s. repeat split; auto. apply list_elem_of_In. exact Hs.
Qed.


(** The chart of [hovering] after its series was removed: the hover
    references are still there, and no series is searched. *)
Definition series_removed : World :=
  {| hoverPoint := Some 0%nat; hoverSeries := Some 0%nat;
     hoverPoints := Some [0%nat];
     chartSeries := []; chartAxes := [0%nat; 1%nat];
     isBoosting := false; hasTooltip := true;
     tooltip := tooltip (hovering false);
     unDocMouseMove := false; isDirectTouch := false; hoverX := None;
     point := point (hovering false);
     series := series (hovering false);
     axis := axis (hovering false) |}.



End Hover.

(** ** The tooltip's glide to a new position ([Tooltip.move]) *)

Module Glide.

Local Open Scope Q_scope.

(** The arguments of one [move] call. *)
Record Target : Type := { tx : Q; ty : Q; tanchorX : Q; tanchorY : Q }.

(** [tooltip.now].  The anchor fields start out [undefined] and hold
    [NaN] after arithmetic on [undefined]. *)
Record Now : Type := {
  x : Q;
  y : Q;
  anchorX : option JS.num;
  anchorY : option JS.num
}.

(** The tooltip's fields involved, and the host's timer table restricted
    to the callbacks [move] sets: [pending] maps the identifier of every
    timer that was set and has neither fired nor been cleared to the
    arguments its callback passes on. *)
Record World : Type := {
  animation : bool;               (* [options.animation !== false] *)
  isHidden : bool;
  followPointer : bool;
  len : option Z;
  now : Now;
  label : list Now;               (* [label.attr(now)] calls, oldest first *)
  tooltipTimeout : option nat;
  pending : gmap nat Target;
  next : nat
}.

(** [Tooltip.init]: [now = { x: 0, y: 0 }], hidden. *)
Definition init (anim : bool) : World :=
  {| animation := anim; isHidden := true; followPointer := false; len := None;
     now := {| x := 0; y := 0; anchorX := None; anchorY := None |};
     label := []; tooltipTimeout := None; pending := ∅; next := 0 |}.

(** [(k * a + b) / d] on a field that may be [undefined] or [NaN]. *)
Definition blend (k : Q) (a : option JS.num) (b d : Q) : JS.num :=
  match a with
  | Some (JS.Num q) => JS.Num ((k * q + b) / d)
  | _ => JS.NaN
  end.

(** Modelled from the spec: [H.clearTimeout] is defined in Utilities.js,
    which is not among the sources; as in [HideTimer], it cancels the
    timer [id] when [id] is defined. *)
Definition clearTimeout (id : option nat) (pending : gmap nat Target)
    : gmap nat Target :=
  match id with
  | Some i => delete i pending
  | None => pending
  end.

(** The locals [animate] and [skipAnchor] of [move]. *)
Definition animate (w : World) (t : Target) : bool :=
  animation w && negb (isHidden w) &&
  (* when we get close to the target position, abort animation and land
     on the right place (#3056) *)
  (JS.Qltb 1 (Qabs (tx t - x (now w))) || JS.Qltb 1 (Qabs (ty t - y (now w)))).

Definition skipAnchor (w : World) : bool :=
  followPointer w ||
  match len w with Some l => (1 <? l)%Z | None => false end.

Definition move (w : World) (t : Target) : World :=
  let n := now w in
  let animate := animate w t in
  let skipAnchor := skipAnchor w in
  (* get intermediate values for animation *)
  let n' :=
    {| x := if animate then (2 * x n + tx t) / 3 else tx t;
       y := if animate then (y n + ty t) / 2 else ty t;
       anchorX :=
         if skipAnchor then None
         else Some (if animate then blend 2 (anchorX n) (tanchorX t) 3
                    else JS.Num (tanchorX t));
       anchorY :=
         if skipAnchor then None
         else Some (if animate then blend 1 (anchorY n) (tanchorY t) 2
                    else JS.Num (tanchorY t)) |} in
  (* run on next tick of the mouse tracker; never allow two timeouts *)
  {| animation := animation w; isHidden := isHidden w;
     followPointer := followPointer w; len := len w;
     now := n'; label := label w ++ [n'];
     tooltipTimeout := if animate then Some (next w) else tooltipTimeout w;
     pending :=
       if animate then
         <[next w := t]> (clearTimeout (tooltipTimeout w) (pending w))
       else pending w;
     next := if animate then S (next w) else next w |}.

(** The host runs the callback of timer [id]: the timer leaves the table
    and the callback calls [move] with the arguments it closed over. *)
Definition fire (w : World) (id : nat) : World :=
  match pending w !! id with
  | Some t =>
      move {| animation := animation w; isHidden := isHidden w;
              followPointer := followPointer w; len := len w;
              now := now w; label := label w;
              tooltipTimeout := tooltipTimeout w;
              pending := delete id (pending w); next := next w |} t
  | None => w
  end.

(** The tooltip is shown or hidden in between ([refresh], the callback of
    [hide]). *)
Definition set_isHidden (b : bool) (w : World) : World :=
  {| animation := animation w; isHidden := b;
     followPointer := followPointer w; len := len w;
     now := now w; label := label w;
     tooltipTimeout := tooltipTimeout w;
     pending := pending w; next := next w |}.

Inductive Op : Type :=
| Move (t : Target)
| Fire (id : nat)
| SetHidden (b : bool).

Definition step (w : World) (o : Op) : World :=
  match o with
  | Move t => move w t
  | Fire id => fire w id
  | SetHidden b => set_isHidden b w
  end.

Definition steps (w : World) (os : list Op) : World := fold_left step os w.

(** The host runs the timer the tooltip recorded last, if it is still
    pending. *)
Definition tick (w : World) : World :=
  match tooltipTimeout w with
  | Some id => fire w id
  | None => w
  end.

(** "Never allow two timeouts": only the recorded timer can be pending. *)
Definition single_timer (w : World) : Prop :=
  forall id, is_Some (pending w !! id) -> tooltipTimeout w = Some id.

(** The tooltip rests at [t]: it stands there and no tick is pending. *)
Definition rests_at (t : Target) (w : World) : Prop :=
  pending w = ∅ /\ x (now w) = tx t /\ y (now w) = ty t.

(** Both coordinates are within [d] of the target. *)
Definition within (d : Q) (t : Target) (w : World) : Prop :=
  Qabs (tx t - x (now w)) <= d /\ Qabs (ty t - y (now w)) <= d.

Fixpoint pow32 (n : nat) : Q :=
  match n with
  | O => 1
  | S m => (3 # 2) * pow32 m
  end.

Lemma pow32_linear (n : nat) : 1 + inject_Z (Z.of_nat n) / 2 <= pow32 n.
Proof.
  induction n as [| n IH].
  - vm_compute. discriminate.
  - cbn [pow32]. rewrite Nat2Z.inj_succ. unfold Z.succ.
    rewrite inject_Z_plus.
    assert (H0 : 0 <= inject_Z (Z.of_nat n)).
    { change 0 with (inject_Z 0). rewrite <- Zle_Qle. lia. }
    change (inject_Z 1) with 1.
    unfold Qdiv in *. change (/ 2) with (1 # 2) in *. lra.
Qed.

Lemma pow32_reaches (d : Q) : exists n, d <= pow32 n.
Proof.
  exists (2 * Z.to_nat (Qceiling d))%nat.
  eapply Qle_trans; [| apply pow32_linear].
  pose proof (Qle_ceiling d) as Hc.
  assert (Hz : inject_Z (Qceiling d)
               <= inject_Z (Z.of_nat (Z.to_nat (Qceiling d)))).
  { rewrite <- Zle_Qle. lia. }
  rewrite Nat2Z.inj_mul, inject_Z_mult.
  change (inject_Z (Z.of_nat 2)) with 2.
  unfold Qdiv. change (/ 2) with (1 # 2).
  assert (H0 : 0 <= inject_Z (Z.of_nat (Z.to_nat (Qceiling d)))).
  { change 0 with (inject_Z 0). rewrite <- Zle_Qle. lia. }
  lra.
Qed.

Lemma Qabs_scale_23 (a b : Q) :
  Qabs (a - (2 * b + a) / 3) == (2 # 3) * Qabs (a - b).
Proof.
  assert (E : a - (2 * b + a) / 3 == (2 # 3) * (a - b)) by field.
  rewrite E, Qabs_Qmult. reflexivity.
Qed.

Lemma Qabs_scale_12 (a b : Q) :
  Qabs (a - (b + a) / 2) == (1 # 2) * Qabs (a - b).
Proof.
  assert (E : a - (b + a) / 2 == (1 # 2) * (a - b)) by field.
  rewrite E, Qabs_Qmult. reflexivity.
Qed.

Lemma Qltb_false (a b : Q) : b <= a -> JS.Qltb a b = false.
Proof.
  intros H. destruct (JS.Qltb a b) eqn:E; [| reflexivity].
  apply JS.Qltb_lt in E. lra.
Qed.

(** Within one pixel of the target [move] lands on it and touches no
    timer. *)
Lemma move_close (w : World) (t : Target) :
  within 1 t w ->
  x (now (move w t)) = tx t /\ y (now (move w t)) = ty t /\
  pending (move w t) = pending w /\
  tooltipTimeout (move w t) = tooltipTimeout w.
Proof.
  intros [Hx Hy].
  assert (E : animate w t = false).
  { unfold animate. rewrite (Qltb_false _ _ Hx), (Qltb_false _ _ Hy).
    apply andb_false_r. }
  unfold move. rewrite E. cbn. auto.
Qed.

Lemma move_not_animated (w : World) (t : Target) :
  animate w t = false ->
  x (now (move w t)) = tx t /\ y (now (move w t)) = ty t /\
  pending (move w t) = pending w.
Proof. intros E. unfold move. rewrite E. cbn. auto. Qed.

(** An animated [move] with nothing else pending, and the tick it
    schedules: the tick is a [move] to the same target from a position
    nearer to it. *)
Lemma tick_move_animated (w : World) (t : Target) (d : Q) :
  pending w = ∅ -> animate w t = true -> within ((3 # 2) * d) t w ->
  exists w', tick (move w t) = move w' t /\ pending w' = ∅ /\ within d t w'.
Proof.
  intros Hp E [Hx Hy].
  unfold tick, move at 1. rewrite E. cbn [tooltipTimeout].
  unfold fire. unfold move at 1. rewrite E. cbn [pending].
  rewrite lookup_insert_eq.
  eexists. split; [reflexivity |].
  unfold move. rewrite E. cbn [pending now x y]. split.
  - rewrite delete_insert_eq, Hp. unfold clearTimeout.
    destruct (tooltipTimeout w); rewrite ?delete_empty; reflexivity.
  - unfold within. cbn [now x y].
    rewrite Qabs_scale_23, Qabs_scale_12.
    pose proof (Qabs_nonneg (ty t - y (now w))). split; lra.
Qed.

Lemma settles_from (N : nat) :
  forall (w : World) (t : Target),
    pending w = ∅ -> within (pow32 N) t w ->
    exists n, rests_at t (Nat.iter n tick (move w t)).
Proof.
  induction N as [| N IH]; intros w t Hp Hw.
  - exists 0%nat. cbn [Nat.iter nat_rect pow32] in *.
    destruct (move_close w t Hw) as (Hx & Hy & Hq & _).
    unfold rests_at. rewrite Hq. auto.
  - destruct (animate w t) eqn:E.
    + destruct (tick_move_animated w t (pow32 N) Hp E Hw)
        as (w' & Ht & Hp' & Hw').
      destruct (IH w' t Hp' Hw') as [n Hn].
      exists (S n). rewrite Nat.iter_succ_r, Ht. exact Hn.
    + exists 0%nat. cbn [Nat.iter nat_rect].
      destruct (move_not_animated w t E) as (Hx & Hy & Hq).
      unfold rests_at. rewrite Hq. auto.
Qed.

(** X7: a [move] with no tick pending, followed by the ticks it
    schedules for itself, comes to rest on its target after finitely many
    of them: the last one lands there and schedules nothing. *)
Theorem move_settles (w : World) (t : Target) :
  pending w = ∅ ->
  exists n, rests_at t (Nat.iter n tick (move w t)).
Proof.
  intros Hp.
  destruct (pow32_reaches (Qabs (tx t - x (now w)) + Qabs (ty t - y (now w))))
    as [N HN].
  apply (settles_from N); [exact Hp |].
  pose proof (Qabs_nonneg (tx t - x (now w))).
  pose proof (Qabs_nonneg (ty t - y (now w))).
  split; lra.
Qed.

Lemma single_timer_move (w : World) (t : Target) :
  single_timer w -> single_timer (move w t).
Proof.
  unfold single_timer, move. intros H id.
  destruct (animate w t); cbn [pending tooltipTimeout]; [| apply H].
  destruct (decide (id = next w)) as [-> | Hne]; [reflexivity |].
  rewrite lookup_insert_ne by congruence.
  intros Hsome. exfalso. unfold clearTimeout in Hsome.
  destruct (tooltipTimeout w) as [i |] eqn:Ei.
  - destruct (decide (id = i)) as [-> | Hni].
    + rewrite lookup_delete_eq in Hsome. destruct Hsome; discriminate.
    + rewrite lookup_delete_ne in Hsome by congruence.
      apply H in Hsome. congruence.
  - apply H in Hsome. congruence.
Qed.

Lemma single_timer_step (w : World) (o : Op) :
  single_timer w -> single_timer (step w o).
Proof.
  intros H. destruct o as [t | id | b]; cbn [step].
  - apply single_timer_move, H.
  - unfold fire. destruct (pending w !! id) as [t |] eqn:E; [| exact H].
    apply single_timer_move. intros j. cbn [pending tooltipTimeout].
    intros Hj. destruct (decide (j = id)) as [-> | Hne].
    + rewrite lookup_delete_eq in Hj. destruct Hj; discriminate.
    + rewrite lookup_delete_ne in Hj by congruence. apply H, Hj.
  - exact H.
Qed.

(** X8: "never allow two timeouts": whatever moves, timer firings and
    changes of visibility a fresh tooltip goes through, at most one tick
    is pending, and it is the one the tooltip recorded. *)
Theorem move_never_two_timeouts (anim : bool) (os : list Op) :
  single_timer (steps (init anim) os) /\
  forall i j,
    is_Some (pending (steps (init anim) os) !! i) ->
    is_Some (pending (steps (init anim) os) !! j) -> i = j.
Proof.
  assert (Hinit : single_timer (init anim)).
  { intros id [t Ht]. cbn in Ht. rewrite lookup_empty in Ht. discriminate. }
  assert (Hall : forall l w, single_timer w -> single_timer (steps w l)).
  { induction l as [| o l IH]; intros w Hw; [exact Hw |].
    apply (IH (step w o)), single_timer_step, Hw. }
  pose proof (Hall os _ Hinit) as H.
  split; [exact H |].
  intros i j Hi Hj. apply H in Hi, Hj. congruence.
Qed.

(** X9: a [move] to a place within one pixel lands there but leaves a
    pending tick alone; when that tick fires, the tooltip goes on to the
    target of the earlier [move] and comes to rest there. *)
Theorem move_close_keeps_older_target
    (w : World) (id : nat) (older t : Target) :
  pending w = {[ id := older ]} ->
  tooltipTimeout w = Some id ->
  within 1 t w ->
  x (now (move w t)) = tx t /\ y (now (move w t)) = ty t /\
  pending (move w t) = {[ id := older ]} /\
  exists n, rests_at older (Nat.iter (S n) tick (move w t)).
Proof.
  intros Hp Hid Hw.
  destruct (move_close w t Hw) as (Hx & Hy & Hq & Hr).
  repeat split; [exact Hx | exact Hy | congruence |].
  assert (Ht : exists w', tick (move w t) = move w' older /\ pending w' = ∅).
  { unfold tick, fire. rewrite Hr, Hid, Hq, Hp, lookup_singleton_eq.
    eexists. split; [reflexivity |]. cbn [pending].
    rewrite ?Hq, ?Hp. apply delete_singleton_eq. }
  destruct Ht as (w' & Ht & Hp').
  destruct (move_settles w' older Hp') as [n Hn].
  exists n. rewrite Nat.iter_succ_r, Ht. exact Hn.
Qed.


(** A shown tooltip at the origin, and a target far from it. *)
Definition shown : World := set_isHidden false (init true).
Definition far : Target :=
  {| tx := 90; ty := 60; tanchorX := 80; tanchorY := 60 |}.
(** The place the first tick of the glide to [far] reaches. *)
Definition nearby : Target :=
  {| tx := 30; ty := 30; tanchorX := 20; tanchorY := 30 |}.

Lemma move_settles_witness :
  exists n, rests_at far (Nat.iter n tick (move shown far)).
Proof. apply (move_settles shown far). reflexivity. Defined.

(** While the glide to [far] is under way, a [move] to where the tooltip
    stands does not stop it. *)
Lemma move_close_keeps_older_target_witness :
  x (now (move (move shown far) nearby)) = tx nearby /\
  y (now (move (move shown far) nearby)) = ty nearby /\
  pending (move (move shown far) nearby) = {[ 0%nat := far ]} /\
  exists n, rests_at far (Nat.iter (S n) tick (move (move shown far) nearby)).
Proof.
  apply (move_close_keeps_older_target (move shown far) 0%nat far nearby).
  - reflexivity.
  - reflexivity.
  - split; vm_compute; discriminate.
Defined.


End Glide.

(** ** Walks up the element tree ([Pointer.inClass]) *)

Module Dom.

Local Open Scope string_scope.

(** An element as [inClass] sees it: its [class] attribute.  A list of
    elements is an element followed by its ancestors, up to the root. *)
Record Element : Type := { class : option string }.

(** [hay.indexOf(needle) !== -1] *)
Fixpoint contains (needle hay : string) : bool :=
  String.prefix needle hay ||
  match hay with
  | EmptyString => false
  | String _ rest => contains needle rest
  end.

(** The element has a non-empty class attribute that contains [cls]. *)
Definition has (cls : string) (el : Element) : bool :=
  match class el with
  | Some c => negb (String.eqb c "") && contains cls c
  | None => false
  end.

(** [inClass(element, className)]: [true], [false] or [undefined]. *)
Fixpoint inClass (element : list Element) (className : string)
    : option bool :=
  match element with
  | [] => None
  | el :: parents =>
      match class el with
      | Some elemClassName =>
          if negb (String.eqb elemClassName "") then
            if contains className elemClassName then Some true
            else if contains "highcharts-container" elemClassName
                 then Some false
                 else inClass parents className
          else inClass parents className
      | None => inClass parents className
      end
  end.

Lemma inClass_step (el : Element) (parents : list Element) (cls : string) :
  inClass (el :: parents) cls =
    if has cls el then Some true
    else if has "highcharts-container" el then Some false
         else inClass parents cls.
Proof.
  cbn [inClass]. unfold has. destruct (class el) as [c |]; [| reflexivity].
  destruct (negb (String.eqb c "")); [| reflexivity].
  cbn [andb]. reflexivity.
Qed.

(** X15: the walk never goes above the chart container.  For an element
    inside a container, the result is defined and tells whether the
    element, one of its ancestors below the container, or the container
    itself carries the class; what lies above the container is not
    looked at. *)
Theorem inClass_stops_at_container
    (below above : list Element) (container : Element) (cls : string) :
  Forall (fun el => has "highcharts-container" el = false) below ->
  has "highcharts-container" container = true ->
  inClass (below ++ container :: above) cls
    = Some (existsb (has cls) (below ++ [container])).
Proof.
  intros Hbelow Hc. induction Hbelow as [| el below Hel _ IH].
  - cbn [app existsb]. rewrite inClass_step, Hc.
    destruct (has cls container); reflexivity.
  - cbn [app existsb]. rewrite inClass_step, Hel, IH.
    destruct (has cls el); reflexivity.
Qed.

(** Outside a chart container the walk reaches the root: the result is
    [true] or [undefined], never [false]. *)
Lemma inClass_outside (chain : list Element) (cls : string) :
  Forall (fun el => has "highcharts-container" el = false) chain ->
  inClass chain cls = if existsb (has cls) chain then Some true else None.
Proof.
  intros H. induction H as [| el chain Hel _ IH]; [reflexivity |].
  cbn [existsb]. rewrite inClass_step, Hel, IH.
  destruct (has cls el); reflexivity.
Qed.

(** A point's graphic inside the tracker group of a series, inside the
    container, inside a page element that happens to be called a
    tracker. *)
Definition graphic : Element := {| class := Some "highcharts-point" |}.
Definition tracker_group : Element :=
  {| class := Some "highcharts-series highcharts-series-0 highcharts-tracker" |}.
Definition root_svg : Element := {| class := Some "highcharts-root" |}.
Definition chart_container : Element :=
  {| class := Some "highcharts-container " |}.
Definition page : Element := {| class := Some "highcharts-tooltip" |}.

Lemma inClass_stops_at_container_witness :
  inClass ([graphic; tracker_group; root_svg] ++ chart_container :: [page])
          "highcharts-tooltip"
    = Some (existsb (has "highcharts-tooltip")
              ([graphic; tracker_group; root_svg] ++ [chart_container])).
Proof.
  apply (inClass_stops_at_container [graphic; tracker_group; root_svg]
           [page] chart_container "highcharts-tooltip").
  - repeat constructor.
  - reflexivity.
Defined.

End Dom.

(** ** From press to click ([Pointer.zoomOption],
    [Pointer.onContainerMouseDown], [Pointer.getCoordinates],
    [Pointer.onContainerClick]) *)

Module Click.

Import Gesture.

Local Open Scope Z_scope.

(** [chart.options.chart.zoomType], [chart.options.chart.pinchType] and
    [chart.inverted]. *)
Record ZoomOptions : Type := {
  zoomType : option string;
  pinchType : option string;
  inverted : bool
}.

(** [zoomOption]: the pointer with its zoom flags set, and [hasZoom]. *)
Definition zoomOption (o : ZoomOptions) (e : Event) (p : Pointer)
    : Pointer * bool :=
  let zoomType0 := default ""%string (zoomType o) in
  (* look for the pinchType option *)
  let zoomType1 :=
    if Dom.contains "touch" (type e) then default zoomType0 (pinchType o)
    else zoomType0 in
  let zoomX := Dom.contains "x" zoomType1 in
  let zoomY := Dom.contains "y" zoomType1 in
  ({| selectionMarker := selectionMarker p; hasDragged2 := hasDragged2 p;
      mouseDownX := mouseDownX p; mouseDownY := mouseDownY p;
      zoomX := zoomX; zoomY := zoomY;
      zoomHor := (zoomX && negb (inverted o)) || (zoomY && inverted o);
      zoomVert := (zoomY && negb (inverted o)) || (zoomX && inverted o) |},
   zoomX || zoomY).

(** [onContainerMouseDown] on a normalised event: every button but the
    right one starts a drag. *)
Definition onContainerMouseDown (o : ZoomOptions) (c : Chart) (p : Pointer)
    (button : Z) (e : Event) : Chart * Pointer :=
  if negb (button =? 2) then dragStart c (fst (zoomOption o e p)) e
  else (c, p).

(** The result of [getCoordinates]: for each axis its value at the
    event. *)
Record Coordinates : Type := {
  c_xAxis : list (Release.Axis * Q);
  c_yAxis : list (Release.Axis * Q)
}.

Definition value_at (e : Event) (a : Release.Axis) : Release.Axis * Q :=
  (a, Release.toValue a
        (inject_Z (if Release.horiz a then chartX e else chartY e))).

Definition getCoordinates (axes : list Release.Axis) (e : Event)
    : Coordinates :=
  fold_left
    (fun coordinates axis =>
       if Release.isXAxis axis
       then {| c_xAxis := c_xAxis coordinates ++ [value_at e axis];
               c_yAxis := c_yAxis coordinates |}
       else {| c_xAxis := c_xAxis coordinates;
               c_yAxis := c_yAxis coordinates ++ [value_at e axis] |})
    axes {| c_xAxis := []; c_yAxis := [] |}.

(** The chart with its pointer, and [chart.hoverPoint]. *)
Record World : Type := {
  base : Release.World;
  hoverPoint : option nat
}.

Inductive Call : Type :=
| SeriesClick (p : nat)        (* [fireEvent(hoverPoint.series, 'click', e)] *)
| PointClick (p : nat)         (* [hoverPoint.firePointEvent('click', e)] *)
| ChartClick (c : Coordinates).  (* [fireEvent(chart, 'click', e)] *)

Section Handlers.

(** What the handlers of the click events do to the chart. *)
Variable react : Call -> World -> World.

(** [onContainerClick] on a normalised event whose target is the first
    element of [target]. *)
Definition onContainerClick (w : World) (target : list Dom.Element)
    (e : Event) : World * list Call :=
  let chart := Release.chart (base w) in
  if negb (cancelClick chart) then
    (* on tracker click, fire the series and point events (#783, #1583) *)
    match hoverPoint w, Dom.inClass target "highcharts-tracker" with
    | Some hp, Some true =>
        (* the series click event *)
        let w1 := react (SeriesClick hp) w in
        (* the point click event; it may be destroyed (#1844) *)
        if bool_decide (is_Some (hoverPoint w1))
        then (react (PointClick hp) w1, [SeriesClick hp; PointClick hp])
        else (w1, [SeriesClick hp])
    | _, _ =>
        (* when clicking outside a tracker, fire a chart event *)
        let coordinates := getCoordinates (Release.axes (base w)) e in
        if isInsidePlot chart (chartX e - plotLeft chart)
                        (chartY e - plotTop chart)
        then (react (ChartClick coordinates) w, [ChartClick coordinates])
        else (w, [])
    end
  else (w, []).

End Handlers.

Lemma getCoordinates_fold (e : Event) (axes : list Release.Axis) :
  forall acc,
    let r := fold_left
      (fun coordinates axis =>
         if Release.isXAxis axis
         then {| c_xAxis := c_xAxis coordinates ++ [value_at e axis];
                 c_yAxis := c_yAxis coordinates |}
         else {| c_xAxis := c_xAxis coordinates;
                 c_yAxis := c_yAxis coordinates ++ [value_at e axis] |})
      axes acc in
    c_xAxis r = c_xAxis acc
                ++ map (value_at e) (List.filter Release.isXAxis axes) /\
    c_yAxis r = c_yAxis acc
                ++ map (value_at e)
                     (List.filter (fun a => negb (Release.isXAxis a)) axes).
Proof.
  induction axes as [| a axes IH]; intros acc.
  - cbn. rewrite !app_nil_r. auto.
  - cbn [fold_left List.filter]. cbv zeta in IH |- *.
    destruct (Release.isXAxis a); cbn [negb map];
      match goal with |- context [fold_left _ axes ?acc'] =>
        destruct (IH acc') as [Hx Hy] end;
      rewrite Hx, Hy; cbn [c_xAxis c_yAxis];
      rewrite <- ?app_assoc; auto.
Qed.

(** X16: [getCoordinates] sorts every axis of the chart into exactly one
    of its two lists, the x axes and the others, in the order of the
    chart's axes, each with its value at the event: at [chartX] for a
    horizontal axis, at [chartY] otherwise. *)
Theorem getCoordinates_partition (axes : list Release.Axis) (e : Event) :
  c_xAxis (getCoordinates axes e)
    = map (value_at e) (List.filter Release.isXAxis axes) /\
  c_yAxis (getCoordinates axes e)
    = map (value_at e)
        (List.filter (fun a => negb (Release.isXAxis a)) axes) /\
  (length (c_xAxis (getCoordinates axes e))
   + length (c_yAxis (getCoordinates axes e)) = length axes)%nat.
Proof.
  destruct (getCoordinates_fold e axes {| c_xAxis := []; c_yAxis := [] |})
    as [Hx Hy].
  cbn [c_xAxis c_yAxis app] in Hx, Hy. unfold getCoordinates.
  rewrite Hx, Hy. split; [reflexivity |]. split; [reflexivity |].
  rewrite !length_map. clear.
  induction axes as [| a axes IH]; [reflexivity |].
  cbn [List.filter]. destruct (Release.isXAxis a); cbn; lia.
Qed.

(** The flags [zoomOption] sets agree: some direction is zoomed exactly
    when some axis type is. *)
Lemma zoomOption_flags (o : ZoomOptions) (e : Event) (p : Pointer) :
  let p1 := fst (zoomOption o e p) in
  zoomHor p1 || zoomVert p1 = zoomX p1 || zoomY p1 /\
  snd (zoomOption o e p) = zoomX p1 || zoomY p1 /\
  selectionMarker p1 = selectionMarker p /\
  mouseDownX p1 = mouseDownX p /\ mouseDownY p1 = mouseDownY p /\
  hasDragged2 p1 = hasDragged2 p.
Proof.
  unfold zoomOption. cbn.
  repeat split.
  destruct (Dom.contains "x" _), (Dom.contains "y" _), (inverted o);
    reflexivity.
Qed.

(** X17: a selection marker that [drag] creates for a pointer whose
    flags were set by [zoomOption] follows the pointer along at least one
    direction: along each zoomed direction its side is the distance
    between the press and the pointer (brought back into the plot area),
    along the other it spans the plot area. *)
Theorem zoomed_marker_follows_pointer
    (o : ZoomOptions) (c : Chart) (p : Pointer) (e0 e : Event) (m : Marker) :
  selectionMarker p = None ->
  selectionMarker (fst (drag c (fst (zoomOption o e0 p)) e)) = Some m ->
  let p1 := fst (zoomOption o e0 p) in
  zoomHor p1 || zoomVert p1 = true /\
  (if zoomHor p1
   then width m
        = Z.abs (clamp (plotLeft c) (plotWidth c) (chartX e) - mouseDownX p)
   else x m = plotLeft c /\ width m = plotWidth c) /\
  (if zoomVert p1
   then height m
        = Z.abs (clamp (plotTop c) (plotHeight c) (chartY e) - mouseDownY p)
   else y m = plotTop c /\ height m = plotHeight c).
Proof.
  intros Hnone Hm p1.
  destruct (zoomOption_flags o e p) as (_ & _ & _ & _ & _ & _).
  destruct (zoomOption_flags o e0 p) as (Hflags & _ & Hsel & Hx & Hy & _).
  fold p1 in Hflags, Hsel, Hx, Hy, Hm.
  rewrite Hnone in Hsel. rewrite <- Hx, <- Hy.
  unfold drag in Hm. rewrite Hsel in Hm.
  destruct ((mouseDownX p1 - clamp (plotLeft c) (plotWidth c) (chartX e)) ^ 2 +
            (mouseDownY p1 - clamp (plotTop c) (plotHeight c) (chartY e)) ^ 2
            >? 100); [| cbn in Hm; congruence].
  destruct (hasCartesianSeries c && (zoomX p1 || zoomY p1)
            && clickedInside c p1 && negb (panKeyHeld c e)) eqn:Ec.
  - apply andb_true_iff in Ec as [Ec _]. apply andb_true_iff in Ec as [Ec _].
    apply andb_true_iff in Ec as [_ Ec]. rewrite <- Hflags in Ec.
    split; [exact Ec |].
    destruct (zoomHor p1), (zoomVert p1);
      cbn in Hm; injection Hm as <-; cbn; auto.
  - destruct (zoomHor p1), (zoomVert p1); cbn in Hm; discriminate.
Qed.

(** With no zoom type, a drag on a pointer without a marker records the
    distance and creates no marker. *)
Lemma drag_without_zoom (c : Chart) (p : Pointer) (e : Event) :
  zoomX p = false -> zoomY p = false -> selectionMarker p = None ->
  selectionMarker (fst (drag c p e)) = None /\
  hasDragged2 (fst (drag c p e)) = displacement2 c p e.
Proof.
  intros Hzx Hzy Hm. unfold drag. rewrite Hm, Hzx, Hzy.
  fold (displacement2 c p e).
  destruct (displacement2 c p e >? 100); [| cbn; auto].
  cbn [orb]. rewrite andb_false_r. cbn [andb].
  destruct (zoomHor p), (zoomVert p); cbn; auto.
Qed.

Lemma drags_without_zoom (c : Chart) (ms : list Event) :
  forall (p : Pointer) (d : Event),
    zoomX p = false -> zoomY p = false -> selectionMarker p = None ->
    ms <> [] ->
    selectionMarker (fst (drags c p ms)) = None /\
    hasDragged2 (fst (drags c p ms)) = displacement2 c p (List.last ms d).
Proof.
  induction ms as [| e ms IH]; intros p d Hzx Hzy Hm Hne; [congruence |].
  cbn [drags].
  destruct (drag_without_zoom c p e Hzx Hzy Hm) as [Hm1 Hd1].
  destruct (drag_frame c p e) as (Hx & Hy & Hzx1 & Hzy1 & _).
  pose proof (fun e' => displacement2_drag c p e e') as Hdisp.
  destruct (drag c p e) as [p1 eff1]. cbn [fst] in *.
  destruct ms as [| e' ms'].
  - cbn. auto.
  - destruct (IH p1 d) as [Hm2 Hd2]; try congruence.
    destruct (drags c p1 (e' :: ms')) as [p2 eff2]. cbn [fst] in *.
    split; [exact Hm2 |]. rewrite Hd2, Hdisp.
    reflexivity.
Qed.

(** X18: press, drag, release and click on a chart without a zoom type.
    The press (any button but the right one) starts the drag, no move
    creates a marker, and the release leaves the pointer idle.  The click
    that follows is cancelled exactly when the last move of the drag was
    more than ten pixels away from the press: then it fires no click
    event, whatever is hovered or clicked. *)
Theorem click_after_drag
    (react_selection : Release.SelectionData -> Release.World -> Release.World)
    (react_click : Call -> World -> World)
    (o : ZoomOptions) (c : Chart) (p : Pointer) (button : Z)
    (down up : Event) (ms : list Event)
    (i : nat) (ax : list Release.Axis) (pd : list (Z * Z)) :
  zoomType o = None ->
  Dom.contains "touch" (type down) = false ->
  button <> 2 ->
  selectionMarker p = None ->
  ms <> [] ->
  let c1 := fst (onContainerMouseDown o c p button down) in
  let p1 := snd (onContainerMouseDown o c p button down) in
  let far := displacement2 c1 p1 (List.last ms down) >? 100 in
  exists w',
    Release.drop react_selection
      {| Release.chart := c1; Release.index := Some i; Release.axes := ax;
         Release.pointer := fst (drags c1 p1 ms);
         Release.hasPinched := false; Release.pinchDown := pd |} up
      = JS.Ok (w', [Release.CssCursor]) /\
    Release.idle w' /\
    cancelClick (Release.chart w') = far /\
    (far = true ->
     forall hover target e,
       snd (onContainerClick react_click
              {| base := w'; hoverPoint := hover |} target e) = []).
Proof.
  intros Hzt Htouch Hbtn Hm Hne c1 p1 far.
  assert (Hb : negb (button =? 2) = true)
    by (apply negb_true_iff, Z.eqb_neq; exact Hbtn).
  assert (Hp1 : zoomX p1 = false /\ zoomY p1 = false /\
                selectionMarker p1 = None).
  { unfold p1, onContainerMouseDown. rewrite Hb.
    unfold zoomOption. rewrite Hzt, Htouch. cbn. auto. }
  destruct Hp1 as (Hzx & Hzy & Hm1).
  destruct (drags_without_zoom c1 ms p1 down Hzx Hzy Hm1 Hne) as [Hm2 Hd2].
  unfold Release.drop.
  cbn [Release.pointer Release.hasPinched Release.index Release.chart
       Release.axes].
  rewrite Hm2. cbn [mbind result_bind JS.bind].
  rewrite bool_decide_eq_true_2 by eauto.
  eexists. split; [reflexivity |].
  split; [unfold Release.idle; cbn; auto |].
  split; [cbn; rewrite Hd2; reflexivity |].
  intros Hfar hover target e. unfold onContainerClick.
  cbn [base Release.chart Release.pointer Release.released cancelClick].
  rewrite Hd2. fold far. rewrite Hfar. reflexivity.
Qed.

(** A chart without zoom type, pressed at (100, 100) with the left
    button, dragged to (160, 100) and released. *)
Definition no_zoom : ZoomOptions :=
  {| zoomType := None; pinchType := None; inverted := false |}.
Definition x_zoom : ZoomOptions :=
  {| zoomType := Some "x"%string; pinchType := None; inverted := false |}.

Lemma zoomed_marker_follows_pointer_witness :
  let m := {| touch := false; x := 100; y := 40; width := 100; height := 200 |} in
  let p1 := fst (zoomOption x_zoom Release.mousedown started_inside) in
  zoomHor p1 || zoomVert p1 = true /\
  (if zoomHor p1
   then width m
        = Z.abs (clamp (plotLeft zoom_chart) (plotWidth zoom_chart)
                       (chartX (move_to 200 100))
                 - mouseDownX started_inside)
   else x m = plotLeft zoom_chart /\ width m = plotWidth zoom_chart) /\
  (if zoomVert p1
   then height m
        = Z.abs (clamp (plotTop zoom_chart) (plotHeight zoom_chart)
                       (chartY (move_to 200 100))
                 - mouseDownY started_inside)
   else y m = plotTop zoom_chart /\ height m = plotHeight zoom_chart).
Proof.
  apply (zoomed_marker_follows_pointer x_zoom zoom_chart started_inside
           Release.mousedown (move_to 200 100)
           {| touch := false; x := 100; y := 40; width := 100; height := 200 |});
    reflexivity.
Defined.

Lemma click_after_drag_witness :
  let c1 := fst (onContainerMouseDown no_zoom pan_chart started_outside 0
                   Release.mousedown) in
  let p1 := snd (onContainerMouseDown no_zoom pan_chart started_outside 0
                   Release.mousedown) in
  let far := displacement2 c1 p1
               (List.last [move_to 130 100; move_to 160 100] Release.mousedown)
             >? 100 in
  exists w',
    Release.drop Release.no_reaction
      {| Release.chart := c1; Release.index := Some 0%nat; Release.axes := [];
         Release.pointer :=
           fst (drags c1 p1 [move_to 130 100; move_to 160 100]);
         Release.hasPinched := false; Release.pinchDown := [] |}
      Release.mouseup
      = JS.Ok (w', [Release.CssCursor]) /\
    Release.idle w' /\
    cancelClick (Release.chart w') = far /\
    (far = true ->
     forall hover target e,
       snd (onContainerClick (fun _ w => w)
              {| base := w'; hoverPoint := hover |} target e) = []).
Proof.
  apply (click_after_drag Release.no_reaction (fun _ w => w) no_zoom pan_chart
           started_outside 0 Release.mousedown Release.mouseup
           [move_to 130 100; move_to 160 100] 0%nat [] []).
  - reflexivity.
  - reflexivity.
  - discriminate.
  - reflexivity.
  - discriminate.
Defined.


End Click.

(** ** The document listeners over the life of the charts
    ([Pointer.setDOMEvents], [Pointer.destroy], and the statements of
    [Chart.init], [Chart.firstRender] and [Chart.destroy] that count the
    charts and create or destroy the renderer and the pointer) *)

Module Lifecycle.

Local Open Scope Z_scope.

(** How far [firstRender] has brought a chart: [getContainer] creates the
    renderer, and only after the axes and the series are initialised is
    the pointer created. *)
Inductive Stage : Type := Created | HasRenderer | HasPointer.

(** Where a call of [firstRender] ends: it returns at once when the chart
    is not ready to render; it can raise between the creation of the
    renderer and that of the pointer ([initSeries] raises for an unknown
    series type); or it gets to the pointer, and then returns, or raises
    while it renders. *)
Inductive Stop : Type :=
| NotReady
| RaisesBeforePointer
| RaisesAfterPointer
| Completes.

Inductive Outcome : Type := Returned | Raised.

(** The library's globals [H.chartCount], [H.hasTouch],
    [H.unbindDocumentMouseUp] and [H.unbindDocumentTouchEnd] (set or not),
    the charts alive with their stage, and the number of [mouseup] and
    [touchend] listeners the library holds on the document. *)
Record World : Type := {
  objs : gmap nat Stage;
  nextId : nat;
  chartCount : Z;
  hasTouch : bool;
  unbindDocumentMouseUp : bool;
  unbindDocumentTouchEnd : bool;
  docMouseUp : nat;
  docTouchEnd : nat
}.

Definition start (touch : bool) : World :=
  {| objs := ∅; nextId := 0; chartCount := 0; hasTouch := touch;
     unbindDocumentMouseUp := false; unbindDocumentTouchEnd := false;
     docMouseUp := 0; docTouchEnd := 0 |}.

Definition with_objs (m : gmap nat Stage) (w : World) : World :=
  {| objs := m; nextId := nextId w; chartCount := chartCount w;
     hasTouch := hasTouch w;
     unbindDocumentMouseUp := unbindDocumentMouseUp w;
     unbindDocumentTouchEnd := unbindDocumentTouchEnd w;
     docMouseUp := docMouseUp w; docTouchEnd := docTouchEnd w |}.

(** [Chart.init] up to [H.chartCount++]. *)
Definition Chart_init (w : World) : World :=
  {| objs := <[nextId w := Created]> (objs w);
     nextId := S (nextId w);
     chartCount := chartCount w + 1;
     hasTouch := hasTouch w;
     unbindDocumentMouseUp := unbindDocumentMouseUp w;
     unbindDocumentTouchEnd := unbindDocumentTouchEnd w;
     docMouseUp := docMouseUp w; docTouchEnd := docTouchEnd w |}.

(** [Pointer.setDOMEvents]: the document listeners are bound unless the
    library holds them already. *)
Definition setDOMEvents (w : World) : World :=
  let touch_new := hasTouch w && negb (unbindDocumentTouchEnd w) in
  {| objs := objs w; nextId := nextId w; chartCount := chartCount w;
     hasTouch := hasTouch w;
     unbindDocumentMouseUp := true;
     unbindDocumentTouchEnd := unbindDocumentTouchEnd w || hasTouch w;
     docMouseUp :=
       if unbindDocumentMouseUp w then docMouseUp w else S (docMouseUp w);
     docTouchEnd := if touch_new then S (docTouchEnd w) else docTouchEnd w |}.

(** [Chart.firstRender] on chart [id], ending as [stop] says.  A chart
    that was destroyed has lost its options: the call raises. *)
Definition Chart_firstRender (w : World) (id : nat) (stop : Stop)
    : World * Outcome :=
  match objs w !! id with
  | Some stage =>
      (* [chart.pointer = new Pointer(chart, options)], whose [init] ends
         in [setDOMEvents] *)
      let w1 := setDOMEvents w in
      match stop with
      | NotReady => (w, Returned)
      | RaisesBeforePointer =>
          (* a chart rendered before keeps the pointer it had *)
          (with_objs (<[id := match stage with
                              | HasPointer => HasPointer
                              | _ => HasRenderer
                              end]> (objs w)) w, Raised)
      | RaisesAfterPointer =>
          (with_objs (<[id := HasPointer]> (objs w1)) w1, Raised)
      | Completes =>
          (with_objs (<[id := HasPointer]> (objs w1)) w1, Returned)
      end
  | None => (w, Raised)
  end.

(** [Pointer.destroy]: the document listeners are unbound when no chart
    is left. *)
Definition Pointer_destroy (w : World) : World :=
  if chartCount w =? 0 then
    {| objs := objs w; nextId := nextId w; chartCount := chartCount w;
       hasTouch := hasTouch w;
       unbindDocumentMouseUp := false;
       unbindDocumentTouchEnd := false;
       docMouseUp :=
         if unbindDocumentMouseUp w then Nat.pred (docMouseUp w)
         else docMouseUp w;
       docTouchEnd :=
         if unbindDocumentTouchEnd w then Nat.pred (docTouchEnd w)
         else docTouchEnd w |}
  else w.

(** [Chart.destroy]: reading [chart.renderer.forExport] raises for a chart
    without renderer; otherwise the chart is counted out, and its pointer,
    if it has one, is destroyed ([if (prop && prop.destroy)]). *)
Definition Chart_destroy (w : World) (id : nat) : World * Outcome :=
  match objs w !! id with
  | Some Created => (w, Raised)
  | Some stage =>
      let w1 :=
        {| objs := delete id (objs w); nextId := nextId w;
           chartCount := chartCount w - 1;
           hasTouch := hasTouch w;
           unbindDocumentMouseUp := unbindDocumentMouseUp w;
           unbindDocumentTouchEnd := unbindDocumentTouchEnd w;
           docMouseUp := docMouseUp w;
           docTouchEnd := docTouchEnd w |} in
      (match stage with
       | HasPointer => Pointer_destroy w1
       | _ => w1
       end, Returned)
  | None => (w, Raised)
  end.

Inductive Op : Type :=
| Init
| FirstRender (id : nat) (stop : Stop)
| Destroy (id : nat).

(** The globals after one call, whether it returned or raised. *)
Definition step (w : World) (o : Op) : World :=
  match o with
  | Init => Chart_init w
  | FirstRender id stop => fst (Chart_firstRender w id stop)
  | Destroy id => fst (Chart_destroy w id)
  end.

Definition steps (w : World) (os : list Op) : World := fold_left step os w.

(** No call of [firstRender] raises between the renderer and the
    pointer. *)
Definition renders_whole (o : Op) : Prop :=
  match o with
  | FirstRender _ RaisesBeforePointer => False
  | _ => True
  end.

(** What holds of the globals between two calls. *)
Record invariant (w : World) : Prop := {
  inv_count : chartCount w = Z.of_nat (size (objs w));
  inv_fresh : forall id, is_Some (objs w !! id) -> (id < nextId w)%nat;
  inv_mouseUp :
    docMouseUp w = if unbindDocumentMouseUp w then 1%nat else 0%nat;
  inv_touchEnd :
    docTouchEnd w = if unbindDocumentTouchEnd w then 1%nat else 0%nat;
  inv_pointer :
    forall id, objs w !! id = Some HasPointer ->
      unbindDocumentMouseUp w = true /\
      (hasTouch w = true -> unbindDocumentTouchEnd w = true)
}.

(** What holds besides when every render was whole: a chart with a
    renderer has its pointer, and the listeners are unbound when no chart
    is left. *)
Record whole (w : World) : Prop := {
  whole_stage : forall id, objs w !! id <> Some HasRenderer;
  whole_none :
    chartCount w = 0 ->
    unbindDocumentMouseUp w = false /\ unbindDocumentTouchEnd w = false
}.

Lemma invariant_at_start (touch : bool) : invariant (start touch).
Proof.
  split; cbn; auto.
  - intros id [o Ho]. rewrite lookup_empty in Ho. discriminate.
  - intros id Ho. rewrite lookup_empty in Ho. discriminate.
Qed.

Lemma invariant_Chart_init (w : World) :
  invariant w -> invariant (Chart_init w).
Proof.
  intros [Hc Hf Hm Ht Hr]. split; cbn [Chart_init objs nextId chartCount
    hasTouch unbindDocumentMouseUp unbindDocumentTouchEnd docMouseUp
    docTouchEnd].
  - rewrite map_size_insert_None; [lia |].
    destruct (objs w !! nextId w) eqn:E; [| reflexivity].
    specialize (Hf (nextId w) ltac:(eauto)). lia.
  - intros id Hid. destruct (decide (id = nextId w)) as [-> | Hne]; [lia |].
    rewrite lookup_insert_ne in Hid by congruence.
    specialize (Hf id Hid). lia.
  - exact Hm.
  - exact Ht.
  - intros id Hid. destruct (decide (id = nextId w)) as [-> | Hne].
    + rewrite lookup_insert_eq in Hid. discriminate.
    + rewrite lookup_insert_ne in Hid by congruence. eauto.
Qed.

Lemma invariant_Chart_firstRender (w : World) (id : nat) (stop : Stop) :
  invariant w -> invariant (fst (Chart_firstRender w id stop)).
Proof.
  intros Hinv. pose proof Hinv as [Hc Hf Hm Ht Hr].
  unfold Chart_firstRender.
  destruct (objs w !! id) as [o |] eqn:Eo; [| exact Hinv].
  assert (Hreached :
    invariant (with_objs (<[id := HasPointer]> (objs (setDOMEvents w)))
                 (setDOMEvents w))).
  { split; cbn [setDOMEvents with_objs objs nextId chartCount hasTouch
                unbindDocumentMouseUp unbindDocumentTouchEnd docMouseUp
                docTouchEnd].
    - rewrite map_size_insert_Some by eauto. exact Hc.
    - intros j Hj. destruct (decide (j = id)) as [-> | Hne]; [eauto |].
      rewrite lookup_insert_ne in Hj by congruence. auto.
    - rewrite Hm. destruct (unbindDocumentMouseUp w); reflexivity.
    - rewrite Ht.
      destruct (unbindDocumentTouchEnd w), (hasTouch w); reflexivity.
    - intros j _. split; [reflexivity |]. intros ->. apply orb_true_r. }
  destruct stop; cbn [fst]; [exact Hinv | | exact Hreached | exact Hreached].
  split; cbn [with_objs objs nextId chartCount hasTouch
              unbindDocumentMouseUp unbindDocumentTouchEnd docMouseUp
              docTouchEnd].
  - rewrite map_size_insert_Some by eauto. exact Hc.
  - intros j Hj. destruct (decide (j = id)) as [-> | Hne]; [eauto |].
    rewrite lookup_insert_ne in Hj by congruence. auto.
  - exact Hm.
  - exact Ht.
  - intros j Hj. destruct (decide (j = id)) as [-> | Hne].
    + rewrite lookup_insert_eq in Hj. apply (Hr id). rewrite Eo.
      destruct o; [discriminate Hj | discriminate Hj | reflexivity].
    + rewrite lookup_insert_ne in Hj by congruence. eauto.
Qed.

Lemma invariant_Chart_destroy (w : World) (id : nat) :
  invariant w -> invariant (fst (Chart_destroy w id)).
Proof.
  intros Hinv. pose proof Hinv as [Hc Hf Hm Ht Hr].
  unfold Chart_destroy.
  destruct (objs w !! id) as [stage |] eqn:Eo; [| exact Hinv].
  assert (Hsize : Z.of_nat (size (delete id (objs w))) = chartCount w - 1).
  { rewrite map_size_delete_Some by eauto.
    assert (size (objs w) <> 0%nat)
      by (apply map_size_ne_0_lookup; eauto).
    lia. }
  assert (Hfresh : forall j, is_Some (delete id (objs w) !! j) ->
                             (j < nextId w)%nat).
  { intros j Hj. destruct (decide (j = id)) as [-> | Hne].
    - rewrite lookup_delete_eq in Hj. destruct Hj; discriminate.
    - rewrite lookup_delete_ne in Hj by congruence. auto. }
  assert (Hkeep : forall j, delete id (objs w) !! j = Some HasPointer ->
                            objs w !! j = Some HasPointer).
  { intros j Hj. destruct (decide (j = id)) as [-> | Hne].
    - rewrite lookup_delete_eq in Hj. discriminate.
    - rewrite lookup_delete_ne in Hj by congruence. exact Hj. }
  destruct stage; cbn [fst]; [exact Hinv | |].
  - split; cbn [objs nextId chartCount hasTouch unbindDocumentMouseUp
                unbindDocumentTouchEnd docMouseUp docTouchEnd].
    + symmetry. exact Hsize.
    + exact Hfresh.
    + exact Hm.
    + exact Ht.
    + intros j Hj. eauto.
  - destruct (Hr id Eo) as [Hmu Hte].
    unfold Pointer_destroy. cbn [chartCount].
    destruct (chartCount w - 1 =? 0) eqn:E0.
    + apply Z.eqb_eq in E0.
      split; cbn [objs nextId chartCount hasTouch unbindDocumentMouseUp
                  unbindDocumentTouchEnd docMouseUp docTouchEnd].
      * symmetry. exact Hsize.
      * exact Hfresh.
      * rewrite Hm, Hmu. reflexivity.
      * rewrite Ht. destruct (unbindDocumentTouchEnd w); reflexivity.
      * intros j Hj. exfalso.
        assert (size (delete id (objs w)) <> 0%nat)
          by (apply map_size_ne_0_lookup; eauto).
        lia.
    + split; cbn [objs nextId chartCount hasTouch unbindDocumentMouseUp
                  unbindDocumentTouchEnd docMouseUp docTouchEnd].
      * symmetry. exact Hsize.
      * exact Hfresh.
      * exact Hm.
      * exact Ht.
      * intros j Hj. eauto.
Qed.

Lemma invariant_call (w : World) (o : Op) :
  invariant w -> invariant (step w o).
Proof.
  intros H. destruct o as [| id stop | id]; cbn [step].
  - apply invariant_Chart_init, H.
  - apply invariant_Chart_firstRender, H.
  - apply invariant_Chart_destroy, H.
Qed.

Lemma invariant_lifecycle (os : list Op) :
  forall w, invariant w -> invariant (steps w os).
Proof.
  induction os as [| o os IH]; intros w H; [exact H |].
  apply (IH (step w o)), invariant_call, H.
Qed.

Lemma whole_call (w : World) (o : Op) :
  invariant w -> whole w -> renders_whole o -> whole (step w o).
Proof.
  intros [Hc Hf Hm Ht Hr] [Hs Hn] Ho.
  destruct o as [| id stop | id]; cbn [step].
  - split; cbn [Chart_init objs chartCount unbindDocumentMouseUp
                unbindDocumentTouchEnd].
    + intros j. destruct (decide (j = nextId w)) as [-> | Hne].
      * rewrite lookup_insert_eq. discriminate.
      * rewrite lookup_insert_ne by congruence. apply Hs.
    + intros H0. lia.
  - unfold Chart_firstRender.
    destruct (objs w !! id) as [o |] eqn:Eo; [| split; assumption].
    assert (Hreached :
      whole (with_objs (<[id := HasPointer]> (objs (setDOMEvents w)))
               (setDOMEvents w))).
    { split; cbn [setDOMEvents with_objs objs chartCount
                  unbindDocumentMouseUp unbindDocumentTouchEnd].
      - intros j. destruct (decide (j = id)) as [-> | Hne].
        + rewrite lookup_insert_eq. discriminate.
        + rewrite lookup_insert_ne by congruence. apply Hs.
      - intros H0. exfalso.
        assert (size (objs w) <> 0%nat)
          by (apply map_size_ne_0_lookup; eauto).
        lia. }
    destruct stop; cbn [fst];
      [split; assumption | destruct Ho | exact Hreached | exact Hreached].
  - unfold Chart_destroy.
    destruct (objs w !! id) as [stage |] eqn:Eo; [| split; assumption].
    assert (Hs' : forall j, delete id (objs w) !! j <> Some HasRenderer).
    { intros j. destruct (decide (j = id)) as [-> | Hne].
      - rewrite lookup_delete_eq. discriminate.
      - rewrite lookup_delete_ne by congruence. apply Hs. }
    destruct stage; cbn [fst];
      [split; assumption | exfalso; exact (Hs id Eo) |].
    unfold Pointer_destroy. cbn [chartCount].
    destruct (chartCount w - 1 =? 0) eqn:E0.
    + split; cbn [objs chartCount unbindDocumentMouseUp
                  unbindDocumentTouchEnd]; auto.
    + apply Z.eqb_neq in E0.
      split; cbn [objs chartCount unbindDocumentMouseUp
                  unbindDocumentTouchEnd]; [exact Hs' |].
      intros H0. contradiction.
Qed.

Lemma whole_lifecycle (os : list Op) :
  forall w, invariant w -> whole w -> Forall renders_whole os ->
            whole (steps w os).
Proof.
  induction os as [| o os IH]; intros w Hi Hw Hall; [exact Hw |].
  apply Forall_cons in Hall as [Ho Hall].
  apply (IH (step w o)); [apply invariant_call, Hi | | exact Hall].
  apply whole_call; assumption.
Qed.

(** A chart is rendered; a second one is created, but its first render
    raises after the renderer is there; both are destroyed. *)
Definition interrupted_render : list Op :=
  [Init; FirstRender 0 Completes;
   Init; FirstRender 1 RaisesBeforePointer;
   Destroy 0; Destroy 1].

(** X19: whatever charts are created, rendered and destroyed, in
    whatever order and however far each render gets, the library never
    holds more than one [mouseup] and one [touchend] listener on the
    document; it holds the [mouseup] listener (and on a touch device the
    [touchend] listener) while a chart with a pointer is alive; and
    [chartCount] is the number of charts alive.  When no render raised
    between the creation of the renderer and that of the pointer, no
    listener is left once the count is back at zero.  After such a render
    the listener can stay bound with no chart left: the chart is counted
    out by [Chart.destroy], which has no pointer to destroy. *)
Theorem document_listeners_single (touch : bool) (os : list Op) :
  (docMouseUp (steps (start touch) os) <= 1)%nat /\
  (docTouchEnd (steps (start touch) os) <= 1)%nat /\
  (forall id,
     objs (steps (start touch) os) !! id = Some HasPointer ->
     docMouseUp (steps (start touch) os) = 1%nat /\
     (touch = true -> docTouchEnd (steps (start touch) os) = 1%nat)) /\
  chartCount (steps (start touch) os)
    = Z.of_nat (size (objs (steps (start touch) os))) /\
  (Forall renders_whole os ->
   chartCount (steps (start touch) os) = 0 ->
   docMouseUp (steps (start touch) os) = 0%nat /\
   docTouchEnd (steps (start touch) os) = 0%nat) /\
  (chartCount (steps (start touch) interrupted_render) = 0 /\
   docMouseUp (steps (start touch) interrupted_render) = 1%nat).
Proof.
  assert (Htouch : forall l w, hasTouch (steps w l) = hasTouch w).
  { induction l as [| o l IH]; intros w; [reflexivity |].
    cbn [steps fold_left]. fold (steps (step w o) l). rewrite IH.
    destruct o as [| id stop | id]; cbn [step]; [reflexivity | |].
    - unfold Chart_firstRender.
      destruct (objs w !! id); [destruct stop |]; reflexivity.
    - unfold Chart_destroy. destruct (objs w !! id) as [[| |] |];
        try reflexivity.
      unfold Pointer_destroy. cbn [chartCount fst].
      destruct (chartCount w - 1 =? 0); reflexivity. }
  pose proof (invariant_lifecycle os _ (invariant_at_start touch))
    as [Hc Hf Hm Ht Hr].
  assert (Hwhole : whole (start touch)).
  { split; cbn; auto. }
  pose proof (fun H => whole_lifecycle os _ (invariant_at_start touch)
                         Hwhole H) as Hw.
  specialize (Htouch os (start touch)). cbn [start hasTouch] in Htouch.
  set (w := steps (start touch) os) in *.
  split; [rewrite Hm; destruct (unbindDocumentMouseUp w); lia |].
  split; [rewrite Ht; destruct (unbindDocumentTouchEnd w); lia |].
  split.
  { intros id H. destruct (Hr id H) as [H1 H2]. split.
    - rewrite Hm, H1. reflexivity.
    - intros ->. rewrite Ht, H2; [reflexivity | exact Htouch]. }
  split; [exact Hc |].
  split.
  { intros Hall H0. destruct (Hw Hall) as [_ Hn].
    destruct (Hn H0) as [H1 H2]. rewrite Hm, Ht, H1, H2. auto. }
  destruct touch; split; reflexivity.
Qed.

End Lifecycle.

(** ** The tooltips of a split tooltip ([Tooltip.cleanSplit]) *)

Module Split.

(** A series' own tooltip label and its [isActive] flag. *)
Record Label : Type := { isActive : bool }.

Record Series : Type := { tt : option Label }.

(** One turn of the loop over [chart.series]: the series afterwards, and
    whether its label was destroyed. *)
Definition clean (force : bool) (series : option Series)
    : option Series * bool :=
  match series with
  | Some s =>
      match tt s with
      | Some l =>
          if negb (isActive l) || force
          then (Some {| tt := None |}, true)
          else (Some {| tt := Some {| isActive := false |} |}, false)
      | None => (series, false)
      end
  | None => (series, false)
  end.

(** [cleanSplit(force)]: the series afterwards, and the number of labels
    destroyed. *)
Definition cleanSplit (force : bool) (series : list (option Series))
    : list (option Series) * nat :=
  fold_left
    (fun '(done, n) s =>
       let '(s', destroyed) := clean force s in
       (done ++ [s'], if destroyed : bool then S n else n))
    series ([], 0%nat).

(** The series has a label. *)
Definition labelled (series : option Series) : bool :=
  match series with
  | Some s => bool_decide (is_Some (tt s))
  | None => false
  end.

(** The number of series that have a label. *)
Definition labels (series : list (option Series)) : nat :=
  length (List.filter labelled series).

Lemma cleanSplit_fold (force : bool) (series : list (option Series)) :
  forall done n,
    fold_left
      (fun '(done, n) s =>
         let '(s', destroyed) := clean force s in
         (done ++ [s'], if destroyed : bool then S n else n))
      series (done, n)
    = (done ++ map (fun s => fst (clean force s)) series,
       (n + length (List.filter (fun s => snd (clean force s)) series))%nat).
Proof.
  induction series as [| s series IH]; intros done n.
  - cbn. rewrite app_nil_r, Nat.add_0_r. reflexivity.
  - cbn [fold_left map List.filter].
    destruct (clean force s) as [s' d] eqn:E. cbn [fst snd].
    rewrite IH, <- app_assoc. cbn [app].
    destruct d; cbn [length]; f_equal; lia.
Qed.

Lemma clean_twice (s : option Series) :
  fst (clean false (fst (clean false s))) = fst (clean true s) /\
  snd (clean true s) = labelled s /\
  labelled (fst (clean true s)) = false /\
  (snd (clean false s) = true ->
   snd (clean false (fst (clean false s))) = false) /\
  (labelled s = true ->
   snd (clean false s) = false ->
   snd (clean false (fst (clean false s))) = true) /\
  (labelled s = false ->
   snd (clean false s) = false /\
   snd (clean false (fst (clean false s))) = false).
Proof. destruct s as [[[[[|]] |]] |]; cbn; repeat split; congruence. Qed.

(** X20: a label in use survives one pass of [cleanSplit] but loses its
    [isActive] flag, so that a second pass destroys it: two passes without
    force leave the series as one forced pass does, without any label, and
    destroy the same number of labels, every label once. *)
Theorem cleanSplit_twice (series : list (option Series)) :
  fst (cleanSplit false (fst (cleanSplit false series)))
    = fst (cleanSplit true series) /\
  (snd (cleanSplit false series)
   + snd (cleanSplit false (fst (cleanSplit false series))))%nat
    = snd (cleanSplit true series) /\
  snd (cleanSplit true series) = labels series /\
  labels (fst (cleanSplit true series)) = 0%nat.
Proof.
  unfold cleanSplit.
  repeat (rewrite cleanSplit_fold; cbn [fst snd app Nat.add]).
  unfold labels.
  induction series as [| s series IH]; [repeat split |].
  destruct IH as (IH1 & IH2 & IH3 & IH4).
  destruct (clean_twice s) as (L1 & L2 & L3 & L4 & L5 & L6).
  cbn [map List.filter]. rewrite L1, IH1, L2, L3.
  split; [reflexivity |].
  destruct (labelled s) eqn:El.
  - destruct (snd (clean false s)) eqn:E1.
    + rewrite (L4 eq_refl). cbn [length]. repeat split; lia.
    + rewrite (L5 eq_refl eq_refl). cbn [length]. repeat split; lia.
  - destruct (L6 eq_refl) as [-> ->]. repeat split; lia.
Qed.

End Split.

(** ** Leaving the chart ([Pointer.onDocumentMouseMove],
    [Pointer.onContainerMouseLeave]) *)

Module Outside.

Local Open Scope Z_scope.

(** The hover state of the chart with this index is reset
    ([pointer.reset()]). *)
Inductive Call : Type := Reset (chart : nat).

(** [chart.isInsidePlot(e.chartX - chart.plotLeft, e.chartY - chart.plotTop)]
    on the rounded coordinates: the comparisons fail on NaN, and one of
    the two bounds fails on an infinity. *)
Definition insidePlot (c : Gesture.Chart) (cx cy : Normalize.rounded) : bool :=
  match cx, cy with
  | Normalize.Int x, Normalize.Int y =>
      Gesture.isInsidePlot c (x - Gesture.plotLeft c) (y - Gesture.plotTop c)
  | _, _ => false
  end.

(** [onDocumentMouseMove] of the pointer of chart [i]: the event is
    normalised with the cached chart position; outside the plot area and
    off the trackers the hover state is reset (#149). *)
Definition onDocumentMouseMove (i : nat) (c : Gesture.Chart)
    (ptr : Normalize.Pointer) (σ : gmap nat Normalize.EventObj) (e : nat)
    (target : list Dom.Element)
    : JS.result (Normalize.Pointer * gmap nat Normalize.EventObj * list Call) :=
  let chartPosition := Normalize.chartPosition ptr in
  '(ptr1, σ1, e1) ← Normalize.normalize ptr σ e chartPosition;
  ev ← JS.deref (σ1 !! e1);
  cx ← JS.deref (Normalize.chartX ev);
  cy ← JS.deref (Normalize.chartY ev);
  (* if we're outside, hide the tooltip *)
  if bool_decide (is_Some chartPosition)
     && negb (bool_decide (Dom.inClass target "highcharts-tracker" = Some true))
     && negb (insidePlot c cx cy)
  then JS.Ok (ptr1, σ1, [Reset i])
  else JS.Ok (ptr1, σ1, []).

(** [onContainerMouseLeave]: the hover chart, if there is one and the
    event has a related target (#4886), is reset and its pointer forgets
    the chart position.  [pointers] holds the pointer of every chart in
    [charts]. *)
Definition onContainerMouseLeave (pointers : gmap nat Normalize.Pointer)
    (hoverChartIndex : option nat) (related : bool)
    : gmap nat Normalize.Pointer * list Call :=
  match hoverChartIndex with
  | Some i =>
      match pointers !! i with
      | Some ptr =>
          if related then
            (<[i := {| Normalize.chartPosition := None;
                       Normalize.containerOffset :=
                         Normalize.containerOffset ptr |}]> pointers,
             [Reset i])
          else (pointers, [])
      | None => (pointers, [])
      end
  | None => (pointers, [])
  end.

(** X22: once the pointer has left the container, the next mouse move
    on the document resets nothing, wherever it is: the leave has cleared
    the cached chart position, and the move only measures and caches it
    again.  The leave itself resets the hover chart once. *)
Theorem document_move_after_leave
    (pointers : gmap nat Normalize.Pointer) (i : nat) (ptr : Normalize.Pointer)
    (c : Gesture.Chart) (σ : gmap nat Normalize.EventObj) (e : nat)
    (ev : Normalize.EventObj) (p : Normalize.Pos) (target : list Dom.Element) :
  pointers !! i = Some ptr ->
  σ !! e = Some ev ->
  Normalize.ePos ev = JS.Ok p ->
  snd (onContainerMouseLeave pointers (Some i) true) = [Reset i] /\
  exists ptr0 σ1,
    fst (onContainerMouseLeave pointers (Some i) true) !! i = Some ptr0 /\
    onDocumentMouseMove i c ptr0 σ e target
      = JS.Ok ({| Normalize.chartPosition := Some (Normalize.containerOffset ptr);
                  Normalize.containerOffset := Normalize.containerOffset ptr |},
               σ1, []) /\
    (Normalize.chartX <$> σ1 !! e)
      = Some (Some (Normalize.Math_round
                      (PrimFloat.sub (Normalize.pageX p)
                         (Normalize.left (Normalize.containerOffset ptr))))).
Proof.
  intros Hi He Hp. unfold onContainerMouseLeave. rewrite Hi. cbn [fst snd].
  split; [reflexivity |].
  eexists _, _. split; [apply lookup_insert_eq |].
  unfold onDocumentMouseMove. cbn [Normalize.chartPosition].
  rewrite (Normalize.normalize_ok _ σ e None ev p He Hp).
  cbn [mbind result_bind JS.bind Normalize.offset_used default
       Normalize.containerOffset Normalize.chartPosition].
  rewrite lookup_alter_eq, He.
  cbn [fmap option_fmap option_map JS.deref JS.bind
       Normalize.with_chart Normalize.chartX Normalize.chartY].
  split; [reflexivity |].
  rewrite lookup_alter_eq, He. reflexivity.
Qed.

Lemma document_move_after_leave_witness :
  snd (onContainerMouseLeave {[ 0%nat := Normalize.pointer0 ]} (Some 0%nat) true)
    = [Reset 0] /\
  exists ptr0 σ1,
    fst (onContainerMouseLeave {[ 0%nat := Normalize.pointer0 ]}
           (Some 0%nat) true) !! 0%nat = Some ptr0 /\
    onDocumentMouseMove 0 Gesture.zoom_chart ptr0
        {[ 0%nat := Normalize.click ]} 0%nat [Dom.page]
      = JS.Ok ({| Normalize.chartPosition :=
                    Some (Normalize.containerOffset Normalize.pointer0);
                  Normalize.containerOffset :=
                    Normalize.containerOffset Normalize.pointer0 |},
               σ1, []) /\
    (Normalize.chartX <$> σ1 !! 0%nat)
      = Some (Some (Normalize.Math_round
                      (PrimFloat.sub
                         (Normalize.pageX (Normalize.page Normalize.click))
                         (Normalize.left
                            (Normalize.containerOffset Normalize.pointer0))))).
Proof.
  apply (document_move_after_leave {[ 0%nat := Normalize.pointer0 ]} 0%nat
           Normalize.pointer0 Gesture.zoom_chart {[ 0%nat := Normalize.click ]}
           0%nat Normalize.click (Normalize.page Normalize.click) [Dom.page]).
  - apply lookup_singleton_eq.
  - apply lookup_singleton_eq.
  - reflexivity.
Defined.

End Outside.
